(** * Instrumental drivers: Keithley 2635A, Agilent E3633A, Ibsen Eagle, HP 70951B

    A shallow embedding of the four driver modules

      - [instrumental/drivers/powersupplies/Keithley2635A.py]
      - [instrumental/drivers/powersupplies/AgilentE3633A.py]
      - [instrumental/drivers/spectrometers/ibsen.py]
      - [instrumental/drivers/spectrometers/hp.py]

    Driver methods mutate the driver object ([self.is_on], [self.mode],
    [self._rsrc.timeout], ...) and talk to the instrument through
    [self.write] / [self.query]; both may raise.  They are embedded in a
    state-and-exception monad whose state carries the driver object, the
    chronological log of transactions that reached the instrument and
    the lines printed on the console. *)

From Stdlib Require Import String Ascii List Bool ZArith QArith Lia Lqa PrimFloat.
From Stdlib Require Import DecimalString.
From Stdlib Require Import Reals Lra Psatz Floats.
Import ListNotations.

#[local] Set Warnings "-inexact-float".

Open Scope list_scope.
Open Scope string_scope.

(* ================================================================== *)
(** * The session layer *)
(* ================================================================== *)

(** Python exceptions that the modelled code can raise. *)
Inductive exn : Type :=
| VisaIOError          (* pyvisa.errors.VisaIOError: I/O failure or timeout *)
| ValueError           (* int(..) / float(..) / tuple unpacking *)
| IndexError           (* list index out of range *)
| UnboundLocalError    (* local variable read before assignment *)
| DimensionalityError. (* pint: incompatible unit conversion *)

Inductive outcome (A : Type) : Type :=
| Ok (a : A)
| Raise (e : exn).
Arguments Ok {A} a.
Arguments Raise {A} e.

(** What happens at the instrument interface, in the order it happens.
    A [Sleep] is the driver waiting ([time.sleep]) between transactions;
    its argument is in milliseconds. *)
Inductive event : Type :=
| Write (cmd : string)
| Query (cmd reply : string)
| Sleep (ms : Z).

(** The instrument at the other end of the bus, as a test double: whether
    it takes a command and what it answers to a query may depend on
    everything that was exchanged so far.  [None] / [false] is an I/O
    failure or timeout, which pyvisa reports as [VisaIOError]. *)
Record instrument : Type := {
  accepts : list event -> string -> bool;
  answers : list event -> string -> option string
}.

(** An instrument that takes every command. *)
Definition writable (dev : instrument) : Prop :=
  forall h cmd, accepts dev h cmd = true.

Record world (S : Type) : Type := {
  self   : S;
  log    : list event;
  stdout : list string
}.
Arguments self {S} w.
Arguments log {S} w.
Arguments stdout {S} w.

Definition M (S A : Type) : Type := world S -> outcome A * world S.

Section Session.
Context {S : Type}.

Definition ret {A} (a : A) : M S A := fun w => (Ok a, w).

Definition bind {A B} (m : M S A) (k : A -> M S B) : M S B :=
  fun w => match m w with
           | (Ok a, w') => k a w'
           | (Raise e, w') => (Raise e, w')
           end.

Definition raise {A} (e : exn) : M S A := fun w => (Raise e, w).

Definition get_self : M S S := fun w => (Ok (self w), w).

Definition set_self (s : S) : M S unit :=
  fun w => (Ok tt, {| self := s; log := log w; stdout := stdout w |}).

Definition emit (ev : event) : M S unit :=
  fun w => (Ok tt, {| self := self w; log := (log w ++ [ev])%list;
                      stdout := stdout w |}).

Definition print (line : string) : M S unit :=
  fun w => (Ok tt, {| self := self w; log := log w;
                      stdout := (stdout w ++ [line])%list |}).

(** [time.sleep(seconds)], recorded in milliseconds. *)
Definition sleep (ms : Z) : M S unit := emit (Sleep ms).

(** Lift a pure computation that may raise. *)
Definition lift {A} (e : exn) (o : option A) : M S A :=
  match o with Some a => ret a | None => raise e end.

Variable dev : instrument.

(** Modelled from the spec: [VisaMixin.write] (instrumental/drivers, not
    under src/).  Spec 4.1: "write(command): sends a framed command;
    fails with TransportError on I/O failure or timeout". *)
Definition write (cmd : string) : M S unit :=
  fun w => if accepts dev (log w) cmd
           then emit (Write cmd) w
           else (Raise VisaIOError, w).

(** Modelled from the spec: [VisaMixin.query] (instrumental/drivers, not
    under src/).  Spec 4.1: "query(command) -> string: write followed by
    a blocking read until termination sequence or timeout; fails with
    TimeoutError if no response arrives". *)
Definition query (cmd : string) : M S string :=
  fun w => match answers dev (log w) cmd with
           | Some r => (Ok r, {| self := self w;
                                 log := (log w ++ [Query cmd r])%list;
                                 stdout := stdout w |})
           | None => (Raise VisaIOError, w)
           end.
End Session.

Declare Scope session_scope.
Delimit Scope session_scope with session.
Notation "x <- m ;; k" := (bind m (fun x => k))
  (at level 61, m at next level, right associativity) : session_scope.
Notation "m ;; k" := (bind m (fun _ => k))
  (at level 61, right associativity) : session_scope.
Open Scope session_scope.

(** Result, final driver object and newly issued transactions of a run. *)
Definition result {S A} (r : outcome A * world S) : outcome A := fst r.
Definition final {S A} (r : outcome A * world S) : S := self (snd r).
Definition trace {S A} (r : outcome A * world S) : list event := log (snd r).

(** The write commands of a log, in order. *)
Fixpoint writes (l : list event) : list string :=
  match l with
  | [] => []
  | Write c :: l' => c :: writes l'
  | _ :: l' => writes l'
  end.

(** External collaborators of the power-supply drivers: the unit library
    ([pint]) and Python's [%]-formatting of floats.  [to_m q u] is
    [q.to(u).m], which raises on incompatible dimensions; [fmt_E p x] is
    ['%.<p>E' % x]. *)
Inductive pint_unit : Type := u_V | u_A | u_s.

Class Runtime : Type := {
  Quantity : Type;
  to_m     : Quantity -> pint_unit -> option float;
  fmt_E    : nat -> float -> string
}.

(* ================================================================== *)
(** * Keithley2635A.py *)
(* ================================================================== *)

Module Keithley.
Section Driver.
Context `{Runtime}.
Variable dev : instrument.

(** The attributes set by [_initialize]. *)
Record t : Type := {
  cur_compliance  : Quantity;
  volt_compliance : Quantity;
  is_on           : bool;     (* 0 / 1 in the source *)
  mode            : string    (* 'VOLTS' or 'AMPS' *)
}.

Definition set_is_on (b : bool) : M t unit :=
  s <- get_self ;;
  set_self {| cur_compliance := cur_compliance s;
              volt_compliance := volt_compliance s;
              is_on := b; mode := mode s |}.

Definition set_mode (m : string) : M t unit :=
  s <- get_self ;;
  set_self {| cur_compliance := cur_compliance s;
              volt_compliance := volt_compliance s;
              is_on := is_on s; mode := m |}.

Definition set_volt_compliance_attr (q : Quantity) : M t unit :=
  s <- get_self ;;
  set_self {| cur_compliance := cur_compliance s;
              volt_compliance := q;
              is_on := is_on s; mode := mode s |}.

Definition set_cur_compliance_attr (q : Quantity) : M t unit :=
  s <- get_self ;;
  set_self {| cur_compliance := q;
              volt_compliance := volt_compliance s;
              is_on := is_on s; mode := mode s |}.

Definition OUTPUT_ON  := "smua.source.output = smua.OUTPUT_ON".
Definition OUTPUT_OFF := "smua.source.output = smua.OUTPUT_OFF".
Definition FUNC (mode : string) := "smua.source.func = smua.OUTPUT_DC" ++ mode.

(** [def turn_on(self)] *)
Definition turn_on : M t unit :=
  write dev OUTPUT_ON ;;
  set_is_on true.

(** [def turn_off(self)] *)
Definition turn_off : M t unit :=
  write dev OUTPUT_OFF ;;
  set_is_on false.

(** [def set_func(self, mode)] *)
Definition set_func (mode : string) : M t unit :=
  if negb ((mode =? "VOLTS") || (mode =? "AMPS")) then
    print "Source meter mode not correct. NO action taken"
  else
    write dev (FUNC mode) ;;
    set_mode mode.

(** [def set_voltage_compliance(self, v_comp)] *)
Definition set_voltage_compliance (v_comp : Quantity) : M t unit :=
  x <- lift DimensionalityError (to_m v_comp u_V) ;;
  write dev ("smua.source.limitv = " ++ fmt_E 4 x) ;;
  y <- lift DimensionalityError (to_m v_comp u_V) ;;
  write dev ("smua.measure.rangev = " ++ fmt_E 4 y) ;;
  set_volt_compliance_attr v_comp.

(** [def set_current_compliance(self, i_comp)] *)
Definition set_current_compliance (i_comp : Quantity) : M t unit :=
  x <- lift DimensionalityError (to_m i_comp u_A) ;;
  write dev ("smua.source.limiti = " ++ fmt_E 4 x) ;;
  set_cur_compliance_attr i_comp.

(** Lines 102-108 of [set_voltage] and 119-125 of [set_current]: bring
    the source into mode [target] and make sure the output is on. *)
Definition switch_mode (target : string) : M t unit :=
  s <- get_self ;;
  (if negb (mode s =? target) then
     turn_off ;;
     set_func target ;;
     sleep 100            (* time.sleep(0.1) *)
   else ret tt) ;;
  s' <- get_self ;;
  (if negb (is_on s') then turn_on else ret tt).

(** [def set_voltage(self, voltage)] *)
Definition set_voltage (voltage : Quantity) : M t unit :=
  switch_mode "VOLTS" ;;
  x <- lift DimensionalityError (to_m voltage u_V) ;;
  write dev ("smua.source.levelv = " ++ fmt_E 4 x).

(** [def set_current(self, current)] *)
Definition set_current (current : Quantity) : M t unit :=
  switch_mode "AMPS" ;;
  x <- lift DimensionalityError (to_m current u_A) ;;
  write dev ("smua.source.leveli = " ++ fmt_E 4 x).

End Driver.
End Keithley.

(* ================================================================== *)
(** * Python built-ins used by the drivers *)
(* ================================================================== *)

Module Py.

(** Characters that [str.isspace] accepts, among the 7-bit ones. *)
Definition is_space (c : ascii) : bool :=
  let n := nat_of_ascii c in
  ((9 <=? n) && (n <=? 13) || (28 <=? n) && (n <=? 32))%nat.

Fixpoint lstrip (s : string) : string :=
  match s with
  | String c s' => if is_space c then lstrip s' else s
  | EmptyString => EmptyString
  end.

(** [s.rstrip()] *)
Fixpoint rstrip (s : string) : string :=
  match s with
  | EmptyString => EmptyString
  | String c s' =>
      match rstrip s' with
      | EmptyString => if is_space c then EmptyString else String c EmptyString
      | t => String c t
      end
  end.

(** [s.split(sep, maxsplit)] for a one-character separator: at most
    [maxsplit] cuts, hence at most [maxsplit + 1] fields. *)
Fixpoint split (sep : ascii) (maxsplit : nat) (s : string) : list string :=
  match s with
  | EmptyString => [EmptyString]
  | String c s' =>
      if Ascii.eqb c sep then
        match maxsplit with
        | O => [s]
        | Datatypes.S k => EmptyString :: split sep k s'
        end
      else
        match split sep maxsplit s' with
        | f :: fs => String c f :: fs
        | [] => [String c EmptyString]
        end
  end.

(** [re.match(pattern, s)] for a pattern without metacharacters, which
    is what both modules pass: [s] starts with [pattern]. *)
Definition re_match (pattern s : string) : bool := String.prefix pattern s.

(** [s.split()]: cut at runs of whitespace, no empty fields. *)
Fixpoint split_ws_from (cur : string) (s : string) : list string :=
  match s with
  | EmptyString => if cur =? "" then [] else [cur]
  | String c s' =>
      if is_space c then
        if cur =? "" then split_ws_from "" s'
        else cur :: split_ws_from "" s'
      else split_ws_from (cur ++ String c "") s'
  end.

Definition split_ws (s : string) : list string := split_ws_from "" s.

(** [s[n:]] *)
Fixpoint slice_from (n : nat) (s : string) : string :=
  match n, s with
  | O, _ => s
  | Datatypes.S k, String _ s' => slice_from k s'
  | Datatypes.S _, EmptyString => EmptyString
  end.

Definition digit (c : ascii) : option Z :=
  let n := nat_of_ascii c in
  if ((48 <=? n) && (n <=? 57))%nat then Some (Z.of_nat (n - 48)) else None.

(** The digits of an integer literal, most significant first; a single
    underscore may separate two digits.  [after_digit] tells whether
    the previous character was a digit. *)
Fixpoint digits (acc : Z) (after_digit : bool) (s : string) : option Z :=
  match s with
  | EmptyString => if after_digit then Some acc else None
  | String c s' =>
      if Ascii.eqb c "_" then
        if after_digit then digits acc false s' else None
      else
        match digit c with
        | Some d => digits (10 * acc + d) true s'
        | None => None
        end
  end.

(** [int(s)] in base 10 on 7-bit text: surrounding whitespace is
    dropped, one sign is allowed; [None] is a [ValueError]. *)
Definition int (s : string) : option Z :=
  match rstrip (lstrip s) with
  | String "-" s' => option_map Z.opp (digits 0 false s')
  | String "+" s' => digits 0 false s'
  | s' => digits 0 false s'
  end.

End Py.

(* ================================================================== *)
(** * Bus discovery: [list_instruments] of both power-supply modules *)
(* ================================================================== *)

Module Discovery.

(** [pyvisa.ResourceManager]: the addresses that match a search string
    and, for each address, the instrument that [open_resource] yields
    ([None]: the resource cannot be opened, a [VisaIOError]). *)
Record resource_manager : Type := {
  list_resources : string -> list string;
  open_resource  : string -> option instrument
}.

(** [ParamSet(cls, visa_address=.., manufacturer=.., serial=..,
    model=.., version=..)] *)
Record ParamSet : Type := {
  cls          : string;
  visa_address : string;
  manufacturer : string;
  serial       : string;
  model        : string;
  version      : string
}.

Section Scan.
Variable rm : resource_manager.
Variables driver pattern : string.

(** The body of the [try] for one address: [Some] descriptor when the
    model matches, [None] when it does not. *)
Definition identify (spec : string) : outcome (option ParamSet) :=
  match open_resource rm spec with
  | None => Raise VisaIOError
  | Some inst =>
      match answers inst [] "*IDN?" with
      | None => Raise VisaIOError
      | Some idn =>
          match Py.split "," 4 (Py.rstrip idn) with
          | [manufacturer; model; serial; version] =>
              if Py.re_match pattern model then
                Ok (Some {| cls := driver; visa_address := spec;
                            manufacturer := manufacturer;
                            serial := serial; model := model;
                            version := version |})
              else Ok None
          | _ => Raise ValueError    (* tuple unpacking *)
          end
      end
  end.

(** The [for spec in raw_spec_list] loop with its
    [except pyvisa.errors.VisaIOError: pass]. *)
Fixpoint scan_loop (specs : list string) (paramsets : list ParamSet)
  : outcome (list ParamSet) :=
  match specs with
  | [] => Ok paramsets
  | spec :: rest =>
      match identify spec with
      | Ok (Some p) => scan_loop rest (paramsets ++ [p])%list
      | Ok None => scan_loop rest paramsets
      | Raise VisaIOError => scan_loop rest paramsets
      | Raise e => Raise e
      end
  end.

Definition scan : outcome (list ParamSet) :=
  scan_loop (list_resources rm "GPIB?*") [].
End Scan.

(** What one candidate contributes to a scan: its descriptor if it
    identifies and matches, nothing otherwise. *)
Definition matching (rm : resource_manager) (driver pattern : string)
           (spec : string) : list ParamSet :=
  match identify rm driver pattern spec with
  | Ok (Some p) => [p]
  | _ => []
  end.

End Discovery.

(** [Keithley2635A.list_instruments] *)
Definition Keithley_list_instruments (rm : Discovery.resource_manager) :=
  Discovery.scan rm "Keithley" " Model 2635A".

(** [AgilentE3633A.list_instruments] *)
Definition Agilent_list_instruments (rm : Discovery.resource_manager) :=
  Discovery.scan rm "AgilentE3633A" "E3633A".

(* ================================================================== *)
(** * AgilentE3633A.py *)
(* ================================================================== *)

Module Agilent.
Section Driver.
Context `{Runtime}.
Variable dev : instrument.

Record t : Type := {
  OUTPUT_on : bool;      (* 0 / 1 in the source *)
  cur_limit : float
}.

Definition set_OUTPUT_on (b : bool) : M t unit :=
  s <- get_self ;;
  set_self {| OUTPUT_on := b; cur_limit := cur_limit s |}.

(** [def turn_output_on(self)] *)
Definition turn_output_on : M t unit :=
  write dev ":OUTP ON" ;;
  set_OUTPUT_on true.

(** [def turn_output_off(self)] *)
Definition turn_output_off : M t unit :=
  write dev ":OUTP OFF" ;;
  set_OUTPUT_on false.

(** [def set_volt_range(self, volt_range)] *)
Definition set_volt_range (volt_range : string) : M t unit :=
  if volt_range =? "P8V" then
    write dev ("VOLT:RANG " ++ volt_range) ;;
    print "Setting Voltage Range to 8V"
  else if volt_range =? "P20V" then
    write dev ("VOLT:RANG " ++ volt_range) ;;
    print "Setting Voltage Range to 20V"
  else
    print ("Not a valid voltage range. Enter " ++ String "034" "P8V"
           ++ String "034" " or " ++ String "034" "P20V" ++ String "034" "").

(** [def measure_volt_range(self)] *)
Definition measure_volt_range : M t string :=
  query dev "VOLT:RANG?".

(** [lo <= x and x <= hi] on Python floats. *)
Definition between (lo hi x : float) : bool :=
  (PrimFloat.leb lo x && PrimFloat.leb x hi)%bool.

(** [def set_voltage(self, voltage)] *)
Definition set_voltage (voltage : float) : M t unit :=
  (if between 0 20 voltage then
     write dev (":SOUR:VOLT " ++ fmt_E 6 voltage)
   else
     print "Not a valid voltage entry. Enter a value between 0 and 20V") ;;
  s <- get_self ;;
  (if negb (OUTPUT_on s) then turn_output_on else ret tt).

(** [def set_current_limit(self, current_limit)] *)
Definition set_current_limit (current_limit : float) : M t unit :=
  s <- get_self ;;
  (if OUTPUT_on s then turn_output_off else ret tt) ;;
  write dev (":SOUR:CURR " ++ fmt_E 6 current_limit).

(** [def set_volt_protection(self, volt_level)] *)
Definition set_volt_protection (volt_level : float) : M t unit :=
  volt_range <- measure_volt_range ;;
  if volt_range =? "P8V" then
    if between 0 8.24 volt_level then
      write dev ("VOLT:PROT:LEV  " ++ fmt_E 6 volt_level)
    else
      print "Specified voltage level is not valid for 8V voltage range (0-8.24V)"
  else if volt_range =? "P20V" then
    if between 0 20.6 volt_level then
      write dev ("VOLT:PROT:LEV  " ++ fmt_E 6 volt_level)
    else
      print "Specified voltage level is not valid for 20V voltage range (0-20.6V)"
  else ret tt.

(** [def set_curr_protection(self, curr_level)] *)
Definition set_curr_protection (curr_level : float) : M t unit :=
  volt_range <- measure_volt_range ;;
  if volt_range =? "P8V" then
    if between 0 20 curr_level then
      write dev ("CURR:PROT:LEV  " ++ fmt_E 6 curr_level)
    else
      print "Specified current level is not valid for 8V current range (0-20A)"
  else if volt_range =? "P20V" then
    if between 0 10 curr_level then
      write dev ("CURR:PROT:LEV  " ++ fmt_E 6 curr_level)
    else
      print "Specified current level is not valid for 20V current range (0-10A)"
  else ret tt.

End Driver.
End Agilent.

(* ================================================================== *)
(** * Array arithmetic ([numpy]) *)
(* ================================================================== *)

(** The arithmetic of array elements.  The drivers compute on [float64];
    the same code is read at two instances: IEEE binary64 ([float]), which
    is what runs, and the rationals ([Q]), which is the arithmetic the
    formulas are meant to approximate and in which their algebraic
    properties are stated. *)
Class Arith (N : Type) : Type := {
  of_Z    : Z -> N;
  add     : N -> N -> N;
  sub     : N -> N -> N;
  mul     : N -> N -> N;
  div     : N -> N -> N;
  is_zero : N -> bool
}.

#[export] Instance Q_Arith : Arith Q := {|
  of_Z := inject_Z;
  add := Qplus; sub := Qminus; mul := Qmult; div := Qdiv;
  is_zero := fun x => Qeq_bool x 0
|}.

(** Small non-negative integers are exact in binary64. *)
Fixpoint float_of_positive (p : positive) : float :=
  match p with
  | xH => 1%float
  | xO p' => PrimFloat.mul 2 (float_of_positive p')
  | xI p' => PrimFloat.add (PrimFloat.mul 2 (float_of_positive p')) 1
  end.

Definition float_of_Z (z : Z) : float :=
  match z with
  | Z0 => 0%float
  | Zpos p => float_of_positive p
  | Zneg p => PrimFloat.opp (float_of_positive p)
  end.

#[export] Instance float_Arith : Arith float := {|
  of_Z := float_of_Z;
  add := PrimFloat.add; sub := PrimFloat.sub;
  mul := PrimFloat.mul; div := PrimFloat.div;
  is_zero := fun x => PrimFloat.eqb x 0
|}.

Module Np.
Section Arrays.
Context {N : Type} `{Arith N}.

(** [np.arange(n)], as array elements. *)
Definition arange (n : nat) : list N :=
  map (fun i => of_Z (Z.of_nat i)) (seq 0 n).

(** [np.polyval(p, x)] at one point: Horner's rule,
    [y = 0; for pv in p: y = y * x + pv], highest degree first. *)
Definition horner (p : list N) (x : N) : N :=
  fold_left (fun y pv => add (mul y x) pv) p (of_Z 0).

(** [np.polyval(p, x)] on an array [x]. *)
Definition polyval (p : list N) (x : list N) : list N :=
  map (horner p) x.

(** [y[-1] = v] *)
Definition set_last (y : list N) (v : N) : list N :=
  match y with
  | [] => []
  | _ => (removelast y ++ [v])%list
  end.

(** [np.linspace(start, stop, num)] with the default [endpoint=True]:
    [arange(num) * step + start] with [step = (stop - start) / (num - 1)],
    the last sample overwritten with [stop]. *)
Definition linspace (start stop : N) (num : nat) : list N :=
  let dv := (num - 1)%nat in
  let delta := sub stop start in
  let y := arange num in
  let y :=
    if (0 <? dv)%nat then
      let step := div delta (of_Z (Z.of_nat dv)) in
      if is_zero step then
        map (fun v => mul (div v (of_Z (Z.of_nat dv))) delta) y
      else
        map (fun v => mul v step) y
    else
      map (fun v => mul v delta) y in
  let y := map (fun v => add v start) y in
  if (1 <? num)%nat then set_last y stop else y.
End Arrays.
End Np.

(* ================================================================== *)
(** * ibsen.py *)
(* ================================================================== *)

Module Ibsen.

(** [self.wl = np.polyval(self.fit_params[::-1], np.arange(self.n_pixels))]
    in [Eagle._initialize]. *)
Definition wl {N : Type} `{Arith N} (fit_params : list N) (n_pixels : nat)
  : list N :=
  Np.polyval (rev fit_params) (Np.arange n_pixels).

(** [[int(val) for val in data_list]] *)
Fixpoint ints (data_list : list string) : outcome (list Z) :=
  match data_list with
  | [] => Ok []
  | val :: rest =>
      match Py.int val with
      | None => Raise ValueError
      | Some n =>
          match ints rest with
          | Ok ns => Ok (n :: ns)
          | Raise e => Raise e
          end
      end
  end.

(** Lines 88-92 of [Eagle.spectrum], on the tokens [raw_data] of the
    response. *)
Definition reconstruct (raw_data : list string) : outcome (list Z) :=
  match raw_data with
  | [] => Raise IndexError                     (* raw_data[0] *)
  | first :: rest =>
      let data1 := Py.slice_from 2 first in    (* raw_data[0][2:] *)
      let data_list := rest in                 (* raw_data[1:] *)
      let data_list :=
        if negb (data1 =? "") then data1 :: data_list   (* insert(0, data1) *)
        else data_list in
      ints data_list
  end.

(** Lines 87-93 of [Eagle.spectrum]: from the text that
    [self._rsrc.read()] returned to the counts. *)
Definition spectrum_counts (read : string) : outcome (list Z) :=
  reconstruct (Py.split_ws read).

End Ibsen.

(* ================================================================== *)
(** * hp.py *)
(* ================================================================== *)

Module HP.

(** The units that [hp.py] names. *)
Inductive unit_ : Type :=
| u_m | u_nm | u_second | u_watt | u_milliwatt | u_dimensionless | u_dBm.

(** The attributes of [self._rsrc] that the driver sets. *)
Record rsrc : Type := {
  timeout           : Z;        (* milliseconds *)
  read_termination  : string;
  write_termination : string
}.

(** Python's [float(s)] ([None]: [ValueError]) and
    [np.fromstring(s, sep=',')], at the element type. *)
Class Parser (N : Type) : Type := {
  float_of   : string -> option N;
  fromstring : string -> list N
}.

Section Driver.
Context {N : Type} `{Arith N} `{Parser N}.
Variable dev : instrument.

Definition set_timeout (ms : Z) : M rsrc unit :=
  s <- get_self ;;
  set_self {| timeout := ms;
              read_termination := read_termination s;
              write_termination := write_termination s |}.

(** [def _initialize(self)] *)
Definition _initialize : M rsrc unit :=
  set_self {| timeout := 300; read_termination := String "010" "";
              write_termination := ";" |} ;;
  write dev "TDF P".

(** [(x * u.m).to(u.nm)]: pint multiplies the magnitude by the factor
    of the metre in nanometres, which it computes as [1 / 1e-9] in the
    arithmetic of the magnitude (in binary64 this is 999999999.9999999,
    not 1e9). *)
Definition m_to_nm (x : N) : N :=
  mul x (div (of_Z 1) (div (of_Z 1) (of_Z 1000000000))).

(** [def get_center_wavelength(self)], magnitude in nm. *)
Definition get_center_wavelength : M rsrc N :=
  r <- query dev "CF?" ;;
  x <- lift ValueError (float_of r) ;;
  ret (m_to_nm x).

(** [def get_wavelength_span(self)], magnitude in nm. *)
Definition get_wavelength_span : M rsrc N :=
  r <- query dev "SP?" ;;
  x <- lift ValueError (float_of r) ;;
  ret (m_to_nm x).

(** [def get_sweep_time(self)], magnitude in seconds. *)
Definition get_sweep_time : M rsrc N :=
  set_timeout 5000 ;;
  r <- query dev "ST?" ;;
  st <- lift ValueError (float_of r) ;;
  ret st.

(** [def get_amplitude_units(self)]: [au] stays unassigned when the
    answer is none of the three. *)
Definition get_amplitude_units : M rsrc unit_ :=
  au_str <- query dev "AUNITS?" ;;
  if au_str =? "W" then ret u_watt
  else if au_str =? "MW" then ret u_milliwatt
  else if au_str =? "DBM" then ret u_dimensionless
  else raise UnboundLocalError.

(** Lines 127-130 of [get_spectrum]: the wavelength axis from the
    centre and the span (magnitudes in nm) and the number of points. *)
Definition span_axis (wl_center wl_span : N) (n_pts : nat) : list N :=
  let wl_start := sub wl_center (div wl_span (of_Z 2)) in
  let wl_stop := add wl_center (div wl_span (of_Z 2)) in
  Np.linspace wl_start wl_stop n_pts.

(** [def get_spectrum(self, trace='A')]: the pair of the wavelengths
    (in nm) and the amplitudes with their unit. *)
Definition get_spectrum (trace : string)
  : M rsrc (list N * (list N * unit_)) :=
  set_timeout 15000 ;;
  au <- get_amplitude_units ;;
  wl_center <- get_center_wavelength ;;
  wl_span <- get_wavelength_span ;;
  write dev "TS;DONE?" ;;
  r <- query dev ("TR" ++ trace ++ "?") ;;
  let amp := fromstring r in
  let n_pts := List.length amp in
  let wl := span_axis wl_center wl_span n_pts in
  set_timeout 300 ;;
  write dev ("CLRW TR" ++ trace) ;;
  ret (wl, (amp, au)).

(** The [for pk in peak_id] loop of [get_peak_info]. *)
Fixpoint peak_loop (peak_id : list string) (pk_wl pk_amp : list N)
  : M rsrc (list N * list N) :=
  match peak_id with
  | [] => ret (pk_wl, pk_amp)
  | pk :: rest =>
      write dev "TS;DONE?;" ;;
      write dev "MK;" ;;
      write dev ("MKPK " ++ pk ++ ";") ;;
      amp <- query dev "MKA?;" ;;
      wl <- query dev "MKF?;" ;;
      w <- lift ValueError (float_of wl) ;;
      a <- lift ValueError (float_of amp) ;;
      peak_loop rest (pk_wl ++ [w])%list (pk_amp ++ [a])%list
  end.

(** [def get_peak_info(self, peak_id=['HIP', 'NH'])]: wavelengths in m
    and amplitudes in dBm. *)
Definition get_peak_info (peak_id : list string)
  : M rsrc (list N * list N) :=
  set_timeout 5000 ;;
  r <- peak_loop peak_id [] [] ;;
  set_timeout 300 ;;
  ret r.

End Driver.
End HP.

(* ================================================================== *)
(** * Test doubles *)
(* ================================================================== *)

(** An instrument that takes every command and answers every query with
    the text [reply cmd]. *)
Definition responder (reply : string -> option string) : instrument :=
  {| accepts := fun _ _ => true; answers := fun _ cmd => reply cmd |}.

(** An instrument that takes every command and answers nothing. *)
Definition mute : instrument := responder (fun _ => None).

(** A formatter that shows no digits; no property looks inside the
    formatted number. *)
#[export] Instance plain_Runtime : Runtime := {|
  Quantity := float;
  to_m := fun q _ => Some q;
  fmt_E := fun _ _ => "<float>"
|}.

Definition fresh {S : Type} (s : S) : world S :=
  {| self := s; log := []; stdout := [] |}.

(** Concrete driver objects and buses used in the examples. *)

(** A Keithley as [_initialize] leaves it, with the given output flag and
    source mode. *)
Definition keithley (on : bool) (m : string) : Keithley.t :=
  {| Keithley.cur_compliance := 0.1%float;
     Keithley.volt_compliance := 5%float;
     Keithley.is_on := on;
     Keithley.mode := m |}.

(** An Agilent supply with the given output flag. *)
Definition agilent (on : bool) : Agilent.t :=
  {| Agilent.OUTPUT_on := on; Agilent.cur_limit := 0.5%float |}.

(** The session attributes that [HPOSA._initialize] sets. *)
Definition hp_initialized : HP.rsrc :=
  {| HP.timeout := 300; HP.read_termination := String "010" "";
     HP.write_termination := ";" |}.

(** A parser double: every numeric text reads as 1, a trace as two
    points. *)
#[export] Instance stub_Parser : HP.Parser Q := {|
  HP.float_of := fun _ => Some 1;
  HP.fromstring := fun _ => [1; 2]
|}.

(** A spectrum analyser that answers every query; it reports its
    amplitude unit as [DBM]. *)
Definition osa : instrument :=
  responder (fun cmd => if cmd =? "AUNITS?" then Some "DBM" else Some "1").

(** A bus with three addresses: nothing can be opened at the first, a
    spectrum analyser answers at the second, an E3633A at the third. *)
Definition bench : Discovery.resource_manager :=
  {| Discovery.list_resources := fun _ =>
       ["GPIB0::1::INSTR"; "GPIB0::23::INSTR"; "GPIB0::5::INSTR"];
     Discovery.open_resource := fun spec =>
       if spec =? "GPIB0::23::INSTR" then
         Some (responder (fun _ => Some "HEWLETT-PACKARD,70951B,0,1.0"))
       else if spec =? "GPIB0::5::INSTR" then
         Some (responder (fun _ =>
                 Some "HEWLETT-PACKARD,E3633A,0,1.7-5.0-1.0"))
       else None |}.

(** A bus with one address, whose instrument identifies itself without
    commas. *)
Definition odd_bench : Discovery.resource_manager :=
  {| Discovery.list_resources := fun _ => ["GPIB0::23::INSTR"];
     Discovery.open_resource := fun _ =>
       Some (responder (fun _ => Some "HP70951B")) |}.

(* ================================================================== *)
(** * Vocabulary of the properties *)
(* ================================================================== *)

(** The transactions of a Keithley source-function change. *)
Definition switch_sequence (target : string) : list event :=
  [Write Keithley.OUTPUT_OFF; Write (Keithley.FUNC target); Sleep 100;
   Write Keithley.OUTPUT_ON].

(** The write of a formatted level, if the argument converts. *)
Definition level_write `{Runtime} (prefix : string) (x : option float)
  : list event :=
  match x with
  | Some v => [Write (prefix ++ fmt_E 4 v)]
  | None => []
  end.

(** Every element is related to its successor. *)
Fixpoint chain {A : Type} (R : A -> A -> Prop) (l : list A) : Prop :=
  match l with
  | x :: ((y :: _) as t) => R x y /\ chain R t
  | _ => True
  end.

Definition float_lt (x y : float) : Prop := PrimFloat.ltb x y = true.
Definition float_le (x y : float) : Prop := PrimFloat.leb x y = true.

(** The token [s] reads as the integer [z]. *)
Definition parses (s : string) (z : Z) : Prop := Py.int s = Some z.

(** The value at [x] of the polynomial with coefficients [c], lowest
    degree first: [c0 + x * (c1 + x * (...))]. *)
Definition poly_eval (c : list Q) (x : Q) : Q :=
  fold_right (fun ci y => ci + x * y) 0 c.

(** The Keithley object after a source-function change to [target]. *)
Definition switched `{Runtime} (target : string) (s : Keithley.t) : Keithley.t :=
  {| Keithley.cur_compliance := Keithley.cur_compliance s;
     Keithley.volt_compliance := Keithley.volt_compliance s;
     Keithley.is_on := true;
     Keithley.mode := target |}.

(** The outcome of a setter whose argument is converted last. *)
Definition converted (x : option float) : outcome unit :=
  match x with Some _ => Ok tt | None => Raise DimensionalityError end.

(** The spacing of [num] evenly spaced points from [start] to [stop], and
    the [i]-th of them. *)
Definition even_step (start stop : Q) (num : nat) : Q :=
  (stop - start) / inject_Z (Z.of_nat (num - 1)).

Definition even_sample (start stop : Q) (num i : nat) : Q :=
  inject_Z (Z.of_nat i) * even_step start stop num + start.

(** A computation that never assigns to the driver object. *)
Definition keeps_self {S A : Type} (m : M S A) : Prop :=
  forall w o w', m w = (o, w') -> self w' = self w.

(** The timeout with which an [hp.py] method is left, by outcome. *)
Definition timeout_on_exit {A : Type} (r : outcome A * world HP.rsrc)
           (on_return : Z) (on_raise : list Z) : Prop :=
  match result r with
  | Ok _ => HP.timeout (final r) = on_return
  | Raise _ => In (HP.timeout (final r)) on_raise
  end.

(* ================================================================== *)
(** * Keithley2635A.py: the remaining methods *)
(* ================================================================== *)

(** [try: body except: handler] with a bare [except]. *)
Definition try_except {S A : Type} (body handler : M S A) : M S A :=
  fun w => match body w with
           | (Ok a, w') => (Ok a, w')
           | (Raise _, w') => handler w'
           end.

(** ['%d' % n] for an integer [n]. *)
Definition fmt_d (n : Z) : string := NilZero.string_of_int (Z.to_int n).

Module KeithleyAPI.
Section Driver.
Context `{Runtime} `{HP.Parser float}.
Variable dev : instrument.

(** [def _initialize(self, current_compliance, voltage_compliance)] *)
Definition _initialize (current_compliance voltage_compliance : Quantity)
  : M Keithley.t unit :=
  set_self {| Keithley.cur_compliance := current_compliance;
              Keithley.volt_compliance := voltage_compliance;
              Keithley.is_on := false;
              Keithley.mode := "VOLTS" |} ;;
  print "Opening connnection to Keithley source meter".

(** [def init_function(self)] *)
Definition init_function : M Keithley.t unit :=
  write dev "format.data = format.ASCII" ;;
  write dev "errorqueue.clear()" ;;
  write dev "smua.nvbuffer1.clear()" ;;
  write dev "waitcomplete()" ;;
  s <- get_self ;;
  Keithley.set_func dev (Keithley.mode s) ;;
  s <- get_self ;;
  Keithley.set_current_compliance dev (Keithley.cur_compliance s) ;;
  s <- get_self ;;
  Keithley.set_voltage_compliance dev (Keithley.volt_compliance s).

(** [def measure_current(self)], magnitude in A. *)
Definition measure_current : M Keithley.t float :=
  write dev "current1=smua.measure.i()" ;;
  write dev "waitcomplete()" ;;
  sleep 100 ;;
  r <- query dev "print(current1)" ;;
  lift ValueError (HP.float_of r).

(** [def measure_voltage(self)], magnitude in V. *)
Definition measure_voltage : M Keithley.t float :=
  write dev "voltage1=smua.measure.v()" ;;
  write dev "waitcomplete()" ;;
  sleep 100 ;;
  r <- query dev "print(voltage1)" ;;
  lift ValueError (HP.float_of r).

(** [def set_voltage_range(self, v_range)] *)
Definition set_voltage_range (v_range : Quantity) : M Keithley.t unit :=
  x <- lift DimensionalityError (to_m v_range u_V) ;;
  write dev ("smua.source.rangev= " ++ fmt_E 4 x).

(** [def set_current_range(self, i_range)] *)
Definition set_current_range (i_range : Quantity) : M Keithley.t unit :=
  x <- lift DimensionalityError (to_m i_range u_A) ;;
  write dev ("smua.source.rangei= " ++ fmt_E 4 x).

(** [def set_measurement_delay(self, time)] *)
Definition set_measurement_delay (time : Quantity) : M Keithley.t unit :=
  x <- lift DimensionalityError (to_m time u_s) ;;
  write dev ("smua.measure.delay = " ++ fmt_E 4 x).

(** [def set_measurement_interval(self, time)] *)
Definition set_measurement_interval (time : Quantity) : M Keithley.t unit :=
  x <- lift DimensionalityError (to_m time u_s) ;;
  write dev ("smua.measure.interval=" ++ fmt_E 4 x).

(** [def set_measurement_integration(self, nplc)], for an integer
    [nplc]. *)
Definition set_measurement_integration (nplc : Z) : M Keithley.t unit :=
  nplc <- (if (nplc >? 25)%Z then
             print "Specified integration NPLC is more than the max. Setting to max." ;;
             ret 25%Z
           else ret nplc) ;;
  nplc <- (if (nplc <? 1)%Z then
             print "Specified integration NPLC is smaller than the min. Setting to min." ;;
             ret 1%Z
           else ret nplc) ;;
  write dev ("smua.measure.nplc = " ++ fmt_d nplc).

(** [def set_filter(self, enable=True, type='repeat_average', count=10)],
    for an integer [count]: [type_str] stays unassigned when [type] is
    none of the three names. *)
Definition set_filter (enable : bool) (type : string) (count : Z)
  : M Keithley.t unit :=
  let type_str :=
    if type =? "repeat_average" then Some "FILTER_REPEAT_AVG"
    else if type =? "moving_average" then Some "FILTER_MOVING_AVG"
    else if type =? "median" then Some "FILTER_MEDIAN"
    else None in
  t <- lift UnboundLocalError type_str ;;
  write dev ("smua.measure.filter.type = smua." ++ t) ;;
  count <- (if (count >? 100)%Z then
              print "Specified filter count is more than the max. Setting to max." ;;
              ret 100%Z
            else ret count) ;;
  count <- (if (count <? 1)%Z then
              print "Specified filter count is smaller than the min. Setting to min." ;;
              ret 1%Z
            else ret count) ;;
  write dev ("smua.measure.filter.count = " ++ fmt_d count) ;;
  if enable then write dev "smua.measure.filter.enable = smua.FILTER_ON"
  else write dev "smua.measure.filter.enable = smua.FILTER_OFF".

(** The methods above and those of [Keithley], as calls a program can
    make on one driver object. *)
Inductive call : Type :=
| turn_on
| turn_off
| set_func (mode : string)
| set_voltage_compliance (v_comp : Quantity)
| set_current_compliance (i_comp : Quantity)
| set_voltage (voltage : Quantity)
| set_current (current : Quantity)
| call_init_function
| call_measure_current
| call_measure_voltage
| call_set_voltage_range (v_range : Quantity)
| call_set_current_range (i_range : Quantity)
| call_set_measurement_delay (time : Quantity)
| call_set_measurement_interval (time : Quantity)
| call_set_measurement_integration (nplc : Z)
| call_set_filter (enable : bool) (type : string) (count : Z).

(** One call, its return value dropped. *)
Definition perform (c : call) : M Keithley.t unit :=
  match c with
  | turn_on => Keithley.turn_on dev
  | turn_off => Keithley.turn_off dev
  | set_func m => Keithley.set_func dev m
  | set_voltage_compliance q => Keithley.set_voltage_compliance dev q
  | set_current_compliance q => Keithley.set_current_compliance dev q
  | set_voltage q => Keithley.set_voltage dev q
  | set_current q => Keithley.set_current dev q
  | call_init_function => init_function
  | call_measure_current => measure_current ;; ret tt
  | call_measure_voltage => measure_voltage ;; ret tt
  | call_set_voltage_range q => set_voltage_range q
  | call_set_current_range q => set_current_range q
  | call_set_measurement_delay q => set_measurement_delay q
  | call_set_measurement_interval q => set_measurement_interval q
  | call_set_measurement_integration n => set_measurement_integration n
  | call_set_filter e t c => set_filter e t c
  end.

(** A program: calls made one after the other on the same object, each
    exception caught by the caller. *)
Definition program (cs : list call) (w : world Keithley.t)
  : world Keithley.t :=
  fold_left (fun w c => snd (perform c w)) cs w.

End Driver.
End KeithleyAPI.

(** ** What the accepted commands imply for the source *)

(** [strip_prefix p s] is the rest of [s] after its prefix [p]. *)
Fixpoint strip_prefix (p s : string) : option string :=
  match p, s with
  | EmptyString, _ => Some s
  | String a p', String b s' =>
      if Ascii.eqb a b then strip_prefix p' s' else None
  | String _ _, EmptyString => None
  end.

(** The output state and the source function of the instrument after it
    has taken the command [cmd] in state [st]. *)
Definition smua_after (st : bool * string) (cmd : string) : bool * string :=
  if cmd =? Keithley.OUTPUT_ON then (true, snd st)
  else if cmd =? Keithley.OUTPUT_OFF then (false, snd st)
  else match strip_prefix "smua.source.func = smua.OUTPUT_DC" cmd with
       | Some m => (fst st, m)
       | None => st
       end.

(** ... after it has taken part in the transactions [l]. *)
Definition smua_replay (l : list event) (st : bool * string) : bool * string :=
  fold_left smua_after (writes l) st.

(** The two flags that the driver object tracks. *)
Definition tracked `{Runtime} (s : Keithley.t) : bool * string :=
  (Keithley.is_on s, Keithley.mode s).

(** A computation that keeps the tracked flags equal to what the
    accepted commands imply, counted from a state [st0] of the
    instrument. *)
Definition keeps_sync `{Runtime} {A : Type} (st0 : bool * string)
           (m : M Keithley.t A) : Prop :=
  forall w o w',
    m w = (o, w') ->
    smua_replay (log w) st0 = tracked (self w) ->
    smua_replay (log w') st0 = tracked (self w').

(** The calls that may issue an output command. *)
Definition switches_output `{Runtime} (c : KeithleyAPI.call) : bool :=
  match c with
  | KeithleyAPI.turn_on | KeithleyAPI.turn_off
  | KeithleyAPI.set_voltage _ | KeithleyAPI.set_current _ => true
  | _ => false
  end.

(** A computation that leaves the output alone: the tracked flag stays
    and no output command is among the transactions it adds. *)
Definition leaves_output `{Runtime} {A : Type} (m : M Keithley.t A) : Prop :=
  forall w o w',
    m w = (o, w') ->
    Keithley.is_on (self w') = Keithley.is_on (self w)
    /\ exists l, log w' = (log w ++ l)%list
                 /\ ~ In (Write Keithley.OUTPUT_ON) l
                 /\ ~ In (Write Keithley.OUTPUT_OFF) l.

(** A unit library double that knows the unit of each quantity and
    refuses to convert between units. *)
Definition strict_Runtime : Runtime := {|
  Quantity := float * pint_unit;
  to_m := fun q u =>
    match snd q, u with
    | u_V, u_V | u_A, u_A | u_s, u_s => Some (fst q)
    | _, _ => None
    end;
  fmt_E := fun _ _ => "<float>"
|}.

(** A float parser double for the measurement methods. *)
Definition stub_float_Parser : HP.Parser float := {|
  HP.float_of := fun _ => Some 1%float;
  HP.fromstring := fun _ => [1%float; 2%float]
|}.

(** A Keithley object over the strict unit library. *)
Definition strict_keithley (on : bool) (m : string)
  : Keithley.t (H:=strict_Runtime) :=
  @Keithley.Build_t strict_Runtime (0.1%float, u_A) (5%float, u_V) on m.

(* ================================================================== *)
(** * AgilentE3633A.py: the remaining methods *)
(* ================================================================== *)

Module AgilentAPI.
Section Driver.
Context `{Runtime} `{HP.Parser float}.
Variable dev : instrument.

(** [def _initialize(self, current_limit=DEFAULT_CURRENT_LIMIT)] *)
Definition _initialize (current_limit : float) : M Agilent.t unit :=
  print "Opening connection to Agilent E3633A DC Power Supply" ;;
  set_self {| Agilent.OUTPUT_on := false; Agilent.cur_limit := current_limit |}.

(** [def error(self)] *)
Definition error : M Agilent.t unit :=
  r <- query dev "SYST:ERR?" ;;
  print r.

(** [def measure_voltage(self)] *)
Definition measure_voltage : M Agilent.t float :=
  r <- query dev "MEAS:VOLT?" ;;
  lift ValueError (HP.float_of r).

(** [def measure_current(self)] *)
Definition measure_current : M Agilent.t float :=
  r <- query dev "MEAS:CURR?" ;;
  lift ValueError (HP.float_of r).

(** [def meas_volt_protection(self)] *)
Definition meas_volt_protection : M Agilent.t float :=
  r <- query dev "VOLT:PROT:LEV?" ;;
  lift ValueError (HP.float_of r).

(** [def meas_curr_protection(self)] *)
Definition meas_curr_protection : M Agilent.t float :=
  r <- query dev "CURR:PROT:LEV?" ;;
  lift ValueError (HP.float_of r).

(** [def clear_overvolt_condition(self)] *)
Definition clear_overvolt_condition : M Agilent.t unit :=
  write dev "VOLT:PROT:CLE".

(** [def clear_overcurrent_condition(self)] *)
Definition clear_overcurrent_condition : M Agilent.t unit :=
  write dev "CURR:PROT:CLE".

(** The methods of the driver, as calls a program can make on one
    driver object. *)
Inductive call : Type :=
| turn_output_on
| turn_output_off
| set_volt_range (volt_range : string)
| measure_volt_range
| set_voltage (voltage : float)
| set_current_limit (current_limit : float)
| set_volt_protection (volt_level : float)
| set_curr_protection (curr_level : float)
| call_error
| call_measure_voltage
| call_measure_current
| call_meas_volt_protection
| call_meas_curr_protection
| call_clear_overvolt_condition
| call_clear_overcurrent_condition.

(** One call, its return value dropped. *)
Definition perform (c : call) : M Agilent.t unit :=
  match c with
  | turn_output_on => Agilent.turn_output_on dev
  | turn_output_off => Agilent.turn_output_off dev
  | set_volt_range r => Agilent.set_volt_range dev r
  | measure_volt_range => Agilent.measure_volt_range dev ;; ret tt
  | set_voltage v => Agilent.set_voltage dev v
  | set_current_limit i => Agilent.set_current_limit dev i
  | set_volt_protection v => Agilent.set_volt_protection dev v
  | set_curr_protection i => Agilent.set_curr_protection dev i
  | call_error => error
  | call_measure_voltage => measure_voltage ;; ret tt
  | call_measure_current => measure_current ;; ret tt
  | call_meas_volt_protection => meas_volt_protection ;; ret tt
  | call_meas_curr_protection => meas_curr_protection ;; ret tt
  | call_clear_overvolt_condition => clear_overvolt_condition
  | call_clear_overcurrent_condition => clear_overcurrent_condition
  end.

(** A program: calls made one after the other on the same object, each
    exception caught by the caller. *)
Definition program (cs : list call) (w : world Agilent.t) : world Agilent.t :=
  fold_left (fun w c => snd (perform c w)) cs w.

End Driver.
End AgilentAPI.

(** The output state of the supply after it has taken the command
    [cmd] in output state [on]. *)
Definition outp_after (on : bool) (cmd : string) : bool :=
  if cmd =? ":OUTP ON" then true
  else if cmd =? ":OUTP OFF" then false
  else on.

Definition outp_replay (l : list event) (on : bool) : bool :=
  fold_left outp_after (writes l) on.

(** A computation that keeps the tracked output flag equal to what the
    accepted commands imply and does not assign [cur_limit]. *)
Definition keeps_outp {A : Type} (on0 : bool) (m : M Agilent.t A) : Prop :=
  forall w o w',
    m w = (o, w') ->
    Agilent.cur_limit (self w') = Agilent.cur_limit (self w)
    /\ (outp_replay (log w) on0 = Agilent.OUTPUT_on (self w) ->
        outp_replay (log w') on0 = Agilent.OUTPUT_on (self w')).

(** The protection levels that the supply takes in each voltage range:
    the checks of [set_volt_protection] and [set_curr_protection]. *)
Definition volt_protection_valid (volt_range : string) (level : float) : bool :=
  ((volt_range =? "P8V") && Agilent.between 0 8.24 level
   || (volt_range =? "P20V") && Agilent.between 0 20.6 level)%bool.

Definition curr_protection_valid (volt_range : string) (level : float) : bool :=
  ((volt_range =? "P8V") && Agilent.between 0 20 level
   || (volt_range =? "P20V") && Agilent.between 0 10 level)%bool.

(** The calls that may switch the output on. *)
Definition energizes (c : AgilentAPI.call) : bool :=
  match c with
  | AgilentAPI.turn_output_on | AgilentAPI.set_voltage _ => true
  | _ => false
  end.

(** A computation that never switches the output on: the tracked flag
    does not go from off to on and no output-on command is among the
    transactions it adds. *)
Definition never_energizes {A : Type} (m : M Agilent.t A) : Prop :=
  forall w o w',
    m w = (o, w') ->
    (Agilent.OUTPUT_on (self w') = true -> Agilent.OUTPUT_on (self w) = true)
    /\ exists l, log w' = (log w ++ l)%list /\ ~ In (Write ":OUTP ON") l.

(* ================================================================== *)
(** * Bus discovery: vocabulary *)
(* ================================================================== *)

(** The number of occurrences of [c] in [s]. *)
Fixpoint count_char (c : ascii) (s : string) : nat :=
  match s with
  | EmptyString => O
  | String a s' => (if Ascii.eqb a c then 1 else 0) + count_char c s'
  end.

(** The candidate at [spec] opens and answers the identification query
    with [idn]. *)
Definition identifies_as (rm : Discovery.resource_manager)
           (spec idn : string) : Prop :=
  exists inst, Discovery.open_resource rm spec = Some inst
               /\ answers inst [] "*IDN?" = Some idn.

(** The descriptor [p] is the one of the candidate at [spec]: the
    candidate answers with four fields, of which the second starts with
    the model pattern, and [p] holds the address, the driver name and
    the four fields. *)
Definition describes (rm : Discovery.resource_manager)
           (driver pattern spec : string) (p : Discovery.ParamSet) : Prop :=
  exists idn,
    identifies_as rm spec idn
    /\ Py.split "," 4 (Py.rstrip idn) =
       [Discovery.manufacturer p; Discovery.model p;
        Discovery.serial p; Discovery.version p]
    /\ Py.re_match pattern (Discovery.model p) = true
    /\ Discovery.visa_address p = spec
    /\ Discovery.cls p = driver.

(** The candidate at [spec] has no descriptor: it cannot be opened, or
    does not answer, or answers with four fields of which the second
    does not start with the model pattern. *)
Definition unmatched (rm : Discovery.resource_manager)
           (pattern spec : string) : Prop :=
  Discovery.open_resource rm spec = None
  \/ (exists inst, Discovery.open_resource rm spec = Some inst
                   /\ answers inst [] "*IDN?" = None)
  \/ (exists idn a b c d,
        identifies_as rm spec idn
        /\ Py.split "," 4 (Py.rstrip idn) = [a; b; c; d]
        /\ Py.re_match pattern b = false).

(** [ps] holds, in the order of the candidates [specs], the descriptor
    of every candidate that has one, and nothing else. *)
Inductive scanned (rm : Discovery.resource_manager)
          (driver pattern : string)
  : list string -> list Discovery.ParamSet -> Prop :=
| scanned_nil : scanned rm driver pattern [] []
| scanned_match spec specs p ps :
    describes rm driver pattern spec p ->
    scanned rm driver pattern specs ps ->
    scanned rm driver pattern (spec :: specs) (p :: ps)
| scanned_skip spec specs ps :
    unmatched rm pattern spec ->
    scanned rm driver pattern specs ps ->
    scanned rm driver pattern (spec :: specs) ps.

(* ================================================================== *)
(** * ibsen.py: identification and initialization *)
(* ================================================================== *)

Module IbsenAPI.

(** The attributes of the VISA resource that the module sets. *)
Record visa_rsrc : Type := {
  read_termination  : string;
  write_termination : string;
  baud_rate         : Z
}.

(** [visa_rsrc.CR] *)
Definition CR : string := String "013" "".

(** The settings of the Eagle: carriage return on both sides, 921600
    baud. *)
Definition eagle_settings : visa_rsrc :=
  {| read_termination := CR; write_termination := CR; baud_rate := 921600 |}.

(** What [Eagle._initialize] stores on the object. *)
Record attributes (N : Type) : Type := {
  spec_number   : Z;
  n_pixels      : Z;
  fit_params    : list N;
  wl            : list N;
  serial_number : Z;
  sensor        : Z;
  adc_res       : Z
}.
Arguments spec_number {N} a.
Arguments n_pixels {N} a.
Arguments fit_params {N} a.
Arguments wl {N} a.
Arguments serial_number {N} a.
Arguments sensor {N} a.
Arguments adc_res {N} a.

Section Driver.
Context {N : Type} `{Arith N} `{HP.Parser N}.
Variable dev : instrument.

(** [def _check_visa_support(visa_rsrc)]: the three saved settings are
    one record here, assigned and restored as a whole. *)
Definition _check_visa_support : M visa_rsrc (option string) :=
  saved <- get_self ;;                    (* rt0, wt0, br0 *)
  set_self eagle_settings ;;
  try_except
    (idn <- query dev "*IDN?" ;;
     if idn =? "JETI_PIC_VERSA" then ret (Some "Eagle")
     else set_self saved ;; ret None)
    (set_self saved ;; ret None).

(** [s.split()[-1]] *)
Definition last_token (s : string) : option string :=
  match rev (Py.split_ws s) with
  | [] => None
  | t :: _ => Some t
  end.

(** [int(self.query(cmd).split()[-1])] *)
Definition query_int (cmd : string) : M visa_rsrc Z :=
  r <- query dev cmd ;;
  t <- lift IndexError (last_token r) ;;
  lift ValueError (Py.int t).

(** [float(self.query(cmd).split()[-1])] *)
Definition query_float (cmd : string) : M visa_rsrc N :=
  r <- query dev cmd ;;
  t <- lift IndexError (last_token r) ;;
  lift ValueError (HP.float_of t).

(** [[float(self.query(f'*PARA:FIT{j}?').split()[-1]) for j in js]] *)
Fixpoint query_fit (js : list nat) : M visa_rsrc (list N) :=
  match js with
  | [] => ret []
  | j :: rest =>
      x <- query_float ("*PARA:FIT" ++ fmt_d (Z.of_nat j) ++ "?") ;;
      xs <- query_fit rest ;;
      ret (x :: xs)
  end.

(** [def _initialize(self)]: the attributes are returned together. *)
Definition _initialize : M visa_rsrc (attributes N) :=
  set_self eagle_settings ;;
  spec_number <- query_int "*PARA:SPNUM?" ;;
  n_pixels <- query_int "*PARA:PIX?" ;;
  fit_params <- query_fit (seq 0 5) ;;
  let wl := Ibsen.wl fit_params (Z.to_nat n_pixels) in
  serial_number <- query_int "*PARA:SERN?" ;;
  sensor <- query_int "*PARA:SENS?" ;;
  adc_res <- query_int "*PARA:ADCR?" ;;
  ret {| spec_number := spec_number; n_pixels := n_pixels;
         fit_params := fit_params; wl := wl;
         serial_number := serial_number; sensor := sensor;
         adc_res := adc_res |}.

End Driver.
End IbsenAPI.


(** Every character of [s] is whitespace. *)
Fixpoint blank (s : string) : bool :=
  match s with
  | EmptyString => true
  | String c s' => (Py.is_space c && blank s')%bool
  end.


(* ================================================================== *)
(** * hp.py: vocabulary *)
(* ================================================================== *)

(** The session attributes with the timeout replaced. *)
Definition with_timeout (ms : Z) (s : HP.rsrc) : HP.rsrc :=
  {| HP.timeout := ms;
     HP.read_termination := HP.read_termination s;
     HP.write_termination := HP.write_termination s |}.

(** The unit that [get_amplitude_units] returns for an answer. *)
Definition amplitude_unit_of (au_str : string) : option HP.unit_ :=
  if au_str =? "W" then Some HP.u_watt
  else if au_str =? "MW" then Some HP.u_milliwatt
  else if au_str =? "DBM" then Some HP.u_dimensionless
  else None.

(** The transactions of a sweep of trace [tr] that is answered with
    [au_str], [cf], [sp] and the trace data [data]. *)
Definition sweep_exchange (tr au_str cf sp data : string) : list event :=
  [Query "AUNITS?" au_str; Query "CF?" cf; Query "SP?" sp;
   Write "TS;DONE?"; Query ("TR" ++ tr ++ "?") data;
   Write ("CLRW TR" ++ tr)].

(** The transactions of the search for one peak of kind [pk], answered
    with the amplitude [amp] and the wavelength [wl]. *)
Definition peak_exchange (pk : string) (answer : string * string)
  : list event :=
  [Write "TS;DONE?;"; Write "MK;"; Write ("MKPK " ++ pk ++ ";");
   Query "MKA?;" (fst answer); Query "MKF?;" (snd answer)].

(** ... of the searches for the kinds [peak_id], in order. *)
Fixpoint peak_exchanges (peak_id : list string)
         (answers : list (string * string)) : list event :=
  match peak_id, answers with
  | pk :: ids, a :: rest => (peak_exchange pk a ++ peak_exchanges ids rest)%list
  | _, _ => []
  end.

(* ================================================================== *)
(** * Counting transactions *)
(* ================================================================== *)

(** A computation that leaves the driver object alone and completes
    exactly [n] transactions when it returns and at most [r] when it
    raises. *)
Definition adds {S A : Type} (m : M S A) (n r : nat) : Prop :=
  forall w o w',
    m w = (o, w') ->
    self w' = self w
    /\ exists l, log w' = (log w ++ l)%list
                 /\ match o with
                    | Ok _ => List.length l = n
                    | Raise _ => (List.length l <= r)%nat
                    end.

(** The number of transactions that a run completed, counted from the
    world [w] it started in. *)
Definition completed {S A : Type} (r : outcome A * world S) (w : world S)
  : nat :=
  List.length (trace r) - List.length (log w).

(* ================================================================== *)
(** * The samples of [np.linspace], in the arithmetic of the code *)
(* ================================================================== *)

(** The [i]-th of [num] samples from [start] to [stop] before the last
    one is overwritten: [i * step + start] with
    [step = (stop - start) / (num - 1)], every operation in the
    arithmetic [N] (rounded, in binary64); when the step comes out as
    zero, [(i / (num - 1)) * (stop - start) + start]. *)
Definition rounded_sample {N : Type} `{Arith N} (start stop : N)
           (num i : nat) : N :=
  let dv := of_Z (Z.of_nat (num - 1)) in
  let delta := sub stop start in
  let step := div delta dv in
  add (if is_zero step
       then mul (div (of_Z (Z.of_nat i)) dv) delta
       else mul (of_Z (Z.of_nat i)) step)
      start.

(* ================================================================== *)
(** * Binary64 arithmetic: values and rounding *)
(* ================================================================== *)

(** The numpy code runs in binary64.  The primitive operations are
    specified by [SpecFloat]; the definitions below give each number a
    real value and describe the rounding of [SpecFloat] on dyadic
    numbers, so that the order of computed results can be derived from
    the order of exact ones. *)

Section Binary64Values.
Local Open Scope Z_scope.

(** Powers of two, and the dyadic number [m * 2^e]. *)
Definition bpow (e : Z) : R := powerRZ 2 e.
Definition F2R (m e : Z) : R := (IZR m * bpow e)%R.

(** [rne m k]: the integer nearest to [m / 2^k], ties to even; for
    [k <= 0] the exact [m * 2^(-k)]. *)
Definition rne (m k : Z) : Z :=
  if k <=? 0 then m * 2 ^ (- k)
  else
    let q := m / 2 ^ k in
    let r := m mod 2 ^ k in
    match 2 * r ?= 2 ^ k with
    | Lt => q
    | Gt => q + 1
    | Eq => if Z.even q then q else q + 1
    end.

(** The state of [SpecFloat]'s shift register after [k] shifts of the
    mantissa [m]: the quotient, and the round and sticky bits that
    locate the remainder [r] against half of [2^k]. *)
Definition shr_inv (m k : Z) (mrs : shr_record) : Prop :=
  exists r,
    m = shr_m mrs * 2 ^ k + r /\ 0 <= r < 2 ^ k /\ 0 <= shr_m mrs
    /\ (shr_r mrs = true <-> 2 ^ k <= 2 * r)
    /\ (shr_s mrs = true <-> r <> 0 /\ 2 * r <> 2 ^ k).

(** Infinities are given the value of the first power of two out of
    range: on valid numbers this keeps the order. *)
Definition SF2R (x : spec_float) : R :=
  match x with
  | S754_zero _ => 0%R
  | S754_nan => 0%R
  | S754_infinity s => if s then (- bpow emax)%R else bpow emax
  | S754_finite s m e => if s then (- F2R (Zpos m) e)%R else F2R (Zpos m) e
  end.

(** Not a number. *)
Definition SFis_nan (x : spec_float) : bool :=
  match x with S754_nan => true | _ => false end.

(** What [SFcompare] answers, read on the values. *)
Inductive SFcmp (x y : spec_float) : option comparison -> Prop :=
| SFcmp_lt : (SF2R x < SF2R y)%R -> SFcmp x y (Some Lt)
| SFcmp_eq : SF2R x = SF2R y -> SFcmp x y (Some Eq)
| SFcmp_gt : (SF2R y < SF2R x)%R -> SFcmp x y (Some Gt).

(** The exponent of the binary64 grid at [m * 2^e]. *)
Definition cexp (m e : Z) : Z := fexp prec emax (Zdigits2 m + e).

(** [m * 2^e] rounded to that grid. *)
Definition rv (m e : Z) : R := F2R (rne m (cexp m e - e)) (cexp m e).

(** The sign bit applied to a magnitude. *)
Definition sgn (s : bool) (x : R) : R := if s then (- x)%R else x.

(** The rounding of a signed dyadic number, with overflow to the
    value of the infinities. *)
Definition rnd (z e : Z) : R :=
  match z with
  | Z0 => 0%R
  | Zpos m => Rmin (rv (Zpos m) e) (bpow emax)
  | Zneg m => (- Rmin (rv (Zpos m) e) (bpow emax))%R
  end.

(** [r] is the binary64 rounding of the real [v], a dyadic number. *)
Definition RND (v r : R) : Prop :=
  exists z e, F2R z e = v /\ r = rnd z e.

(** Zeros and finite numbers. *)
Definition SFfin (x : spec_float) : bool :=
  match x with
  | S754_zero _ | S754_finite _ _ _ => true
  | _ => false
  end.

(** The same on the primitive numbers: value, not-a-number, zero or
    finite, zero. *)
Definition fval (x : float) : R := SF2R (Prim2SF x).
Definition fnan (x : float) : bool := SFis_nan (Prim2SF x).
Definition ffin (x : float) : bool := SFfin (Prim2SF x).

Definition fzero (x : float) : bool :=
  match Prim2SF x with S754_zero _ => true | _ => false end.

(** What Horner's rule keeps between its accumulators [y], at [x], and
    [y'], at [x']: both are non-negative and in order, and an
    accumulator that is multiplied by zero is finite. *)
Definition horner_inv (x x' y y' : float) : Prop :=
  (0 <=? y)%float = true /\ (y <=? y')%float = true
  /\ (fval x = 0%R -> ffin y = true)
  /\ (fval x' = 0%R -> ffin y' = true).

End Binary64Values.

(* ================================================================== *)
(** * Keithley 2635A: source-function switching and compliance *)
(* ================================================================== *)

Ltac run_session Hdev :=
  unfold lift, write, bind, get_self, set_self, sleep, emit, print, ret, raise;
  cbn; repeat (rewrite Hdev; cbn).

Section KeithleyFacts.
Context `{Runtime}.
Variable dev : instrument.
Hypothesis Hdev : writable dev.

(** When the tracked mode differs from the target, lines 102-108 issue
    the switching sequence and leave the source on in the new mode,
    whatever the output flag was. *)
Lemma switch_mode_run (target : string) (w : world Keithley.t) :
  target = "VOLTS" \/ target = "AMPS" ->
  Keithley.mode (self w) <> target ->
  Keithley.switch_mode dev target w =
  (Ok tt,
   {| self := switched target (self w);
      log := (log w ++ switch_sequence target)%list;
      stdout := stdout w |}).
Proof.
  intros Ht Hm.
  apply String.eqb_neq in Hm.
  assert (Hvalid : negb ((target =? "VOLTS") || (target =? "AMPS")) = false)
    by (destruct Ht; subst; reflexivity).
  unfold Keithley.switch_mode, Keithley.turn_off, Keithley.turn_on,
    Keithley.set_func.
  rewrite Hvalid.
  unfold bind at 1. unfold get_self at 1. rewrite Hm. cbn [negb].
  unfold Keithley.set_is_on, Keithley.set_mode.
  run_session Hdev.
  unfold switch_sequence. now rewrite <- !app_assoc.
Qed.

Lemma set_voltage_run (voltage : Quantity) (w : world Keithley.t) :
  Keithley.mode (self w) <> "VOLTS" ->
  Keithley.set_voltage dev voltage w =
  (converted (to_m voltage u_V),
   {| self := switched "VOLTS" (self w);
      log := (log w ++ switch_sequence "VOLTS"
                    ++ level_write "smua.source.levelv = "
                                   (to_m voltage u_V))%list;
      stdout := stdout w |}).
Proof.
  intros Hm. unfold Keithley.set_voltage.
  unfold bind at 1. rewrite switch_mode_run by auto.
  destruct (to_m voltage u_V) as [x|]; run_session Hdev;
    now rewrite ?app_nil_r, <- ?app_assoc.
Qed.

Lemma set_current_run (current : Quantity) (w : world Keithley.t) :
  Keithley.mode (self w) <> "AMPS" ->
  Keithley.set_current dev current w =
  (converted (to_m current u_A),
   {| self := switched "AMPS" (self w);
      log := (log w ++ switch_sequence "AMPS"
                    ++ level_write "smua.source.leveli = "
                                   (to_m current u_A))%list;
      stdout := stdout w |}).
Proof.
  intros Hm. unfold Keithley.set_current.
  unfold bind at 1. rewrite switch_mode_run by auto.
  destruct (to_m current u_A) as [x|]; run_session Hdev;
    now rewrite ?app_nil_r, <- ?app_assoc.
Qed.
End KeithleyFacts.

(** C1.  Called while the output is on and the tracked mode differs from
    the requested one, [set_voltage] and [set_current] issue output-off,
    mode-change, 100 ms delay, output-on, in that order and nothing in
    between; this is all that the mode-switching lines issue, and the
    setter then ends with the write of the requested level (when its
    argument converts to the unit). *)
Theorem keithley_switch_while_on `{Runtime} (dev : instrument)
    (w : world Keithley.t) (q : Quantity) :
  writable dev ->
  Keithley.is_on (self w) = true ->
  (Keithley.mode (self w) <> "VOLTS" ->
     trace (Keithley.switch_mode dev "VOLTS" w) =
       (log w ++ [Write Keithley.OUTPUT_OFF; Write (Keithley.FUNC "VOLTS");
                  Sleep 100; Write Keithley.OUTPUT_ON])%list
     /\ trace (Keithley.set_voltage dev q w) =
       (log w ++ [Write Keithley.OUTPUT_OFF; Write (Keithley.FUNC "VOLTS");
                  Sleep 100; Write Keithley.OUTPUT_ON]
              ++ level_write "smua.source.levelv = " (to_m q u_V))%list)
  /\
  (Keithley.mode (self w) <> "AMPS" ->
     trace (Keithley.switch_mode dev "AMPS" w) =
       (log w ++ [Write Keithley.OUTPUT_OFF; Write (Keithley.FUNC "AMPS");
                  Sleep 100; Write Keithley.OUTPUT_ON])%list
     /\ trace (Keithley.set_current dev q w) =
       (log w ++ [Write Keithley.OUTPUT_OFF; Write (Keithley.FUNC "AMPS");
                  Sleep 100; Write Keithley.OUTPUT_ON]
              ++ level_write "smua.source.leveli = " (to_m q u_A))%list).
Proof.
  intros Hdev _. split; intros Hm.
  - split.
    + now rewrite switch_mode_run by auto.
    + now rewrite set_voltage_run by auto.
  - split.
    + now rewrite switch_mode_run by auto.
    + now rewrite set_current_run by auto.
Qed.

Lemma keithley_switch_while_on_witness :
  trace (Keithley.set_voltage mute 1%float (fresh (keithley true "AMPS"))) =
    [Write "smua.source.output = smua.OUTPUT_OFF";
     Write "smua.source.func = smua.OUTPUT_DCVOLTS";
     Sleep 100;
     Write "smua.source.output = smua.OUTPUT_ON";
     Write "smua.source.levelv = <float>"].
Proof.
  assert (Hw : writable mute) by (intros h cmd; reflexivity).
  assert (Hon : Keithley.is_on (self (fresh (keithley true "AMPS"))) = true)
    by reflexivity.
  assert (Hm : Keithley.mode (self (fresh (keithley true "AMPS"))) <> "VOLTS")
    by (simpl; discriminate).
  exact (proj2 (proj1 (keithley_switch_while_on mute
                         (fresh (keithley true "AMPS")) 1%float Hw Hon) Hm)).
Defined.

(** C2 fails: called with the output off and the source in the other
    mode, [set_voltage] writes output-off before the mode change and
    output-on after it, and leaves the output on. *)
Lemma keithley_switch_while_off_counterexample :
  let r := Keithley.set_voltage mute 1%float (fresh (keithley false "AMPS")) in
  trace r <> [Write (Keithley.FUNC "VOLTS")]
  /\ In (Write Keithley.OUTPUT_OFF) (trace r)
  /\ In (Write Keithley.OUTPUT_ON) (trace r)
  /\ Keithley.is_on (final r) = true.
Proof.
  cbv zeta. repeat split.
  - vm_compute. discriminate.
  - vm_compute. auto.
  - vm_compute. auto 10.
Qed.

(** C2, amended.  Called while the output is off and the tracked mode
    differs from the requested one, [set_voltage] and [set_current] issue
    the same sequence as with the output on: output-off, mode-change,
    100 ms delay, output-on, then the level write; the output is left on. *)
Theorem keithley_switch_while_off `{Runtime} (dev : instrument)
    (w : world Keithley.t) (q : Quantity) :
  writable dev ->
  Keithley.is_on (self w) = false ->
  (Keithley.mode (self w) <> "VOLTS" ->
     trace (Keithley.set_voltage dev q w) =
       (log w ++ [Write Keithley.OUTPUT_OFF; Write (Keithley.FUNC "VOLTS");
                  Sleep 100; Write Keithley.OUTPUT_ON]
              ++ level_write "smua.source.levelv = " (to_m q u_V))%list
     /\ Keithley.is_on (final (Keithley.set_voltage dev q w)) = true)
  /\
  (Keithley.mode (self w) <> "AMPS" ->
     trace (Keithley.set_current dev q w) =
       (log w ++ [Write Keithley.OUTPUT_OFF; Write (Keithley.FUNC "AMPS");
                  Sleep 100; Write Keithley.OUTPUT_ON]
              ++ level_write "smua.source.leveli = " (to_m q u_A))%list
     /\ Keithley.is_on (final (Keithley.set_current dev q w)) = true).
Proof.
  intros Hdev _. split; intros Hm.
  - now rewrite set_voltage_run by auto.
  - now rewrite set_current_run by auto.
Qed.

Lemma keithley_switch_while_off_witness :
  trace (Keithley.set_current mute 1%float (fresh (keithley false "VOLTS"))) =
    [Write "smua.source.output = smua.OUTPUT_OFF";
     Write "smua.source.func = smua.OUTPUT_DCAMPS";
     Sleep 100;
     Write "smua.source.output = smua.OUTPUT_ON";
     Write "smua.source.leveli = <float>"]
  /\ Keithley.is_on
       (final (Keithley.set_current mute 1%float
                 (fresh (keithley false "VOLTS")))) = true.
Proof.
  assert (Hw : writable mute) by (intros h cmd; reflexivity).
  assert (Hoff : Keithley.is_on (self (fresh (keithley false "VOLTS"))) = false)
    by reflexivity.
  assert (Hm : Keithley.mode (self (fresh (keithley false "VOLTS"))) <> "AMPS")
    by (simpl; discriminate).
  exact (proj2 (keithley_switch_while_off mute
                  (fresh (keithley false "VOLTS")) 1%float Hw Hoff) Hm).
Defined.

(** C10.  Given anything but ['VOLTS'] or ['AMPS'], [set_func] returns
    without a transaction and without touching the driver object,
    whatever the instrument would have done. *)
Theorem keithley_set_func_rejects `{Runtime} (dev : instrument)
    (w : world Keithley.t) (m : string) :
  m <> "VOLTS" -> m <> "AMPS" ->
  result (Keithley.set_func dev m w) = Ok tt
  /\ trace (Keithley.set_func dev m w) = log w
  /\ final (Keithley.set_func dev m w) = self w.
Proof.
  intros Hv Ha.
  apply String.eqb_neq in Hv. apply String.eqb_neq in Ha.
  unfold Keithley.set_func. rewrite Hv, Ha. cbn. auto.
Qed.

Lemma keithley_set_func_rejects_witness :
  trace (Keithley.set_func mute "OHMS" (fresh (keithley true "VOLTS"))) = []
  /\ final (Keithley.set_func mute "OHMS" (fresh (keithley true "VOLTS")))
     = keithley true "VOLTS".
Proof.
  assert (Hv : "OHMS" <> "VOLTS") by discriminate.
  assert (Ha : "OHMS" <> "AMPS") by discriminate.
  exact (proj2 (keithley_set_func_rejects mute
                  (fresh (keithley true "VOLTS")) "OHMS" Hv Ha)).
Defined.

(* ================================================================== *)
(** * Agilent E3633A: range checks and the current limit *)
(* ================================================================== *)

Section AgilentFacts.
Context `{Runtime}.
Variable dev : instrument.

(** A protection level outside the range of the selected voltage range
    is answered by a message only: the range query is the single
    transaction. *)
Lemma set_volt_protection_out_of_range (w : world Agilent.t)
      (volt_level : float) (volt_range : string) :
  answers dev (log w) "VOLT:RANG?" = Some volt_range ->
  (volt_range = "P8V" -> Agilent.between 0 8.24 volt_level = false) ->
  (volt_range = "P20V" -> Agilent.between 0 20.6 volt_level = false) ->
  trace (Agilent.set_volt_protection dev volt_level w) =
    (log w ++ [Query "VOLT:RANG?" volt_range])%list
  /\ final (Agilent.set_volt_protection dev volt_level w) = self w.
Proof.
  intros Hq H8 H20.
  unfold Agilent.set_volt_protection, Agilent.measure_volt_range, trace, final.
  unfold bind, query. rewrite Hq.
  destruct (volt_range =? "P8V") eqn:E8.
  - apply String.eqb_eq in E8. rewrite (H8 E8). cbn. auto.
  - destruct (volt_range =? "P20V") eqn:E20.
    + apply String.eqb_eq in E20. rewrite (H20 E20). cbn. auto.
    + cbn. auto.
Qed.

(** With the output already on, a voltage outside [0, 20] is answered
    by a message only. *)
Lemma set_voltage_out_of_range_on (w : world Agilent.t) (voltage : float) :
  Agilent.between 0 20 voltage = false ->
  Agilent.OUTPUT_on (self w) = true ->
  trace (Agilent.set_voltage dev voltage w) = log w
  /\ final (Agilent.set_voltage dev voltage w) = self w.
Proof.
  intros Hr Hon. unfold Agilent.set_voltage, trace, final.
  rewrite Hr. unfold bind, print, get_self. cbn. rewrite Hon. cbn. auto.
Qed.

(** With the output off, the same call still switches the output on. *)
Lemma set_voltage_out_of_range_off (w : world Agilent.t) (voltage : float) :
  writable dev ->
  Agilent.between 0 20 voltage = false ->
  Agilent.OUTPUT_on (self w) = false ->
  trace (Agilent.set_voltage dev voltage w) = (log w ++ [Write ":OUTP ON"])%list
  /\ Agilent.OUTPUT_on (final (Agilent.set_voltage dev voltage w)) = true.
Proof.
  intros Hdev Hr Hoff. unfold Agilent.set_voltage, trace, final.
  rewrite Hr. unfold bind, print, get_self. cbn. rewrite Hoff. cbn.
  unfold Agilent.turn_output_on, Agilent.set_OUTPUT_on.
  run_session Hdev. auto.
Qed.
End AgilentFacts.

(** C3, at the failing input.  [set_voltage(25)] on a supply whose output
    is off: 25 is outside [0, 20], the message is printed, and the output
    is switched on all the same - one write reaches the instrument and
    the tracked flag changes. *)
Theorem agilent_set_voltage_rejected_still_writes :
  Agilent.between 0 20 25 = false
  /\ trace (Agilent.set_voltage mute 25%float (fresh (agilent false))) =
       [Write ":OUTP ON"]
  /\ stdout (snd (Agilent.set_voltage mute 25%float (fresh (agilent false)))) =
       ["Not a valid voltage entry. Enter a value between 0 and 20V"]
  /\ Agilent.OUTPUT_on
       (final (Agilent.set_voltage mute 25%float (fresh (agilent false)))) = true.
Proof. vm_compute. auto. Qed.

(** C8 fails for the Keithley: with the output on, [set_current_compliance]
    writes the limit and nothing else, and the output stays on. *)
Lemma compliance_limit_counterexample :
  let r := Keithley.set_current_compliance mute 0.1%float
             (fresh (keithley true "VOLTS")) in
  trace r = [Write "smua.source.limiti = <float>"]
  /\ ~ In (Write Keithley.OUTPUT_OFF) (trace r)
  /\ Keithley.is_on (final r) = true.
Proof.
  cbv zeta. repeat split.
  vm_compute. intros [E | []]. discriminate E.
Qed.

(** C8, amended.  With the output on, [AgilentE3633A.set_current_limit]
    writes output-off, then the limit, and leaves the output off.  The
    two Keithley compliance setters write the limit (and, for the voltage,
    the measurement range) without an output command and leave the
    output flag as it was. *)
Theorem compliance_limit_setters `{Runtime} (dev : instrument) :
  writable dev ->
  (forall (w : world Agilent.t) (current_limit : float),
      Agilent.OUTPUT_on (self w) = true ->
      trace (Agilent.set_current_limit dev current_limit w) =
        (log w ++ [Write ":OUTP OFF";
                   Write (":SOUR:CURR " ++ fmt_E 6 current_limit)])%list
      /\ Agilent.OUTPUT_on
           (final (Agilent.set_current_limit dev current_limit w)) = false)
  /\
  (forall (w : world Keithley.t) (v_comp : Quantity) (x : float),
      to_m v_comp u_V = Some x ->
      trace (Keithley.set_voltage_compliance dev v_comp w) =
        (log w ++ [Write ("smua.source.limitv = " ++ fmt_E 4 x);
                   Write ("smua.measure.rangev = " ++ fmt_E 4 x)])%list
      /\ Keithley.is_on (final (Keithley.set_voltage_compliance dev v_comp w))
         = Keithley.is_on (self w))
  /\
  (forall (w : world Keithley.t) (i_comp : Quantity) (x : float),
      to_m i_comp u_A = Some x ->
      trace (Keithley.set_current_compliance dev i_comp w) =
        (log w ++ [Write ("smua.source.limiti = " ++ fmt_E 4 x)])%list
      /\ Keithley.is_on (final (Keithley.set_current_compliance dev i_comp w))
         = Keithley.is_on (self w)).
Proof.
  intros Hdev. split; [| split].
  - intros w current_limit Hon.
    unfold Agilent.set_current_limit, Agilent.turn_output_off,
      Agilent.set_OUTPUT_on, trace, final.
    unfold bind, get_self. cbn. rewrite Hon.
    run_session Hdev. now rewrite <- app_assoc.
  - intros w v_comp x Hx.
    unfold Keithley.set_voltage_compliance,
      Keithley.set_volt_compliance_attr, trace, final.
    rewrite Hx. run_session Hdev. now rewrite <- app_assoc.
  - intros w i_comp x Hx.
    unfold Keithley.set_current_compliance,
      Keithley.set_cur_compliance_attr, trace, final.
    rewrite Hx. run_session Hdev. auto.
Qed.

Lemma compliance_limit_setters_witness :
  trace (Agilent.set_current_limit mute 0.5%float (fresh (agilent true))) =
    [Write ":OUTP OFF"; Write ":SOUR:CURR <float>"]
  /\ Agilent.OUTPUT_on
       (final (Agilent.set_current_limit mute 0.5%float (fresh (agilent true))))
     = false.
Proof.
  assert (Hw : writable mute) by (intros h cmd; reflexivity).
  assert (Hon : Agilent.OUTPUT_on (self (fresh (agilent true))) = true)
    by reflexivity.
  exact (proj1 (compliance_limit_setters mute Hw)
               (fresh (agilent true)) 0.5%float Hon).
Defined.

(* ================================================================== *)
(** * Bus discovery *)
(* ================================================================== *)

Section DiscoveryFacts.
Variable rm : Discovery.resource_manager.
Variables driver pattern : string.

(** As long as no candidate makes the loop body raise anything but
    [VisaIOError], the scan returns the descriptors of the matching
    candidates, in bus order. *)
Lemma scan_loop_skips (specs : list string) (acc : list Discovery.ParamSet) :
  (forall spec e, In spec specs ->
                  Discovery.identify rm driver pattern spec = Raise e ->
                  e = VisaIOError) ->
  Discovery.scan_loop rm driver pattern specs acc =
  Ok (acc ++ flat_map (Discovery.matching rm driver pattern) specs)%list.
Proof.
  revert acc. induction specs as [| spec rest IH]; intros acc Hio; simpl.
  - now rewrite app_nil_r.
  - unfold Discovery.matching at 1.
    destruct (Discovery.identify rm driver pattern spec) as [[p |] | e] eqn:E.
    + rewrite IH by (intros; eapply Hio; simpl; eauto).
      now rewrite <- app_assoc.
    + apply IH. intros; eapply Hio; simpl; eauto.
    + rewrite (Hio spec e (or_introl eq_refl) E).
      apply IH. intros; eapply Hio; simpl; eauto.
Qed.

(** A candidate whose loop body raises [ValueError] ends the scan with
    that exception when the candidates before it raise at most
    [VisaIOError]; what was collected is lost. *)
Lemma scan_loop_aborts (before after : list string) (spec : string)
      (acc : list Discovery.ParamSet) :
  (forall s e, In s before ->
               Discovery.identify rm driver pattern s = Raise e ->
               e = VisaIOError) ->
  Discovery.identify rm driver pattern spec = Raise ValueError ->
  Discovery.scan_loop rm driver pattern (before ++ spec :: after) acc =
  Raise ValueError.
Proof.
  revert acc. induction before as [| s rest IH]; intros acc Hio Hbad; simpl.
  - now rewrite Hbad.
  - destruct (Discovery.identify rm driver pattern s) as [[p |] | e] eqn:E.
    + apply IH; auto. intros; eapply Hio; simpl; eauto.
    + apply IH; auto. intros; eapply Hio; simpl; eauto.
    + rewrite (Hio s e (or_introl eq_refl) E).
      apply IH; auto. intros; eapply Hio; simpl; eauto.
Qed.
End DiscoveryFacts.

(** The scenario of the specification: one address that cannot be opened,
    one instrument of another model, one E3633A.  The scan returns the
    descriptor of the E3633A alone. *)
Example list_instruments_bench :
  Agilent_list_instruments bench =
  Ok [{| Discovery.cls := "AgilentE3633A";
         Discovery.visa_address := "GPIB0::5::INSTR";
         Discovery.manufacturer := "HEWLETT-PACKARD";
         Discovery.serial := "0";
         Discovery.model := "E3633A";
         Discovery.version := "1.7-5.0-1.0" |}].
Proof. reflexivity. Qed.

(** C4, at the failing input.  One candidate that answers [*IDN?] with a
    text of a single field: unpacking into four names raises
    [ValueError], which the [except pyvisa.errors.VisaIOError] clause
    does not catch, and the exception leaves [list_instruments] in both
    modules. *)
Theorem list_instruments_malformed_idn_escapes :
  Py.split "," 4 (Py.rstrip "HP70951B") = ["HP70951B"]
  /\ Agilent_list_instruments odd_bench = Raise ValueError
  /\ Keithley_list_instruments odd_bench = Raise ValueError.
Proof. repeat split. Qed.

(* ================================================================== *)
(** * Ibsen Eagle: reconstruction of the first token *)
(* ================================================================== *)

(** The comprehension [[int(val) for val in data_list]] succeeds exactly
    when every token reads as an integer, and then returns these
    integers in order. *)
Lemma ints_spec (data_list : list string) (zs : list Z) :
  Ibsen.ints data_list = Ok zs <-> Forall2 parses data_list zs.
Proof.
  revert zs. induction data_list as [| val rest IH]; intros zs; simpl.
  - split.
    + intros E. injection E as <-. constructor.
    + intros F. inversion F. reflexivity.
  - unfold parses at 1. split.
    + destruct (Py.int val) as [n |] eqn:En; [| discriminate].
      destruct (Ibsen.ints rest) as [ns | e] eqn:Er; [| discriminate].
      intros E. injection E as <-.
      constructor; [exact En | now apply IH].
    + intros F. inversion F as [| ? z ? zs' Hp Hrest]; subst.
      unfold parses in Hp. rewrite Hp.
      apply IH in Hrest. now rewrite Hrest.
Qed.

(** A token that does not read as an integer makes the comprehension
    raise [ValueError]; it raises nothing else. *)
Lemma ints_raises (data_list : list string) (e : exn) :
  Ibsen.ints data_list = Raise e -> e = ValueError.
Proof.
  induction data_list as [| val rest IH]; simpl; [discriminate |].
  destruct (Py.int val); [| now intros [= <-]].
  destruct (Ibsen.ints rest); [discriminate |].
  intros [= <-]. now apply IH.
Qed.

(** C5.  When the first token starts with two characters [c1 c2], they
    are dropped; what is left of the token is put in front of the other
    tokens if it is not empty and is dropped if it is; the result is the
    integers that the tokens read as.  Tokens [AB12 34 56] give
    [12, 34, 56], and so does the response text they come from. *)
Theorem eagle_reconstruct_strips_prefix :
  (forall (c1 c2 : ascii) (payload : string) (rest : list string)
          (zs : list Z),
      Ibsen.reconstruct (String c1 (String c2 payload) :: rest) = Ok zs <->
      Forall2 parses (if payload =? "" then rest else payload :: rest) zs)
  /\ Ibsen.reconstruct ["AB12"; "34"; "56"] = Ok [12; 34; 56]%Z
  /\ Ibsen.reconstruct ["AB"; "34"; "56"] = Ok [34; 56]%Z
  /\ Ibsen.spectrum_counts "AB12 34 56" = Ok [12; 34; 56]%Z.
Proof.
  split; [| repeat split].
  intros c1 c2 payload rest zs.
  unfold Ibsen.reconstruct. cbn [Py.slice_from].
  destruct (payload =? ""); cbn [negb]; apply ints_spec.
Qed.

(* ================================================================== *)
(** * HP 70951B: the session timeout *)
(* ================================================================== *)

(** A sequence either runs its first part normally and continues, or
    stops with the exception of its first part. *)
Lemma bind_inv {S A B} (m : M S A) (k : A -> M S B)
      (w w2 : world S) (o : outcome B) :
  bind m k w = (o, w2) ->
  (exists a w1, m w = (Ok a, w1) /\ k a w1 = (o, w2))
  \/ (exists e, m w = (Raise e, w2) /\ o = Raise e).
Proof.
  unfold bind. destruct (m w) as [[a | e] w1]; intros E.
  - left. now exists a, w1.
  - right. exists e. now injection E as <- <-.
Qed.

Create HintDb frame.

Section Frame.
Context {S : Type}.
Variable dev : instrument.

Lemma keeps_ret {A} (a : A) : keeps_self (S:=S) (ret a).
Proof. intros w o w'. now intros [= <- <-]. Qed.

Lemma keeps_raise {A} (e : exn) : keeps_self (S:=S) (A:=A) (raise e).
Proof. intros w o w'. now intros [= <- <-]. Qed.

Lemma keeps_lift {A} (e : exn) (x : option A) : keeps_self (S:=S) (lift e x).
Proof. destruct x; [apply keeps_ret | apply keeps_raise]. Qed.

Lemma keeps_write (cmd : string) : keeps_self (S:=S) (write dev cmd).
Proof.
  intros w o w'. unfold write, emit.
  destruct (accepts dev (log w) cmd); now intros [= <- <-].
Qed.

Lemma keeps_query (cmd : string) : keeps_self (S:=S) (query dev cmd).
Proof.
  intros w o w'. unfold query.
  destruct (answers dev (log w) cmd); now intros [= <- <-].
Qed.

Lemma keeps_bind {A B} (m : M S A) (k : A -> M S B) :
  keeps_self m -> (forall a, keeps_self (k a)) -> keeps_self (bind m k).
Proof.
  intros Hm Hk w o w' E.
  apply bind_inv in E as [(a & w1 & E1 & E2) | (e & E1 & _)].
  - rewrite (Hk a _ _ _ E2). now apply (Hm _ _ _ E1).
  - now apply (Hm _ _ _ E1).
Qed.
End Frame.

#[local] Hint Resolve keeps_ret keeps_raise keeps_lift keeps_write
  keeps_query : frame.

Ltac frame :=
  repeat (apply keeps_bind; [| intros ?]); auto with frame.

Section HPFacts.
Context {N : Type} `{Arith N} `{HP.Parser N}.
Variable dev : instrument.

Lemma set_timeout_run (ms : Z) (w : world HP.rsrc) :
  HP.set_timeout ms w =
  (Ok tt, {| self := {| HP.timeout := ms;
                        HP.read_termination := HP.read_termination (self w);
                        HP.write_termination := HP.write_termination (self w) |};
             log := log w; stdout := stdout w |}).
Proof. reflexivity. Qed.

Lemma keeps_get_amplitude_units : keeps_self (HP.get_amplitude_units dev).
Proof.
  unfold HP.get_amplitude_units. frame.
  repeat match goal with |- context [if ?b then _ else _] => destruct b end;
    auto with frame.
Qed.

Lemma keeps_get_center_wavelength : keeps_self (HP.get_center_wavelength dev).
Proof. unfold HP.get_center_wavelength. frame. Qed.

Lemma keeps_get_wavelength_span : keeps_self (HP.get_wavelength_span dev).
Proof. unfold HP.get_wavelength_span. frame. Qed.

Lemma keeps_peak_loop (peak_id : list string) (pk_wl pk_amp : list N) :
  keeps_self (HP.peak_loop dev peak_id pk_wl pk_amp).
Proof.
  revert pk_wl pk_amp.
  induction peak_id as [| pk rest IH]; intros pk_wl pk_amp; cbn [HP.peak_loop].
  - apply keeps_ret.
  - frame.
Qed.

(** [get_sweep_time] sets the timeout to 5000 ms and returns, or raises,
    with that value in place. *)
Lemma get_sweep_time_timeout (w : world HP.rsrc) :
  timeout_on_exit (HP.get_sweep_time dev w) 5000 [5000%Z].
Proof.
  unfold timeout_on_exit, result, final.
  destruct (HP.get_sweep_time dev w) as [o wf] eqn:E. cbn [fst snd].
  unfold HP.get_sweep_time in E.
  apply bind_inv in E as [(? & w1 & E1 & E) | (e & E1 & _)];
    [| rewrite set_timeout_run in E1; discriminate E1].
  rewrite set_timeout_run in E1. injection E1 as _ <-.
  assert (K : keeps_self (S:=HP.rsrc)
                (r <- query dev "ST?" ;;
                 st <- lift ValueError (HP.float_of r) ;; ret st)) by frame.
  apply K in E. rewrite E.
  destruct o; cbn; auto.
Qed.

(** [get_spectrum] returns with the timeout at 300 ms; when it raises,
    the timeout is 15000 ms, or 300 ms if it is the last write that
    failed. *)
Lemma get_spectrum_timeout (tr : string) (w : world HP.rsrc) :
  timeout_on_exit (HP.get_spectrum dev tr w) 300 [15000%Z; 300%Z].
Proof.
  unfold timeout_on_exit, result, final.
  destruct (HP.get_spectrum dev tr w) as [o wf] eqn:E. cbn [fst snd].
  unfold HP.get_spectrum in E.
  apply bind_inv in E as [(? & w1 & E1 & E) | (e & E1 & _)];
    [| rewrite set_timeout_run in E1; discriminate E1].
  rewrite set_timeout_run in E1. injection E1 as _ E1.
  assert (T1 : HP.timeout (self w1) = 15000%Z) by now subst w1.
  clear E1.
  apply bind_inv in E as [(au & w2 & E2 & E) | (e & E2 & ->)];
    apply keeps_get_amplitude_units in E2;
    [| cbn; rewrite E2; auto].
  apply bind_inv in E as [(c & w3 & E3 & E) | (e & E3 & ->)];
    apply keeps_get_center_wavelength in E3;
    [| cbn; rewrite E3, E2; auto].
  apply bind_inv in E as [(s & w4 & E4 & E) | (e & E4 & ->)];
    apply keeps_get_wavelength_span in E4;
    [| cbn; rewrite E4, E3, E2; auto].
  apply bind_inv in E as [(? & w5 & E5 & E) | (e & E5 & ->)];
    apply keeps_write in E5;
    [| cbn; rewrite E5, E4, E3, E2; auto].
  apply bind_inv in E as [(r & w6 & E6 & E) | (e & E6 & ->)];
    apply keeps_query in E6;
    [| cbn; rewrite E6, E5, E4, E3, E2; auto].
  apply bind_inv in E as [(? & w7 & E7 & E) | (e & E7 & _)];
    [| rewrite set_timeout_run in E7; discriminate E7].
  rewrite set_timeout_run in E7. injection E7 as _ E7.
  assert (T7 : HP.timeout (self w7) = 300%Z) by now subst w7.
  clear E7.
  apply bind_inv in E as [(? & w8 & E8 & E) | (e & E8 & ->)];
    apply keeps_write in E8.
  - injection E as <- <-. rewrite E8. exact T7.
  - cbn. rewrite E8. auto.
Qed.

(** [get_peak_info] returns with the timeout at 300 ms; when it raises,
    the timeout is 5000 ms. *)
Lemma get_peak_info_timeout (peak_id : list string) (w : world HP.rsrc) :
  timeout_on_exit (HP.get_peak_info dev peak_id w) 300 [5000%Z].
Proof.
  unfold timeout_on_exit, result, final.
  destruct (HP.get_peak_info dev peak_id w) as [o wf] eqn:E. cbn [fst snd].
  unfold HP.get_peak_info in E.
  apply bind_inv in E as [(? & w1 & E1 & E) | (e & E1 & _)];
    [| rewrite set_timeout_run in E1; discriminate E1].
  rewrite set_timeout_run in E1. injection E1 as _ E1.
  assert (T1 : HP.timeout (self w1) = 5000%Z) by now subst w1.
  clear E1.
  apply bind_inv in E as [(r & w2 & E2 & E) | (e & E2 & ->)];
    apply keeps_peak_loop in E2;
    [| cbn; rewrite E2; auto].
  apply bind_inv in E as [(? & w3 & E3 & E) | (e & E3 & _)];
    [| rewrite set_timeout_run in E3; discriminate E3].
  rewrite set_timeout_run in E3. injection E3 as _ E3.
  injection E as <- <-. now subst w3.
Qed.

(** When the first query of [get_spectrum] gets no answer, the exception
    leaves the method with the timeout at 15000 ms. *)
Lemma get_spectrum_no_answer (tr : string) (w : world HP.rsrc) :
  answers dev (log w) "AUNITS?" = None ->
  result (HP.get_spectrum dev tr w) = Raise VisaIOError
  /\ HP.timeout (final (HP.get_spectrum dev tr w)) = 15000%Z.
Proof.
  intros Hq.
  unfold HP.get_spectrum, HP.get_amplitude_units, result, final.
  unfold bind, query. cbn. rewrite Hq. cbn. auto.
Qed.
End HPFacts.

Section Counting.
Context {S : Type}.
Variable dev : instrument.

Lemma adds_ret {A} (a : A) (r : nat) : adds (S:=S) (ret a) 0 r.
Proof.
  intros w o w' [= <- <-]. split; [reflexivity |].
  exists []. now rewrite app_nil_r.
Qed.

Lemma adds_raise {A} (e : exn) (n : nat) : adds (S:=S) (A:=A) (raise e) n 0.
Proof.
  intros w o w' [= <- <-]. split; [reflexivity |].
  exists []. rewrite app_nil_r. split; [reflexivity | cbn; lia].
Qed.

Lemma adds_lift {A} (e : exn) (x : option A) : adds (S:=S) (lift e x) 0 0.
Proof. destruct x; [apply adds_ret | apply adds_raise]. Qed.

Lemma adds_write (cmd : string) : adds (S:=S) (write dev cmd) 1 0.
Proof.
  intros w o w'. unfold write, emit.
  destruct (accepts dev (log w) cmd); intros [= <- <-]; cbn.
  - split; [reflexivity |]. now exists [Write cmd].
  - split; [reflexivity |]. exists []. rewrite app_nil_r. cbn. auto.
Qed.

Lemma adds_query (cmd : string) : adds (S:=S) (query dev cmd) 1 0.
Proof.
  intros w o w'. unfold query.
  destruct (answers dev (log w) cmd) as [r |]; intros [= <- <-]; cbn.
  - split; [reflexivity |]. now exists [Query cmd r].
  - split; [reflexivity |]. exists []. rewrite app_nil_r. cbn. auto.
Qed.

Lemma adds_bind {A B} (m : M S A) (k : A -> M S B) (n1 r1 n2 r2 r : nat) :
  adds m n1 r1 -> (forall a, adds (k a) n2 r2) ->
  (r1 <= r)%nat -> (n1 + r2 <= r)%nat ->
  adds (bind m k) (n1 + n2) r.
Proof.
  intros Hm Hk Hr1 Hr2 w o w' E.
  apply bind_inv in E as [(a & w1 & E1 & E2) | (e & E1 & ->)].
  - destruct (Hm _ _ _ E1) as (S1 & l1 & L1 & C1).
    destruct (Hk a _ _ _ E2) as (S2 & l2 & L2 & C2).
    split; [congruence |].
    exists (l1 ++ l2)%list. rewrite L2, L1, app_assoc. split; [reflexivity |].
    rewrite length_app. destruct o; lia.
  - destruct (Hm _ _ _ E1) as (S1 & l1 & L1 & C1).
    split; [exact S1 |]. exists l1. split; [exact L1 | lia].
Qed.
End Counting.

Section HPCounting.
Context {N : Type} `{Arith N} `{HP.Parser N}.
Variable dev : instrument.

Lemma adds_get_amplitude_units : adds (HP.get_amplitude_units dev) 1 1.
Proof.
  unfold HP.get_amplitude_units.
  apply (adds_bind _ _ 1 0 0 0 1); [apply adds_query | | lia | lia].
  intros au_str.
  repeat match goal with |- context [if ?b then _ else _] => destruct b end;
    first [apply adds_ret | apply (adds_raise _ 0)].
Qed.

Lemma adds_get_center_wavelength : adds (HP.get_center_wavelength dev) 1 1.
Proof.
  unfold HP.get_center_wavelength.
  apply (adds_bind _ _ 1 0 0 0 1); [apply adds_query | | lia | lia].
  intros r.
  apply (adds_bind _ _ 0 0 0 0 0); [apply adds_lift | | lia | lia].
  intros x. apply adds_ret.
Qed.

Lemma adds_get_wavelength_span : adds (HP.get_wavelength_span dev) 1 1.
Proof.
  unfold HP.get_wavelength_span.
  apply (adds_bind _ _ 1 0 0 0 1); [apply adds_query | | lia | lia].
  intros r.
  apply (adds_bind _ _ 0 0 0 0 0); [apply adds_lift | | lia | lia].
  intros x. apply adds_ret.
Qed.

(** How [get_spectrum] is left.  It returns after six transactions with
    the timeout at 300 ms.  When it raises before its five first
    transactions are complete, the timeout is 15000 ms; the only other
    way to raise is that the instrument refuses the final clear command
    after these five, and then the timeout is already back at 300 ms. *)
Lemma get_spectrum_exit (tr : string) (w : world HP.rsrc) :
  match result (HP.get_spectrum dev tr w) with
  | Ok _ =>
      completed (HP.get_spectrum dev tr w) w = 6%nat
      /\ HP.timeout (final (HP.get_spectrum dev tr w)) = 300%Z
  | Raise _ =>
      ((completed (HP.get_spectrum dev tr w) w < 5)%nat
       /\ HP.timeout (final (HP.get_spectrum dev tr w)) = 15000%Z)
      \/ (completed (HP.get_spectrum dev tr w) w = 5%nat
          /\ accepts dev (trace (HP.get_spectrum dev tr w)) ("CLRW TR" ++ tr)
             = false
          /\ HP.timeout (final (HP.get_spectrum dev tr w)) = 300%Z)
  end.
Proof.
  unfold completed, result, final, trace.
  destruct (HP.get_spectrum dev tr w) as [o wf] eqn:E. cbn [fst snd].
  unfold HP.get_spectrum in E.
  apply bind_inv in E as [(? & w1 & E1 & E) | (e & E1 & _)];
    [| rewrite set_timeout_run in E1; discriminate E1].
  rewrite set_timeout_run in E1. injection E1 as _ E1.
  assert (T1 : HP.timeout (self w1) = 15000%Z) by now subst w1.
  assert (L1 : log w1 = log w) by now subst w1.
  clear E1.
  apply bind_inv in E as [(au & w2 & E2 & E) | (e & E2 & ->)];
    apply adds_get_amplitude_units in E2 as (S2 & l2 & L2 & C2);
    [| left; rewrite S2, L2, L1, length_app; split; [lia | exact T1]].
  apply bind_inv in E as [(c & w3 & E3 & E) | (e & E3 & ->)];
    apply adds_get_center_wavelength in E3 as (S3 & l3 & L3 & C3);
    [| left; rewrite S3, S2, L3, L2, L1, !length_app; split; [lia | exact T1]].
  apply bind_inv in E as [(s & w4 & E4 & E) | (e & E4 & ->)];
    apply adds_get_wavelength_span in E4 as (S4 & l4 & L4 & C4);
    [| left; rewrite S4, S3, S2, L4, L3, L2, L1, !length_app;
       split; [lia | exact T1]].
  apply bind_inv in E as [(? & w5 & E5 & E) | (e & E5 & ->)];
    apply adds_write in E5 as (S5 & l5 & L5 & C5);
    [| left; rewrite S5, S4, S3, S2, L5, L4, L3, L2, L1, !length_app;
       split; [lia | exact T1]].
  apply bind_inv in E as [(r & w6 & E6 & E) | (e & E6 & ->)];
    apply adds_query in E6 as (S6 & l6 & L6 & C6);
    [| left; rewrite S6, S5, S4, S3, S2, L6, L5, L4, L3, L2, L1, !length_app;
       split; [lia | exact T1]].
  apply bind_inv in E as [(? & w7 & E7 & E) | (e & E7 & _)];
    [| rewrite set_timeout_run in E7; discriminate E7].
  rewrite set_timeout_run in E7. injection E7 as _ E7.
  assert (T7 : HP.timeout (self w7) = 300%Z) by now subst w7.
  assert (L7 : log w7 = log w6) by now subst w7.
  clear E7.
  apply bind_inv in E as [(? & w8 & E8 & E) | (e & E8 & ->)].
  - apply adds_write in E8 as (S8 & l8 & L8 & C8).
    injection E as <- <-.
    rewrite S8, L8, L7, L6, L5, L4, L3, L2, L1, !length_app.
    split; [lia | exact T7].
  - right. unfold write in E8.
    destruct (accepts dev (log w7) ("CLRW TR" ++ tr)) eqn:Ea;
      [discriminate E8 |].
    injection E8 as _ <-.
    rewrite L7, L6, L5, L4, L3, L2, L1, !length_app.
    repeat split; [lia | | exact T7].
    rewrite <- L1, <- L2, <- L3, <- L4, <- L5, <- L6, <- L7. exact Ea.
Qed.
End HPCounting.

(** C7 fails.  On an initialized session (timeout 300 ms) whose
    instrument does not answer, [get_spectrum] raises and leaves the
    timeout at 15000 ms; and [get_sweep_time] leaves it at 5000 ms even
    when the instrument answers. *)
Lemma hp_timeout_counterexample :
  HP.timeout hp_initialized = 300%Z
  /\ result (HP.get_spectrum mute "A" (fresh hp_initialized))
     = Raise VisaIOError
  /\ HP.timeout (final (HP.get_spectrum mute "A" (fresh hp_initialized)))
     = 15000%Z
  /\ result (HP.get_sweep_time osa (fresh hp_initialized)) = Ok 1
  /\ HP.timeout (final (HP.get_sweep_time osa (fresh hp_initialized)))
     = 5000%Z.
Proof. repeat split. Qed.

(** C7, amended.  [get_spectrum] raises the timeout to 15000 ms before
    its first transaction and returns, after six transactions, with the
    timeout at 300 ms, the value that [_initialize] sets, whatever it was
    before the call.  When one of its first five transactions fails, the
    exception leaves it with the timeout at 15000 ms; when these five
    succeed and the final clear command is refused, with 300 ms.
    [get_peak_info] returns with 300 ms and raises with 5000 ms. *)
Theorem hp_timeout_on_exit {N : Type} `{Arith N} `{HP.Parser N}
    (dev : instrument) (w : world HP.rsrc) :
  (forall tr : string,
      match result (HP.get_spectrum dev tr w) with
      | Ok _ =>
          completed (HP.get_spectrum dev tr w) w = 6%nat
          /\ HP.timeout (final (HP.get_spectrum dev tr w)) = 300%Z
      | Raise _ =>
          ((completed (HP.get_spectrum dev tr w) w < 5)%nat
           /\ HP.timeout (final (HP.get_spectrum dev tr w)) = 15000%Z)
          \/ (completed (HP.get_spectrum dev tr w) w = 5%nat
              /\ accepts dev (trace (HP.get_spectrum dev tr w))
                         ("CLRW TR" ++ tr) = false
              /\ HP.timeout (final (HP.get_spectrum dev tr w)) = 300%Z)
      end)
  /\
  (forall peak_id : list string,
      match result (HP.get_peak_info dev peak_id w) with
      | Ok _ => HP.timeout (final (HP.get_peak_info dev peak_id w)) = 300%Z
      | Raise _ => HP.timeout (final (HP.get_peak_info dev peak_id w)) = 5000%Z
      end).
Proof.
  split.
  - intros tr. apply get_spectrum_exit.
  - intros peak_id. pose proof (get_peak_info_timeout dev peak_id w) as T.
    unfold timeout_on_exit in T.
    destruct (result (HP.get_peak_info dev peak_id w)); [exact T |].
    destruct T as [T | []]; auto.
Qed.

(** Both outcomes occur: a session with timeout 2000 ms is left at
    300 ms by a sweep that is answered and at 5000 ms by a peak search
    that is not. *)
Lemma hp_timeout_on_exit_witness :
  (completed (HP.get_spectrum osa "A"
                (fresh {| HP.timeout := 2000; HP.read_termination := "";
                          HP.write_termination := "" |}))
             (fresh {| HP.timeout := 2000; HP.read_termination := "";
                       HP.write_termination := "" |}) = 6%nat
   /\ HP.timeout
        (final (HP.get_spectrum osa "A"
                  (fresh {| HP.timeout := 2000; HP.read_termination := "";
                            HP.write_termination := "" |}))) = 300%Z)
  /\ HP.timeout
       (final (HP.get_peak_info (N:=Q) mute ["HIP"; "NH"]
                 (fresh {| HP.timeout := 2000; HP.read_termination := "";
                           HP.write_termination := "" |}))) = 5000%Z.
Proof.
  split.
  - exact (proj1 (hp_timeout_on_exit osa
                    (fresh {| HP.timeout := 2000; HP.read_termination := "";
                              HP.write_termination := "" |})) "A").
  - exact (proj2 (hp_timeout_on_exit (N:=Q) mute
                    (fresh {| HP.timeout := 2000; HP.read_termination := "";
                              HP.write_termination := "" |})) ["HIP"; "NH"]).
Defined.

(* ================================================================== *)
(** * Binary64 arithmetic: rounding is monotone *)
(* ================================================================== *)

Section Binary64.
Local Open Scope Z_scope.

(** ** Dyadic values *)

Lemma bpow_pos (e : Z) : (0 < bpow e)%R.
Proof. unfold bpow. apply powerRZ_lt. lra. Qed.

Lemma bpow_add (a b : Z) : bpow (a + b) = (bpow a * bpow b)%R.
Proof. unfold bpow. apply powerRZ_add. lra. Qed.

Lemma bpow_0 : bpow 0 = 1%R.
Proof. reflexivity. Qed.

Lemma bpow_IZR (n : Z) : 0 <= n -> bpow n = IZR (2 ^ n).
Proof.
  intros Hn. unfold bpow. rewrite <- (Z2Nat.id n Hn) at 1.
  rewrite <- pow_powerRZ. rewrite pow_IZR. now rewrite Z2Nat.id.
Qed.

Lemma bpow_le (a b : Z) : a <= b -> (bpow a <= bpow b)%R.
Proof.
  intros H. replace b with (a + (b - a)) by lia.
  rewrite bpow_add, (bpow_IZR (b - a)) by lia.
  pose proof (bpow_pos a).
  assert (1 <= IZR (2 ^ (b - a)))%R.
  { apply IZR_le. pose proof (Z.pow_pos_nonneg 2 (b - a)). lia. }
  nra.
Qed.

Lemma bpow_lt (a b : Z) : a < b -> (bpow a < bpow b)%R.
Proof.
  intros H. replace b with (a + (b - a)) by lia.
  rewrite bpow_add, (bpow_IZR (b - a)) by lia.
  pose proof (bpow_pos a).
  assert (2 <= IZR (2 ^ (b - a)))%R.
  { apply IZR_le. replace (b - a) with (1 + (b - a - 1)) by lia.
    rewrite Z.pow_add_r by lia.
    pose proof (Z.pow_pos_nonneg 2 (b - a - 1)). lia. }
  nra.
Qed.

Lemma bpow_lt_inv (a b : Z) : (bpow a < bpow b)%R -> a < b.
Proof.
  intros H. destruct (Z_lt_le_dec a b) as [L | L]; [exact L |].
  apply bpow_le in L. lra.
Qed.

Lemma F2R_scale (m e k : Z) : 0 <= k -> F2R (m * 2 ^ k) (e - k) = F2R m e.
Proof.
  intros Hk. unfold F2R. rewrite mult_IZR, <- bpow_IZR by lia.
  replace e with ((e - k) + k) at 2 by lia. rewrite bpow_add. ring.
Qed.

(** ** Binary digits *)

Lemma digits2_pos_spec (m : positive) :
  2 ^ (Zpos (digits2_pos m) - 1) <= Zpos m < 2 ^ Zpos (digits2_pos m).
Proof.
  induction m as [m IH | m IH |]; cbn [digits2_pos].
  - rewrite Pos2Z.inj_succ.
    replace (Z.succ (Z.pos (digits2_pos m)) - 1) with (1 + (Z.pos (digits2_pos m) - 1)) by lia.
    unfold Z.succ. rewrite (Z.add_comm _ 1).
    rewrite !Z.pow_add_r by lia. change (2 ^ 1) with 2. lia.
  - rewrite Pos2Z.inj_succ.
    replace (Z.succ (Z.pos (digits2_pos m)) - 1) with (1 + (Z.pos (digits2_pos m) - 1)) by lia.
    unfold Z.succ. rewrite (Z.add_comm _ 1).
    rewrite !Z.pow_add_r by lia. change (2 ^ 1) with 2. lia.
  - cbn. lia.
Qed.

(** The number of binary digits of a positive integer is determined by
    the powers of two around it. *)
Lemma digits2_pos_unique (m : positive) (d : Z) :
  2 ^ (d - 1) <= Zpos m < 2 ^ d -> Zpos (digits2_pos m) = d.
Proof.
  intros [L U]. pose proof (digits2_pos_spec m) as [L' U'].
  assert (0 < d).
  { destruct (Z_lt_le_dec 0 d); [assumption |].
    destruct (Z.eq_dec d 0) as [-> | N]; [cbn in U; lia |].
    rewrite Z.pow_neg_r in U by lia. lia. }
  destruct (Z.lt_trichotomy (Zpos (digits2_pos m)) d) as [C | [C | C]];
    [| exact C |].
  - assert (2 ^ Zpos (digits2_pos m) <= 2 ^ (d - 1))
      by (apply Z.pow_le_mono_r; lia). lia.
  - assert (2 ^ d <= 2 ^ (Zpos (digits2_pos m) - 1))
      by (apply Z.pow_le_mono_r; lia). lia.
Qed.

(** ** Rounding to nearest, ties to even, on integers *)

Lemma rne_spec (m k q r : Z) :
  0 < k -> m = q * 2 ^ k + r -> 0 <= r < 2 ^ k ->
  rne m k = match 2 * r ?= 2 ^ k with
            | Lt => q
            | Gt => q + 1
            | Eq => if Z.even q then q else q + 1
            end.
Proof.
  intros Hk Hm Hr. unfold rne.
  destruct (Z.leb_spec k 0) as [L | _]; [lia |].
  assert (Hp : 0 < 2 ^ k) by (apply Z.pow_pos_nonneg; lia).
  assert (Hq : m / 2 ^ k = q).
  { symmetry. apply (Z.div_unique m (2 ^ k) q r); [lia | lia]. }
  assert (Hr' : m mod 2 ^ k = r).
  { symmetry. apply (Z.mod_unique m (2 ^ k) q r); [lia | lia]. }
  cbv zeta. now rewrite Hq, Hr'.
Qed.

Lemma rne_range (m k : Z) :
  0 < k -> 0 <= m -> m / 2 ^ k <= rne m k <= m / 2 ^ k + 1.
Proof.
  intros Hk Hm. unfold rne.
  destruct (Z.leb_spec k 0) as [L | _]; [lia |]. cbv zeta.
  destruct (2 * (m mod 2 ^ k) ?= 2 ^ k); [destruct (Z.even _) | |]; lia.
Qed.

Lemma rne_mono (m1 m2 k : Z) :
  0 <= m1 <= m2 -> rne m1 k <= rne m2 k.
Proof.
  intros [H1 H12]. unfold rne.
  destruct (Z.leb_spec k 0) as [L | L].
  { assert (0 <= 2 ^ (- k)) by (apply Z.pow_nonneg; lia). nia. }
  cbv zeta.
  assert (Hp : 0 < 2 ^ k) by (apply Z.pow_pos_nonneg; lia).
  pose proof (Z.div_mod m1 (2 ^ k) ltac:(lia)) as E1.
  pose proof (Z.div_mod m2 (2 ^ k) ltac:(lia)) as E2.
  pose proof (Z.mod_pos_bound m1 (2 ^ k) Hp) as B1.
  pose proof (Z.mod_pos_bound m2 (2 ^ k) Hp) as B2.
  assert (Hq : m1 / 2 ^ k <= m2 / 2 ^ k) by (apply Z.div_le_mono; lia).
  set (q1 := m1 / 2 ^ k) in *. set (q2 := m2 / 2 ^ k) in *.
  set (r1 := m1 mod 2 ^ k) in *. set (r2 := m2 mod 2 ^ k) in *.
  set (P := 2 ^ k) in *.
  destruct (Z.eq_dec q1 q2) as [Eq | Nq].
  - assert (r1 <= r2) by nia. rewrite <- Eq.
    destruct (Z.compare_spec (2 * r1) P), (Z.compare_spec (2 * r2) P);
      destruct (Z.even q1); lia.
  - assert (q1 + 1 <= q2) by lia.
    destruct (Z.compare_spec (2 * r1) P), (Z.compare_spec (2 * r2) P);
      destruct (Z.even q1), (Z.even q2); lia.
Qed.

Lemma rne_scale (m k j : Z) :
  0 <= m -> 0 <= j -> rne (m * 2 ^ j) (k + j) = rne m k.
Proof.
  intros Hm Hj.
  assert (Pj : 0 < 2 ^ j) by (apply Z.pow_pos_nonneg; lia).
  destruct (Z_le_gt_dec k 0) as [L | L].
  - (* exact on the right *)
    unfold rne at 2. destruct (Z.leb_spec k 0) as [_ | C]; [| lia].
    destruct (Z_le_gt_dec (k + j) 0) as [L' | L'].
    + unfold rne. destruct (Z.leb_spec (k + j) 0) as [_ | C]; [| lia].
      replace (- k) with (j + - (k + j)) by lia.
      rewrite Z.pow_add_r by lia. ring.
    + assert (P : 0 < 2 ^ (k + j)) by (apply Z.pow_pos_nonneg; lia).
      assert (E : m * 2 ^ j = m * 2 ^ (- k) * 2 ^ (k + j) + 0).
      { replace j with (- k + (k + j)) at 1 by lia.
        rewrite Z.pow_add_r by lia. ring. }
      rewrite (rne_spec (m * 2 ^ j) (k + j) (m * 2 ^ (- k)) 0 ltac:(lia) E ltac:(lia)).
      destruct (Z.compare_spec (2 * 0) (2 ^ (k + j))); lia.
  - assert (Pk : 0 < 2 ^ k) by (apply Z.pow_pos_nonneg; lia).
    pose proof (Z.div_mod m (2 ^ k) ltac:(lia)) as E.
    pose proof (Z.mod_pos_bound m (2 ^ k) Pk) as B.
    assert (E1 : m * 2 ^ j = m / 2 ^ k * 2 ^ (k + j) + m mod 2 ^ k * 2 ^ j)
      by (rewrite Z.pow_add_r by lia; nia).
    assert (B1 : 0 <= m mod 2 ^ k * 2 ^ j < 2 ^ (k + j))
      by (rewrite Z.pow_add_r by lia; nia).
    rewrite (rne_spec (m * 2 ^ j) (k + j) (m / 2 ^ k) (m mod 2 ^ k * 2 ^ j)
                      ltac:(lia) E1 B1).
    rewrite (rne_spec m k (m / 2 ^ k) (m mod 2 ^ k) ltac:(lia) ltac:(lia) B).
    rewrite Z.pow_add_r by lia.
    destruct (Z.compare_spec (2 * (m mod 2 ^ k * 2 ^ j)) (2 ^ k * 2 ^ j)),
             (Z.compare_spec (2 * (m mod 2 ^ k)) (2 ^ k));
      try reflexivity; nia.
Qed.

(** The rounded mantissa keeps within the binade. *)
Lemma rne_bounds (m k d : Z) :
  0 <= k <= d - 1 -> 2 ^ (d - 1) <= m < 2 ^ d ->
  2 ^ (d - 1 - k) <= rne m k <= 2 ^ (d - k).
Proof.
  intros Hk [L U].
  destruct (Z.eq_dec k 0) as [-> | N].
  { unfold rne. cbn [Z.leb Z.compare Z.opp Z.pow]. rewrite !Z.sub_0_r. lia. }
  assert (Hm : 0 <= m).
  { assert (0 <= 2 ^ (d - 1)) by (apply Z.pow_nonneg; lia). lia. }
  pose proof (rne_range m k ltac:(lia) Hm) as [R1 R2].
  assert (Pk : 0 < 2 ^ k) by (apply Z.pow_pos_nonneg; lia).
  assert (Q1 : 2 ^ (d - 1 - k) <= m / 2 ^ k).
  { apply Z.div_le_lower_bound; [lia |].
    rewrite <- Z.pow_add_r by lia. now replace (k + (d - 1 - k)) with (d - 1) by lia. }
  assert (Q2 : m / 2 ^ k < 2 ^ (d - k)).
  { apply Z.div_lt_upper_bound; [lia |].
    rewrite <- Z.pow_add_r by lia. now replace (k + (d - k)) with d by lia. }
  lia.
Qed.

(** ** The shift with rounding bits of [SpecFloat] *)

Lemma shr_inv_0 (m : Z) :
  0 <= m -> shr_inv m 0 (shr_record_of_loc m loc_Exact).
Proof.
  intros Hm. exists 0. cbn. repeat split; try lia; try discriminate.
Qed.

Lemma shr_1_m (mrs : shr_record) :
  0 <= shr_m mrs ->
  shr_m (shr_1 mrs) = shr_m mrs / 2
  /\ shr_r (shr_1 mrs) = Z.odd (shr_m mrs)
  /\ shr_s (shr_1 mrs) = (shr_r mrs || shr_s mrs)%bool.
Proof.
  destruct mrs as [m r s]. cbn [shr_m shr_r shr_s]. intros Hm.
  destruct m as [| [p | p |] |]; cbn [shr_1 shr_m shr_r shr_s]; try lia.
  - repeat split.
  - split; [| split; reflexivity]. rewrite Pos2Z.inj_xI.
    apply (Z.div_unique _ 2 _ 1); lia.
  - split; [| split; reflexivity]. rewrite Pos2Z.inj_xO.
    apply (Z.div_unique _ 2 _ 0); lia.
  - repeat split.
Qed.

Lemma shr_inv_step (m k : Z) (mrs : shr_record) :
  0 <= k -> shr_inv m k mrs -> shr_inv m (k + 1) (shr_1 mrs).
Proof.
  intros Hk (r & Em & Hr & Hq & Hrb & Hst).
  destruct (shr_1_m mrs Hq) as (Eq & Er & Es).
  assert (Pk : 0 < 2 ^ k) by (apply Z.pow_pos_nonneg; lia).
  unfold shr_inv. rewrite Z.pow_add_r by lia. change (2 ^ 1) with 2.
  pose proof (Z.div_mod (shr_m mrs) 2 ltac:(lia)) as D.
  pose proof (Z.mod_pos_bound (shr_m mrs) 2 ltac:(lia)) as B.
  rewrite Zodd_mod in Er.
  exists (r + (shr_m mrs mod 2) * 2 ^ k).
  rewrite Eq, Er, Es.
  set (b := shr_m mrs mod 2) in *. set (P := 2 ^ k) in *.
  assert (Hb : b = 0 \/ b = 1) by lia.
  split; [nia |]. split; [nia |].
  split; [apply Z.div_pos; lia |].
  split.
  - destruct Hb as [-> | ->]; cbn [Z.eqb]; split; try discriminate; try reflexivity; lia.
  - rewrite orb_true_iff, Hrb, Hst.
    destruct Hb as [-> | ->]; lia.
Qed.

Lemma iter_pos_inv {A : Type} (f : A -> A) (P : Z -> A -> Prop) :
  (forall k x, 0 <= k -> P k x -> P (k + 1) (f x)) ->
  forall p k x, 0 <= k -> P k x -> P (k + Zpos p) (iter_pos f p x).
Proof.
  intros Hs. induction p as [p IH | p IH |]; intros k x Hk Hx; cbn [iter_pos].
  - replace (k + Z.pos p~1) with (k + 1 + Zpos p + Zpos p) by lia.
    apply IH; [lia |]. apply IH; [lia |]. now apply Hs.
  - replace (k + Z.pos p~0) with (k + Zpos p + Zpos p) by lia.
    apply IH; [lia |]. now apply IH.
  - now apply Hs.
Qed.

Lemma shr_inv_iter (m : Z) (p : positive) :
  0 <= m ->
  shr_inv m (Zpos p) (iter_pos shr_1 p (shr_record_of_loc m loc_Exact)).
Proof.
  intros Hm. change (Zpos p) with (0 + Zpos p).
  apply (iter_pos_inv shr_1 (shr_inv m)); [| lia | now apply shr_inv_0].
  intros k x Hk. now apply shr_inv_step.
Qed.

Lemma round_shr_inv (m k : Z) (mrs : shr_record) :
  0 < k -> shr_inv m k mrs ->
  round_nearest_even (shr_m mrs) (loc_of_shr_record mrs) = rne m k.
Proof.
  intros Hk (r & Em & Hr & Hq & Hrb & Hst).
  rewrite (rne_spec m k (shr_m mrs) r Hk Em Hr).
  destruct mrs as [q rb st]. cbn [shr_m shr_r shr_s] in *.
  destruct rb, st; cbn [loc_of_shr_record round_nearest_even].
  - pose proof (proj1 Hrb eq_refl). pose proof (proj1 Hst eq_refl).
    destruct (Z.compare_spec (2 * r) (2 ^ k)); lia.
  - pose proof (proj1 Hrb eq_refl).
    destruct (Z.compare_spec (2 * r) (2 ^ k)); [reflexivity | lia |].
    assert (false = true) by (apply Hst; lia). discriminate.
  - pose proof (proj1 Hst eq_refl).
    destruct (Z.compare_spec (2 * r) (2 ^ k)); [lia | reflexivity |].
    assert (false = true) by (apply Hrb; lia). discriminate.
  - destruct (Z.compare_spec (2 * r) (2 ^ k)); [| reflexivity |].
    + assert (false = true) by (apply Hrb; lia). discriminate.
    + assert (false = true) by (apply Hrb; lia). discriminate.
Qed.

(** ** The value of a binary64 number *)

Lemma fexp_eq (x : Z) : fexp prec emax x = Z.max (x - 53) (-1074).
Proof. reflexivity. Qed.

Lemma bounded_spec (m : positive) (e : Z) :
  bounded prec emax m e = true ->
  Z.max (Zpos (digits2_pos m) + e - 53) (-1074) = e /\ e <= 971.
Proof.
  unfold bounded, canonical_mantissa. rewrite andb_true_iff, fexp_eq.
  intros [H1 H2]. apply Z.eqb_eq in H1. apply Z.leb_le in H2.
  change (emax - prec) with 971 in H2. lia.
Qed.

Lemma F2R_pos (m : positive) (e : Z) : (0 < F2R (Zpos m) e)%R.
Proof.
  unfold F2R. pose proof (bpow_pos e).
  assert (1 <= IZR (Zpos m))%R by (apply IZR_le; lia). nra.
Qed.

Lemma F2R_digits (m : positive) (e : Z) :
  (bpow (Zpos (digits2_pos m) + e - 1) <= F2R (Zpos m) e
   < bpow (Zpos (digits2_pos m) + e))%R.
Proof.
  pose proof (digits2_pos_spec m) as [L U].
  set (d := Zpos (digits2_pos m)) in *.
  assert (Hd : 1 <= d) by (unfold d; lia).
  replace (d + e - 1) with ((d - 1) + e) by lia.
  rewrite !bpow_add, (bpow_IZR (d - 1)), (bpow_IZR d) by lia. unfold F2R.
  pose proof (bpow_pos e). apply IZR_le in L. apply IZR_lt in U.
  generalize dependent (IZR (2 ^ (d - 1))). generalize dependent (IZR (2 ^ d)).
  generalize dependent (IZR (Zpos m)). intros. split; nra.
Qed.

Lemma bounded_lt_emax (m : positive) (e : Z) :
  bounded prec emax m e = true -> (F2R (Zpos m) e < bpow emax)%R.
Proof.
  intros H. apply bounded_spec in H as [H1 H2].
  pose proof (F2R_digits m e) as [_ U].
  eapply Rlt_le_trans; [exact U |]. apply bpow_le. change emax with 1024. lia.
Qed.

Lemma F2R_le_same (m1 m2 e : Z) : (F2R m1 e <= F2R m2 e)%R <-> m1 <= m2.
Proof.
  unfold F2R. pose proof (bpow_pos e). split; intros L.
  - apply le_IZR. nra.
  - apply IZR_le in L. nra.
Qed.

Lemma F2R_lt_same (m1 m2 e : Z) : (F2R m1 e < F2R m2 e)%R <-> m1 < m2.
Proof.
  unfold F2R. pose proof (bpow_pos e). split; intros L.
  - apply lt_IZR. nra.
  - apply IZR_lt in L. nra.
Qed.

(** Among valid numbers the one with the smaller exponent is the
    smaller. *)
Lemma bounded_exp_lt (m1 m2 : positive) (e1 e2 : Z) :
  bounded prec emax m1 e1 = true -> bounded prec emax m2 e2 = true ->
  e1 < e2 -> (F2R (Zpos m1) e1 < F2R (Zpos m2) e2)%R.
Proof.
  intros B1 B2 L. apply bounded_spec in B1 as [C1 _].
  apply bounded_spec in B2 as [C2 _].
  pose proof (F2R_digits m1 e1) as [_ U].
  pose proof (F2R_digits m2 e2) as [Lo _].
  eapply Rlt_le_trans; [exact U |]. eapply Rle_trans; [| exact Lo].
  apply bpow_le. lia.
Qed.

Lemma SFcompare_spec (x y : spec_float) :
  valid_binary x = true -> valid_binary y = true ->
  SFis_nan x = false -> SFis_nan y = false ->
  SFcmp x y (SFcompare x y).
Proof.
  pose proof (bpow_pos emax) as Pe.
  destruct x as [sx | sx | | sx mx ex], y as [sy | sy | | sy my ey];
    cbn [valid_binary SFis_nan SFcompare SF2R]; intros Vx Vy Nx Ny;
    try discriminate.
  - now constructor.
  - destruct sy; constructor; cbn [SF2R]; lra.
  - pose proof (F2R_pos my ey). destruct sy; constructor; cbn [SF2R]; lra.
  - destruct sx; constructor; cbn [SF2R]; lra.
  - destruct sx, sy; constructor; cbn [SF2R]; lra.
  - pose proof (F2R_pos my ey). pose proof (bounded_lt_emax my ey Vy).
    destruct sx, sy; constructor; cbn [SF2R]; lra.
  - pose proof (F2R_pos mx ex). destruct sx; constructor; cbn [SF2R]; lra.
  - pose proof (F2R_pos mx ex). pose proof (bounded_lt_emax mx ex Vx).
    destruct sx, sy; constructor; cbn [SF2R]; lra.
  - pose proof (F2R_pos mx ex). pose proof (F2R_pos my ey).
    destruct sx, sy; try (constructor; cbn [SF2R]; lra).
    + destruct (Z.compare_spec ex ey) as [E | L | L].
      * subst ey. change (Pos.compare_cont Eq mx my) with (Pos.compare mx my).
        destruct (Pos.compare_spec mx my) as [E | L | L]; cbn [CompOpp].
        -- subst. now constructor.
        -- constructor; cbn [SF2R]. apply Ropp_lt_contravar. apply F2R_lt_same. lia.
        -- constructor; cbn [SF2R]. apply Ropp_lt_contravar. apply F2R_lt_same. lia.
      * constructor; cbn [SF2R]. pose proof (bounded_exp_lt _ _ _ _ Vx Vy L). lra.
      * constructor; cbn [SF2R]. pose proof (bounded_exp_lt _ _ _ _ Vy Vx L). lra.
    + destruct (Z.compare_spec ex ey) as [E | L | L].
      * subst ey. change (Pos.compare_cont Eq mx my) with (Pos.compare mx my).
        destruct (Pos.compare_spec mx my) as [E | L | L].
        -- subst. now constructor.
        -- constructor; cbn [SF2R]. apply F2R_lt_same. lia.
        -- constructor; cbn [SF2R]. apply F2R_lt_same. lia.
      * constructor; cbn [SF2R]. apply (bounded_exp_lt _ _ _ _ Vx Vy L).
      * constructor; cbn [SF2R]. apply (bounded_exp_lt _ _ _ _ Vy Vx L).
Qed.

Lemma SFleb_spec (x y : spec_float) :
  valid_binary x = true -> valid_binary y = true ->
  SFis_nan x = false -> SFis_nan y = false ->
  (SFleb x y = true <-> (SF2R x <= SF2R y)%R).
Proof.
  intros Vx Vy Nx Ny. unfold SFleb.
  destruct (SFcompare_spec x y Vx Vy Nx Ny); split; intros; try reflexivity;
    try discriminate; lra.
Qed.

Lemma SFltb_spec (x y : spec_float) :
  valid_binary x = true -> valid_binary y = true ->
  SFis_nan x = false -> SFis_nan y = false ->
  (SFltb x y = true <-> (SF2R x < SF2R y)%R).
Proof.
  intros Vx Vy Nx Ny. unfold SFltb.
  destruct (SFcompare_spec x y Vx Vy Nx Ny); split; intros; try reflexivity;
    try discriminate; lra.
Qed.

Lemma SFleb_nan (x y : spec_float) :
  SFleb x y = true -> SFis_nan x = false /\ SFis_nan y = false.
Proof. destruct x, y; cbn; try discriminate; auto. Qed.

(** ** Rounding a dyadic number to binary64 *)

Lemma cexp_pos (m : positive) (e : Z) :
  cexp (Zpos m) e = Z.max (Zpos (digits2_pos m) + e - 53) (-1074).
Proof. reflexivity. Qed.

Lemma rne_0 (m : Z) : rne m 0 = m.
Proof. unfold rne. cbn. lia. Qed.

Lemma shr_nonpos (mrs : shr_record) (e n : Z) :
  n <= 0 -> shr mrs e n = (mrs, e).
Proof. destruct n; [reflexivity | lia | reflexivity]. Qed.

(** The first shift and the rounding of [binary_round_aux]. *)
Lemma shr_fexp_round (m e : Z) :
  0 < m -> e <= cexp m e ->
  forall mrs e', shr_fexp prec emax m e loc_Exact = (mrs, e') ->
  e' = cexp m e
  /\ round_nearest_even (shr_m mrs) (loc_of_shr_record mrs)
     = rne m (cexp m e - e).
Proof.
  intros Hm Hn mrs e'. unfold shr_fexp. fold (cexp m e).
  destruct (cexp m e - e) as [| p | p] eqn:En; try lia.
  - cbn [shr]. intros [= <- <-]. split; [lia |].
    destruct m; try lia. cbn. now rewrite Pos.mul_1_r.
  - cbn [shr]. intros [= <- <-]. split; [lia |].
    apply round_shr_inv; [lia |]. apply shr_inv_iter. lia.
Qed.

Lemma rne_le_pow (m : positive) (e : Z) :
  e <= cexp (Zpos m) e ->
  0 <= rne (Zpos m) (cexp (Zpos m) e - e) <= 2 ^ 53.
Proof.
  intros Hn. rewrite cexp_pos in *.
  pose proof (digits2_pos_spec m) as [L U].
  set (d := Zpos (digits2_pos m)) in *.
  set (n := Z.max (d + e - 53) (-1074) - e).
  assert (Hd : 1 <= d) by (unfold d; lia).
  assert (H0 : 0 <= n) by (unfold n; lia).
  destruct (Z_le_gt_dec n (d - 1)) as [C | C].
  - pose proof (rne_bounds (Zpos m) n d ltac:(lia) (conj L U)) as [B1 B2].
    assert (0 <= 2 ^ (d - 1 - n)) by (apply Z.pow_nonneg; lia).
    assert (2 ^ (d - n) <= 2 ^ 53) by (apply Z.pow_le_mono_r; unfold n; lia).
    lia.
  - pose proof (rne_range (Zpos m) n ltac:(lia) ltac:(lia)) as [R1 R2].
    assert (2 ^ d <= 2 ^ n) by (apply Z.pow_le_mono_r; lia).
    rewrite Z.div_small in R1, R2 by lia. lia.
Qed.

Lemma digits_le_53 (m : positive) :
  Zpos m < 2 ^ 53 -> Zpos (digits2_pos m) <= 53.
Proof.
  intros H. pose proof (digits2_pos_spec m) as [L _].
  destruct (Z_le_gt_dec (Zpos (digits2_pos m)) 53) as [C | C]; [exact C |].
  assert (2 ^ 53 <= 2 ^ (Zpos (digits2_pos m) - 1))
    by (apply Z.pow_le_mono_r; lia). lia.
Qed.

(** The second shift of [binary_round_aux]: it moves only a mantissa
    that the rounding has carried to [2^53]. *)
Lemma shr_fexp_carry (m1 E : Z) :
  0 <= m1 <= 2 ^ 53 -> -1074 <= E ->
  forall mrs e'', shr_fexp prec emax m1 E loc_Exact = (mrs, e'') ->
  F2R (shr_m mrs) e'' = F2R m1 E
  /\ 0 <= shr_m mrs < 2 ^ 53
  /\ (e'' = E /\ shr_m mrs = m1 \/ e'' = E + 1 /\ m1 = 2 ^ 53).
Proof.
  intros [H0 H1] HE mrs e''. unfold shr_fexp.
  destruct (Z.eq_dec m1 (2 ^ 53)) as [-> | N].
  - replace (Zdigits2 (2 ^ 53)) with 54 by (vm_compute; reflexivity).
    rewrite fexp_eq.
    assert (X : Z.max (54 + E - 53) (-1074) - E = 1) by lia. rewrite X.
    cbn [shr shr_record_of_loc iter_pos]. intros [= <- <-].
    replace (2 ^ 53) with (Zpos (xO 4503599627370496)) by (vm_compute; reflexivity).
    cbn [shr_1 shr_m].
    split; [| split; [lia | right; auto]].
    unfold F2R. rewrite bpow_add.
    replace (bpow 1) with 2%R by (unfold bpow; now rewrite powerRZ_1).
    replace (Z.pos 4503599627370496~0) with (2 * 4503599627370496) by lia.
    rewrite mult_IZR. ring.
  - assert (Hn : fexp prec emax (Zdigits2 m1 + E) - E <= 0).
    { rewrite fexp_eq. destruct m1 as [| p | p]; try lia.
      - cbn [Zdigits2]. lia.
      - cbn [Zdigits2]. pose proof (digits_le_53 p ltac:(lia)). lia. }
    rewrite shr_nonpos by exact Hn. intros [= <- <-].
    cbn [shr_record_of_loc shr_m]. split; [reflexivity |]. split; [lia | auto].
Qed.

(** The result of [binary_round_aux] on an exact positive mantissa:
    never a NaN, and its value is the rounded value, or the infinity
    when that is out of range. *)
Lemma binary_round_aux_spec (s : bool) (m : positive) (e : Z) :
  e <= cexp (Zpos m) e ->
  SFis_nan (binary_round_aux prec emax s (Zpos m) e loc_Exact) = false
  /\ SF2R (binary_round_aux prec emax s (Zpos m) e loc_Exact)
     = sgn s (Rmin (rv (Zpos m) e) (bpow emax)).
Proof.
  intros Hn. unfold binary_round_aux.
  destruct (shr_fexp prec emax (Zpos m) e loc_Exact) as [mrs' e'] eqn:S1.
  destruct (shr_fexp_round (Zpos m) e ltac:(lia) Hn mrs' e' S1) as [-> ->].
  pose proof (rne_le_pow m e Hn) as Hm1.
  set (E := cexp (Zpos m) e) in *. set (m1 := rne (Zpos m) (E - e)) in *.
  assert (HE : -1074 <= E) by (unfold E; rewrite cexp_pos; lia).
  destruct (shr_fexp prec emax m1 E loc_Exact) as [mrs'' e''] eqn:S2.
  destruct (shr_fexp_carry m1 E Hm1 HE mrs'' e'' S2) as (Hv & Hb & Hc).
  assert (Hrv : rv (Zpos m) e = F2R (shr_m mrs'') e'')
    by (unfold rv; fold E; fold m1; now rewrite Hv).
  rewrite Hrv. clear Hrv.
  pose proof (bpow_pos emax) as Pe.
  destruct (shr_m mrs'') as [| p | p] eqn:Em; try lia.
  - split; [reflexivity |]. cbn [SF2R]. unfold F2R. rewrite Rmult_0_l.
    rewrite Rmin_left by lra. destruct s; cbn [sgn]; lra.
  - change (emax - prec) with 971.
    destruct (Z.leb_spec e'' 971) as [Le | Le].
    + split; [reflexivity |]. cbn [SF2R].
      assert (F2R (Zpos p) e'' < bpow emax)%R.
      { unfold F2R. apply Rlt_le_trans with (IZR (2 ^ 53) * bpow e'')%R.
        - pose proof (bpow_pos e''). assert (IZR (Zpos p) < IZR (2 ^ 53))%R
            by (apply IZR_lt; lia). nra.
        - rewrite <- bpow_IZR, <- bpow_add by lia. apply bpow_le.
          change emax with 1024. lia. }
      rewrite Rmin_left by lra. now destruct s.
    + split; [reflexivity |]. cbn [SF2R].
      assert (bpow emax <= F2R (Zpos p) e'')%R.
      { destruct Hc as [[-> Ep] | [-> Ep]].
        - (* no carry: the mantissa is normal *)
          unfold E in Le. rewrite cexp_pos in Le.
          pose proof (digits2_pos_spec m) as Dm.
          set (d := Zpos (digits2_pos m)) in *.
          assert (En : E - e = d - 53) by (unfold E; rewrite cexp_pos; fold d; lia).
          pose proof (rne_bounds (Zpos m) (E - e) d ltac:(unfold d in *; lia) Dm)
            as [B1 _].
          fold m1 in B1. rewrite En in B1.
          replace (d - 1 - (d - 53)) with 52 in B1 by lia.
          unfold F2R. apply Rle_trans with (IZR (2 ^ 52) * bpow E)%R.
          + rewrite <- bpow_IZR, <- bpow_add by lia. apply bpow_le.
            change emax with 1024. unfold E. rewrite cexp_pos. fold d. lia.
          + pose proof (bpow_pos E). assert (IZR (2 ^ 52) <= IZR (Zpos p))%R
              by (apply IZR_le; lia). nra.
        - rewrite Hv, Ep. unfold F2R.
          rewrite <- bpow_IZR, <- bpow_add by lia. apply bpow_le.
          change emax with 1024. lia. }
      rewrite Rmin_right by lra. now destruct s.
Qed.

(** ** Rounding is monotone *)

Lemma rv_exact (m : positive) (e : Z) :
  cexp (Zpos m) e <= e -> rv (Zpos m) e = F2R (Zpos m) e.
Proof.
  intros H. unfold rv.
  set (E := cexp (Zpos m) e) in *.
  unfold rne. destruct (Z.leb_spec (E - e) 0) as [_ | C]; [| lia].
  replace E with (e - - (E - e)) at 2 by lia.
  apply F2R_scale. lia.
Qed.

(** The rounded value stays in the closed binade of the value. *)
Lemma rv_upper (m : positive) (e : Z) :
  (rv (Zpos m) e
   <= bpow (Z.max (Zpos (digits2_pos m) + e) (cexp (Zpos m) e)))%R.
Proof.
  destruct (Z_le_gt_dec (cexp (Zpos m) e) e) as [C | C].
  - rewrite rv_exact by exact C. pose proof (F2R_digits m e) as [_ U].
    eapply Rle_trans; [apply Rlt_le, U |]. apply bpow_le. lia.
  - unfold rv. set (E := cexp (Zpos m) e) in *.
    pose proof (digits2_pos_spec m) as Dm.
    set (d := Zpos (digits2_pos m)) in *.
    assert (Hd : 1 <= d) by (unfold d; lia).
    destruct (Z_le_gt_dec (E - e) (d - 1)) as [K | K].
    + pose proof (rne_bounds (Zpos m) (E - e) d ltac:(lia) Dm) as [_ B].
      unfold F2R. apply Rle_trans with (IZR (2 ^ (d - (E - e))) * bpow E)%R.
      * pose proof (bpow_pos E). apply IZR_le in B.
        generalize dependent (IZR (2 ^ (d - (E - e)))).
        generalize dependent (IZR (rne (Zpos m) (E - e))). intros. nra.
      * rewrite <- bpow_IZR, <- bpow_add by lia. apply bpow_le. lia.
    + pose proof (rne_range (Zpos m) (E - e) ltac:(lia) ltac:(lia)) as [_ B].
      assert (2 ^ d <= 2 ^ (E - e)) by (apply Z.pow_le_mono_r; lia).
      rewrite Z.div_small, Z.add_0_l in B by lia.
      unfold F2R. apply Rle_trans with (1 * bpow E)%R.
      * pose proof (bpow_pos E). apply IZR_le in B.
        generalize dependent (IZR (rne (Zpos m) (E - e))). intros. nra.
      * rewrite Rmult_1_l. apply bpow_le. lia.
Qed.

Lemma rv_lower (m : positive) (e : Z) :
  -1074 < cexp (Zpos m) e ->
  (bpow (Zpos (digits2_pos m) + e - 1) <= rv (Zpos m) e)%R.
Proof.
  intros HE.
  destruct (Z_le_gt_dec (cexp (Zpos m) e) e) as [C | C].
  - rewrite rv_exact by exact C. apply F2R_digits.
  - unfold rv. set (E := cexp (Zpos m) e) in *.
    pose proof (digits2_pos_spec m) as Dm.
    unfold E in HE, C. rewrite cexp_pos in HE, C.
    assert (EE : E = Zpos (digits2_pos m) + e - 53)
      by (unfold E; rewrite cexp_pos; lia).
    set (d := Zpos (digits2_pos m)) in *.
    pose proof (rne_bounds (Zpos m) (E - e) d ltac:(lia) Dm) as [B _].
    unfold F2R. apply Rle_trans with (IZR (2 ^ (d - 1 - (E - e))) * bpow E)%R.
    + rewrite <- bpow_IZR, <- bpow_add by lia. apply bpow_le. lia.
    + pose proof (bpow_pos E). apply IZR_le in B.
      generalize dependent (IZR (2 ^ (d - 1 - (E - e)))).
      generalize dependent (IZR (rne (Zpos m) (E - e))). intros. nra.
Qed.

Lemma rv_nonneg (m : positive) (e : Z) : (0 <= rv (Zpos m) e)%R.
Proof.
  unfold rv. unfold F2R. pose proof (bpow_pos (cexp (Zpos m) e)).
  assert (0 <= rne (Zpos m) (cexp (Zpos m) e - e)).
  { destruct (Z_le_gt_dec (cexp (Zpos m) e - e) 0) as [C | C].
    - unfold rne. destruct (Z.leb_spec (cexp (Zpos m) e - e) 0); [| lia].
      assert (0 <= 2 ^ (- (cexp (Zpos m) e - e))) by (apply Z.pow_nonneg; lia).
      lia.
    - pose proof (rne_range (Zpos m) (cexp (Zpos m) e - e) ltac:(lia) ltac:(lia))
        as [B _].
      assert (0 <= Zpos m / 2 ^ (cexp (Zpos m) e - e))
        by (apply Z.div_pos; [lia | apply Z.pow_pos_nonneg; lia]).
      lia. }
  apply IZR_le in H0.
  generalize dependent (IZR (rne (Zpos m) (cexp (Zpos m) e - e))). intros. nra.
Qed.

Lemma digits_exp_le (m1 m2 : positive) (e1 e2 : Z) :
  (F2R (Zpos m1) e1 <= F2R (Zpos m2) e2)%R ->
  Zpos (digits2_pos m1) + e1 <= Zpos (digits2_pos m2) + e2.
Proof.
  intros H. pose proof (F2R_digits m1 e1) as [L _].
  pose proof (F2R_digits m2 e2) as [_ U].
  assert (B : (bpow (Zpos (digits2_pos m1) + e1 - 1)
               < bpow (Zpos (digits2_pos m2) + e2))%R) by lra.
  apply bpow_lt_inv in B. lia.
Qed.

Theorem rv_mono (m1 m2 : positive) (e1 e2 : Z) :
  (F2R (Zpos m1) e1 <= F2R (Zpos m2) e2)%R ->
  (rv (Zpos m1) e1 <= rv (Zpos m2) e2)%R.
Proof.
  intros H. pose proof (digits_exp_le _ _ _ _ H) as Hd.
  destruct (Z.eq_dec (cexp (Zpos m1) e1) (cexp (Zpos m2) e2)) as [E | N].
  - (* the same grid *)
    unfold rv. rewrite <- E. set (G := cexp (Zpos m1) e1) in *.
    apply F2R_le_same.
    set (e0 := Z.min e1 e2).
    rewrite <- (rne_scale (Zpos m1) (G - e1) (e1 - e0)) by (unfold e0; lia).
    rewrite <- (rne_scale (Zpos m2) (G - e2) (e2 - e0)) by (unfold e0; lia).
    replace (G - e1 + (e1 - e0)) with (G - e0) by lia.
    replace (G - e2 + (e2 - e0)) with (G - e0) by lia.
    apply rne_mono. split.
    + assert (0 <= 2 ^ (e1 - e0)) by (apply Z.pow_nonneg; unfold e0; lia). lia.
    + apply (F2R_le_same _ _ e0).
      rewrite <- (F2R_scale (Zpos m1) e1 (e1 - e0)) in H by (unfold e0; lia).
      rewrite <- (F2R_scale (Zpos m2) e2 (e2 - e0)) in H by (unfold e0; lia).
      replace (e1 - (e1 - e0)) with e0 in H by lia.
      replace (e2 - (e2 - e0)) with e0 in H by lia. exact H.
  - (* a coarser grid on the right *)
    assert (L : cexp (Zpos m1) e1 < cexp (Zpos m2) e2)
      by (rewrite !cexp_pos in *; lia).
    eapply Rle_trans; [apply rv_upper |].
    eapply Rle_trans; [| apply rv_lower; rewrite !cexp_pos in *; lia].
    apply bpow_le. rewrite !cexp_pos in *. lia.
Qed.

Lemma rv_value (m1 m2 : positive) (e1 e2 : Z) :
  F2R (Zpos m1) e1 = F2R (Zpos m2) e2 -> rv (Zpos m1) e1 = rv (Zpos m2) e2.
Proof.
  intros H. apply Rle_antisym; apply rv_mono; rewrite H; apply Rle_refl.
Qed.

Lemma rnd_pos_nonneg (m : positive) (e : Z) :
  (0 <= Rmin (rv (Zpos m) e) (bpow emax))%R.
Proof.
  apply Rmin_glb; [apply rv_nonneg | apply Rlt_le, bpow_pos].
Qed.

Lemma F2R_neg (m : positive) (e : Z) : F2R (Zneg m) e = (- F2R (Zpos m) e)%R.
Proof.
  unfold F2R. change (Zneg m) with (- Zpos m). rewrite opp_IZR. ring.
Qed.

Lemma F2R_0 (e : Z) : F2R 0 e = 0%R.
Proof. unfold F2R. ring. Qed.

Theorem rnd_mono (z1 z2 e1 e2 : Z) :
  (F2R z1 e1 <= F2R z2 e2)%R -> (rnd z1 e1 <= rnd z2 e2)%R.
Proof.
  intros H.
  destruct z1 as [| m1 | m1], z2 as [| m2 | m2]; cbn [rnd];
    rewrite ?F2R_neg, ?F2R_0 in H;
    try pose proof (F2R_pos m1 e1); try pose proof (F2R_pos m2 e2);
    try pose proof (rnd_pos_nonneg m1 e1); try pose proof (rnd_pos_nonneg m2 e2);
    try lra.
  - pose proof (rv_mono m1 m2 e1 e2 H).
    apply Rle_min_compat_r. exact H4.
  - assert (H' : (F2R (Zpos m2) e2 <= F2R (Zpos m1) e1)%R) by lra.
    pose proof (rv_mono m2 m1 e2 e1 H').
    apply Ropp_le_contravar. apply Rle_min_compat_r. assumption.
Qed.

Lemma rnd_value (z1 z2 e1 e2 : Z) :
  F2R z1 e1 = F2R z2 e2 -> rnd z1 e1 = rnd z2 e2.
Proof.
  intros H. apply Rle_antisym; apply rnd_mono; rewrite H; apply Rle_refl.
Qed.

Lemma rnd_range (z e : Z) : (- bpow emax <= rnd z e <= bpow emax)%R.
Proof.
  pose proof (bpow_pos emax).
  destruct z as [| m | m]; cbn [rnd]; [lra | |].
  - pose proof (rnd_pos_nonneg m e). pose proof (Rmin_r (rv (Zpos m) e) (bpow emax)).
    lra.
  - pose proof (rnd_pos_nonneg m e). pose proof (Rmin_r (rv (Zpos m) e) (bpow emax)).
    lra.
Qed.

Lemma RND_mono (v1 v2 r1 r2 : R) :
  RND v1 r1 -> RND v2 r2 -> (v1 <= v2)%R -> (r1 <= r2)%R.
Proof.
  intros (z1 & e1 & <- & ->) (z2 & e2 & <- & ->). apply rnd_mono.
Qed.

Lemma RND_fun (v r1 r2 : R) : RND v r1 -> RND v r2 -> r1 = r2.
Proof.
  intros H1 H2. apply Rle_antisym; eapply RND_mono; eauto; apply Rle_refl.
Qed.

Lemma RND_0 : RND 0 0.
Proof. exists 0, 0. split; [apply F2R_0 | reflexivity]. Qed.

Lemma RND_range (v r : R) : RND v r -> (- bpow emax <= r <= bpow emax)%R.
Proof. intros (z & e & _ & ->). apply rnd_range. Qed.

(** A valid finite number is its own rounding. *)
Lemma RND_bounded (s : bool) (m : positive) (e : Z) :
  bounded prec emax m e = true ->
  RND (sgn s (F2R (Zpos m) e)) (sgn s (F2R (Zpos m) e)).
Proof.
  intros B. pose proof (bounded_lt_emax m e B) as U.
  apply bounded_spec in B as [C _].
  assert (X : Rmin (rv (Zpos m) e) (bpow emax) = F2R (Zpos m) e).
  { rewrite rv_exact by (rewrite cexp_pos; lia). apply Rmin_left. lra. }
  destruct s; cbn [sgn].
  - exists (Zneg m), e. split; [apply F2R_neg |]. cbn [rnd]. now rewrite X.
  - exists (Zpos m), e. split; [reflexivity |]. cbn [rnd]. now rewrite X.
Qed.

(** ** The operations of [SpecFloat] *)

Lemma iter_xO (m d : positive) :
  Zpos (Pos.iter xO m d) = Zpos m * 2 ^ Zpos d.
Proof.
  induction d as [| d IH] using Pos.peano_ind.
  - cbn [Pos.iter]. lia.
  - rewrite Pos.iter_succ, Pos2Z.inj_xO, IH, Pos2Z.inj_succ.
    rewrite Z.pow_succ_r by lia. ring.
Qed.

Lemma shl_align_spec (mx : positive) (ex ex' : Z) :
  (ex' < ex
   /\ shl_align mx ex ex' = (Pos.iter xO mx (Z.to_pos (ex - ex')), ex')
   /\ Zpos (Pos.iter xO mx (Z.to_pos (ex - ex'))) = Zpos mx * 2 ^ (ex - ex'))
  \/ (ex <= ex' /\ shl_align mx ex ex' = (mx, ex)).
Proof.
  unfold shl_align. destruct (ex' - ex) as [| d | d] eqn:E.
  - right. split; [lia | reflexivity].
  - right. split; [lia | reflexivity].
  - left. assert (X : ex - ex' = Zpos d) by lia. rewrite X. cbn [Z.to_pos].
    split; [lia |]. split; [reflexivity | apply iter_xO].
Qed.

Lemma shl_align_F2R (mx : positive) (ex ex' : Z) :
  F2R (Zpos (fst (shl_align mx ex ex'))) (snd (shl_align mx ex ex'))
  = F2R (Zpos mx) ex.
Proof.
  destruct (shl_align_spec mx ex ex') as [(L & -> & E) | (L & ->)];
    cbn [fst snd]; [| reflexivity].
  rewrite E. replace ex' with (ex - (ex - ex')) at 2 by lia.
  apply F2R_scale. lia.
Qed.

Lemma shl_align_exp (mx : positive) (ex ex' : Z) :
  snd (shl_align mx ex ex') = Z.min ex ex'.
Proof.
  destruct (shl_align_spec mx ex ex') as [(L & -> & E) | (L & ->)];
    cbn [fst snd]; lia.
Qed.

Lemma digits_shift (m : positive) (k : Z) (p : positive) :
  0 <= k -> Zpos p = Zpos m * 2 ^ k ->
  Zpos (digits2_pos p) = Zpos (digits2_pos m) + k.
Proof.
  intros Hk E. apply digits2_pos_unique. rewrite E.
  pose proof (digits2_pos_spec m) as [L U].
  assert (Hd : 1 <= Zpos (digits2_pos m)) by lia.
  replace (Zpos (digits2_pos m) + k - 1) with ((Zpos (digits2_pos m) - 1) + k) by lia.
  rewrite !Z.pow_add_r by lia.
  assert (0 < 2 ^ k) by (apply Z.pow_pos_nonneg; lia). nia.
Qed.

Lemma binary_round_spec (s : bool) (m : positive) (e : Z) :
  SFis_nan (binary_round prec emax s m e) = false
  /\ SF2R (binary_round prec emax s m e)
     = sgn s (Rmin (rv (Zpos m) e) (bpow emax)).
Proof.
  unfold binary_round.
  pose proof (shl_align_F2R m e (fexp prec emax (Zpos (digits2_pos m) + e))) as V.
  destruct (shl_align_spec m e (fexp prec emax (Zpos (digits2_pos m) + e)))
    as [(L & E & Em) | (L & E)]; rewrite E in *; cbn [fst snd] in V.
  - set (m' := Pos.iter xO m (Z.to_pos (e - fexp prec emax (Zpos (digits2_pos m) + e)))) in *.
    set (G := fexp prec emax (Zpos (digits2_pos m) + e)) in *.
    assert (C : G <= cexp (Zpos m') G).
    { rewrite cexp_pos. rewrite (digits_shift m (e - G) m') by (lia || exact Em).
      unfold G at 1. rewrite fexp_eq. lia. }
    destruct (binary_round_aux_spec s m' G C) as [N R].
    split; [exact N |]. rewrite R. f_equal. f_equal. now apply rv_value.
  - apply binary_round_aux_spec. exact L.
Qed.

Lemma binary_normalize_spec (z e : Z) (s0 : bool) :
  SFis_nan (binary_normalize prec emax z e s0) = false
  /\ SF2R (binary_normalize prec emax z e s0) = rnd z e.
Proof.
  destruct z as [| m | m]; cbn [binary_normalize rnd].
  - split; reflexivity.
  - apply (binary_round_spec false).
  - apply (binary_round_spec true).
Qed.

Lemma F2R_mul (m1 m2 e1 e2 : Z) :
  F2R (m1 * m2) (e1 + e2) = (F2R m1 e1 * F2R m2 e2)%R.
Proof. unfold F2R. rewrite mult_IZR, bpow_add. ring. Qed.

Lemma F2R_add (m1 m2 e : Z) :
  F2R (m1 + m2) e = (F2R m1 e + F2R m2 e)%R.
Proof. unfold F2R. rewrite plus_IZR. ring. Qed.

Lemma F2R_cond_Zopp (s : bool) (m e : Z) :
  F2R (cond_Zopp s m) e = sgn s (F2R m e).
Proof.
  destruct s; cbn [cond_Zopp sgn]; [| reflexivity].
  unfold F2R. rewrite opp_IZR. ring.
Qed.

Lemma sgn_xorb (s1 s2 : bool) (a b : R) :
  sgn (xorb s1 s2) (a * b) = (sgn s1 a * sgn s2 b)%R.
Proof. destruct s1, s2; cbn [xorb sgn]; ring. Qed.

Lemma SF2R_finite (s : bool) (m : positive) (e : Z) :
  SF2R (S754_finite s m e) = sgn s (F2R (Zpos m) e).
Proof. now destruct s. Qed.

Lemma RND_sgn (s : bool) (m : positive) (e : Z) :
  RND (sgn s (F2R (Zpos m) e)) (sgn s (Rmin (rv (Zpos m) e) (bpow emax))).
Proof.
  destruct s; cbn [sgn].
  - exists (Zneg m), e. split; [apply F2R_neg | reflexivity].
  - exists (Zpos m), e. split; reflexivity.
Qed.

(** The product of two valid numbers is right above the grid. *)
Lemma mul_cexp (mx my : positive) (ex ey : Z) :
  bounded prec emax mx ex = true -> bounded prec emax my ey = true ->
  ex + ey <= cexp (Zpos (mx * my)) (ex + ey).
Proof.
  intros Bx By. apply bounded_spec in Bx as [Cx _].
  apply bounded_spec in By as [Cy _]. rewrite cexp_pos.
  pose proof (digits2_pos_spec mx) as [Lx Ux].
  pose proof (digits2_pos_spec my) as [Ly Uy].
  pose proof (digits2_pos_spec (mx * my)) as [L U].
  set (dx := Zpos (digits2_pos mx)) in *.
  set (dy := Zpos (digits2_pos my)) in *.
  set (d := Zpos (digits2_pos (mx * my))) in *.
  assert (1 <= dx) by (unfold dx; lia). assert (1 <= dy) by (unfold dy; lia).
  assert (1 <= d) by (unfold d; lia).
  assert (Hd : dx + dy - 2 < d).
  { apply (Z.pow_lt_mono_r_iff 2); [lia | lia |].
    replace (dx + dy - 2) with ((dx - 1) + (dy - 1)) by lia.
    rewrite Z.pow_add_r by lia. rewrite Pos2Z.inj_mul in U.
    assert (0 < 2 ^ (dx - 1)) by (apply Z.pow_pos_nonneg; lia).
    assert (0 < 2 ^ (dy - 1)) by (apply Z.pow_pos_nonneg; lia). nia. }
  lia.
Qed.

Theorem SFmul_fin (x y : spec_float) :
  valid_binary x = true -> valid_binary y = true ->
  SFfin x = true -> SFfin y = true ->
  SFis_nan (SFmul prec emax x y) = false
  /\ RND (SF2R x * SF2R y) (SF2R (SFmul prec emax x y)).
Proof.
  intros Vx Vy Fx Fy.
  destruct x as [sx | sx | | sx mx ex], y as [sy | sy | | sy my ey];
    try discriminate; cbn [SFmul].
  - split; [reflexivity |]. cbn [SF2R]. rewrite Rmult_0_l. apply RND_0.
  - split; [reflexivity |]. cbn [SF2R]. rewrite Rmult_0_l. apply RND_0.
  - split; [reflexivity |]. cbn [SF2R]. rewrite Rmult_0_r. apply RND_0.
  - cbn [valid_binary] in Vx, Vy.
    destruct (binary_round_aux_spec (xorb sx sy) (mx * my) (ex + ey)
                (mul_cexp mx my ex ey Vx Vy)) as [N R].
    split; [exact N |]. rewrite R, !SF2R_finite, <- sgn_xorb, <- F2R_mul.
    rewrite <- Pos2Z.inj_mul. apply RND_sgn.
Qed.

Theorem SFadd_fin (x y : spec_float) :
  valid_binary x = true -> valid_binary y = true ->
  SFfin x = true -> SFfin y = true ->
  SFis_nan (SFadd prec emax x y) = false
  /\ RND (SF2R x + SF2R y) (SF2R (SFadd prec emax x y)).
Proof.
  intros Vx Vy Fx Fy.
  destruct x as [sx | sx | | sx mx ex], y as [sy | sy | | sy my ey];
    try discriminate; cbn [SFadd].
  - split; [now destruct sx, sy |].
    replace (SF2R (S754_zero sx) + SF2R (S754_zero sy))%R with 0%R
      by (cbn [SF2R]; ring).
    destruct sx, sy; apply RND_0.
  - split; [reflexivity |]. cbn [SF2R valid_binary] in *. rewrite Rplus_0_l.
    change (RND (sgn sy (F2R (Zpos my) ey)) (sgn sy (F2R (Zpos my) ey))).
    now apply RND_bounded.
  - split; [reflexivity |]. cbn [SF2R valid_binary] in *. rewrite Rplus_0_r.
    change (RND (sgn sx (F2R (Zpos mx) ex)) (sgn sx (F2R (Zpos mx) ex))).
    now apply RND_bounded.
  - match goal with
    | |- context [binary_normalize prec emax ?z ?e ?s] =>
        destruct (binary_normalize_spec z e s) as [N R];
        split; [exact N |]; rewrite R; exists z, e; split; [| reflexivity]
    end.
    rewrite F2R_add, !F2R_cond_Zopp, !SF2R_finite.
    pose proof (shl_align_F2R mx ex (Z.min ex ey)) as Ax.
    pose proof (shl_align_F2R my ey (Z.min ex ey)) as Ay.
    rewrite shl_align_exp in Ax, Ay.
    replace (Z.min ex (Z.min ex ey)) with (Z.min ex ey) in Ax by lia.
    replace (Z.min ey (Z.min ex ey)) with (Z.min ex ey) in Ay by lia.
    now rewrite Ax, Ay.
Qed.

(** ** Binary64 numbers *)

Lemma SF2R_range (x : spec_float) :
  valid_binary x = true -> (- bpow emax <= SF2R x <= bpow emax)%R.
Proof.
  pose proof (bpow_pos emax). destruct x as [s | s | | s m e]; cbn [SF2R valid_binary].
  - lra.
  - destruct s; lra.
  - lra.
  - intros B. pose proof (bounded_lt_emax m e B). pose proof (F2R_pos m e).
    destruct s; lra.
Qed.

Lemma SFfin_nan (x : spec_float) : SFfin x = true -> SFis_nan x = false.
Proof. now destruct x. Qed.

Lemma SFfin_lt (x : spec_float) :
  valid_binary x = true -> SFfin x = true ->
  (- bpow emax < SF2R x < bpow emax)%R.
Proof.
  pose proof (bpow_pos emax).
  destruct x as [s | s | | s m e]; cbn [SF2R valid_binary SFfin];
    try discriminate.
  - lra.
  - intros B. pose proof (bounded_lt_emax m e B). pose proof (F2R_pos m e).
    destruct s; lra.
Qed.

(** A number that is not a NaN and whose value is inside the range is
    a zero or finite. *)
Lemma SFfin_of_value (x : spec_float) :
  SFis_nan x = false -> (- bpow emax < SF2R x < bpow emax)%R ->
  SFfin x = true.
Proof.
  destruct x as [s | s | | s m e]; cbn [SF2R SFis_nan SFfin]; try reflexivity;
    try discriminate.
  destruct s; lra.
Qed.

Theorem SFadd_mono (x x' c : spec_float) :
  valid_binary x = true -> valid_binary x' = true -> valid_binary c = true ->
  SFis_nan x = false -> SFis_nan x' = false -> SFfin c = true ->
  (SF2R x <= SF2R x')%R ->
  SFis_nan (SFadd prec emax x c) = false
  /\ SFis_nan (SFadd prec emax x' c) = false
  /\ (SF2R (SFadd prec emax x c) <= SF2R (SFadd prec emax x' c))%R.
Proof.
  intros Vx Vx' Vc Nx Nx' Fc L.
  pose proof (bpow_pos emax) as Pe.
  assert (Hfin : forall y, valid_binary y = true -> SFfin y = true ->
            SFis_nan (SFadd prec emax y c) = false
            /\ (- bpow emax <= SF2R (SFadd prec emax y c) <= bpow emax)%R).
  { intros y Vy Fy. destruct (SFadd_fin y c Vy Vc Fy Fc) as [N R].
    split; [exact N | eapply RND_range; exact R]. }
  assert (Hpinf : SFadd prec emax (S754_infinity false) c = S754_infinity false)
    by (destruct c; try discriminate; reflexivity).
  assert (Hninf : SFadd prec emax (S754_infinity true) c = S754_infinity true)
    by (destruct c; try discriminate; reflexivity).
  destruct (SFfin x) eqn:Fx, (SFfin x') eqn:Fx'.
  - destruct (SFadd_fin x c Vx Vc Fx Fc) as [N R].
    destruct (SFadd_fin x' c Vx' Vc Fx' Fc) as [N' R'].
    split; [exact N |]. split; [exact N' |].
    eapply RND_mono; [exact R | exact R' | lra].
  - destruct (Hfin x Vx Fx) as [N B].
    pose proof (SFfin_lt x Vx Fx) as Bx.
    destruct x' as [s | [|] | | s m e]; try discriminate.
    + cbn [SF2R] in L. lra.
    + rewrite Hpinf. cbn [SF2R SFis_nan]. repeat split; [exact N | lra].
  - destruct (Hfin x' Vx' Fx') as [N B].
    pose proof (SFfin_lt x' Vx' Fx') as Bx.
    destruct x as [s | [|] | | s m e]; try discriminate.
    + rewrite Hninf. cbn [SF2R SFis_nan]. repeat split; [exact N | lra].
    + cbn [SF2R] in L. lra.
  - destruct x as [s | [|] | | s m e]; try discriminate;
      destruct x' as [s' | [|] | | s' m' e']; try discriminate;
      rewrite ?Hpinf, ?Hninf; cbn [SF2R SFis_nan] in *; repeat split; lra.
Qed.

Theorem SFmul_mono (x x' y y' : spec_float) :
  valid_binary x = true -> valid_binary x' = true ->
  valid_binary y = true -> valid_binary y' = true ->
  SFis_nan x = false -> SFis_nan x' = false ->
  SFis_nan y = false -> SFis_nan y' = false ->
  (0 <= SF2R x <= SF2R x')%R -> (0 <= SF2R y <= SF2R y')%R ->
  valid_binary (SFmul prec emax x y) = true ->
  SFis_nan (SFmul prec emax x y) = false ->
  SFis_nan (SFmul prec emax x' y') = false ->
  (SF2R (SFmul prec emax x y) <= SF2R (SFmul prec emax x' y'))%R.
Proof.
  intros Vx Vx' Vy Vy' Nx Nx' Ny Ny' Lx Ly Vr Nr Nr'.
  pose proof (bpow_pos emax) as Pe.
  destruct (SFfin x') eqn:Fx', (SFfin y') eqn:Fy'.
  - pose proof (SFfin_lt x' Vx' Fx'). pose proof (SFfin_lt y' Vy' Fy').
    assert (Fx : SFfin x = true) by (apply SFfin_of_value; [exact Nx | lra]).
    assert (Fy : SFfin y = true) by (apply SFfin_of_value; [exact Ny | lra]).
    destruct (SFmul_fin x y Vx Vy Fx Fy) as [_ R].
    destruct (SFmul_fin x' y' Vx' Vy' Fx' Fy') as [_ R'].
    eapply RND_mono; [exact R | exact R' | nra].
  - assert (E : SFmul prec emax x' y' = S754_infinity false).
    { destruct y' as [s | [|] | | s m e]; try discriminate.
      - cbn [SF2R] in Ly. lra.
      - destruct x' as [s | s | | s m e]; try discriminate.
        cbn [SFmul]. cbn [SF2R] in Lx. pose proof (F2R_pos m e).
        destruct s; [lra | reflexivity]. }
    rewrite E. cbn [SF2R]. apply (SF2R_range _ Vr).
  - assert (E : SFmul prec emax x' y' = S754_infinity false).
    { destruct x' as [s | [|] | | s m e]; try discriminate.
      - cbn [SF2R] in Lx. lra.
      - destruct y' as [s | s | | s m e]; try discriminate.
        cbn [SFmul]. cbn [SF2R] in Ly. pose proof (F2R_pos m e).
        destruct s; [lra | reflexivity]. }
    rewrite E. cbn [SF2R]. apply (SF2R_range _ Vr).
  - assert (E : SFmul prec emax x' y' = S754_infinity false).
    { destruct x' as [s | [|] | | s m e]; try discriminate;
        destruct y' as [s' | [|] | | s' m' e']; try discriminate;
        cbn [SF2R] in *; try lra. reflexivity. }
    rewrite E. cbn [SF2R]. apply (SF2R_range _ Vr).
Qed.

(** *** The primitive operations *)

Lemma leb_fval (x y : float) :
  (x <=? y)%float = true
  <-> fnan x = false /\ fnan y = false /\ (fval x <= fval y)%R.
Proof.
  rewrite leb_spec. unfold fnan, fval. split.
  - intros H. destruct (SFleb_nan _ _ H) as [Nx Ny].
    split; [exact Nx |]. split; [exact Ny |].
    apply (SFleb_spec _ _ (Prim2SF_valid x) (Prim2SF_valid y) Nx Ny). exact H.
  - intros (Nx & Ny & L).
    apply (SFleb_spec _ _ (Prim2SF_valid x) (Prim2SF_valid y) Nx Ny). exact L.
Qed.

Lemma ltb_fval (x y : float) :
  (x <? y)%float = true
  <-> fnan x = false /\ fnan y = false /\ (fval x < fval y)%R.
Proof.
  rewrite ltb_spec. unfold fnan, fval. split.
  - intros H. assert (N : SFis_nan (Prim2SF x) = false /\ SFis_nan (Prim2SF y) = false).
    { unfold SFltb in H. destruct (Prim2SF x), (Prim2SF y); cbn in *;
        try discriminate; auto. }
    destruct N as [Nx Ny]. split; [exact Nx |]. split; [exact Ny |].
    apply (SFltb_spec _ _ (Prim2SF_valid x) (Prim2SF_valid y) Nx Ny). exact H.
  - intros (Nx & Ny & L).
    apply (SFltb_spec _ _ (Prim2SF_valid x) (Prim2SF_valid y) Nx Ny). exact L.
Qed.

Lemma ffin_fnan (x : float) : ffin x = true -> fnan x = false.
Proof. apply SFfin_nan. Qed.

Lemma is_finite_ffin (x : float) : is_finite x = true -> ffin x = true.
Proof.
  unfold is_finite, is_nan, is_infinity, ffin.
  rewrite !FloatAxioms.eqb_spec, abs_spec.
  replace (Prim2SF infinity) with (S754_infinity false) by reflexivity.
  destruct (Prim2SF x) as [s | s | | s m e]; cbn; try reflexivity;
    try discriminate.
  destruct s; discriminate.
Qed.

Theorem b64_add_mono (a a' c : float) :
  (a <=? a')%float = true -> ffin c = true ->
  (a + c <=? a' + c)%float = true.
Proof.
  intros L Fc. apply leb_fval in L as (Na & Na' & L).
  apply leb_fval. unfold fnan, fval in *. rewrite !add_spec.
  apply SFadd_mono; auto using Prim2SF_valid.
Qed.

Theorem b64_mul_mono (a a' b b' : float) :
  (0 <=? a)%float = true -> (a <=? a')%float = true ->
  (0 <=? b)%float = true -> (b <=? b')%float = true ->
  fnan (a * b) = false -> fnan (a' * b') = false ->
  (a * b <=? a' * b')%float = true.
Proof.
  intros A0 A B0 B N N'.
  apply leb_fval in A0 as (_ & _ & A0). apply leb_fval in A as (Na & Na' & A).
  apply leb_fval in B0 as (_ & _ & B0). apply leb_fval in B as (Nb & Nb' & B).
  replace (fval 0) with 0%R in A0, B0 by reflexivity.
  apply leb_fval. split; [exact N |]. split; [exact N' |].
  pose proof (Prim2SF_valid (a * b)) as V.
  unfold fnan, fval in *. rewrite !mul_spec in *.
  apply SFmul_mono; auto using Prim2SF_valid.
Qed.

(** *** Exact results *)

Lemma RND_int (v : Z) : 0 <= v < 2 ^ 53 -> RND (IZR v) (IZR v).
Proof.
  intros [H0 H1]. destruct v as [| p | p]; [apply RND_0 | | lia].
  exists (Zpos p), 0. unfold F2R at 1. rewrite bpow_0, Rmult_1_r.
  split; [reflexivity |]. cbn [rnd].
  assert (C : cexp (Zpos p) 0 <= 0).
  { rewrite cexp_pos. pose proof (digits_le_53 p H1). lia. }
  rewrite rv_exact by exact C. unfold F2R. rewrite bpow_0, Rmult_1_r.
  symmetry. apply Rmin_left.
  apply Rle_trans with (IZR (2 ^ 53)); [apply IZR_le; lia |].
  rewrite <- bpow_IZR by lia. apply bpow_le. change emax with 1024. lia.
Qed.

Lemma int_in_range (v : Z) :
  0 <= v < 2 ^ 53 -> (- bpow emax < IZR v < bpow emax)%R.
Proof.
  intros [H0 H1]. pose proof (bpow_pos emax).
  assert (IZR v < bpow emax)%R.
  { apply Rlt_le_trans with (IZR (2 ^ 53)); [apply IZR_lt; lia |].
    rewrite <- bpow_IZR by lia. apply bpow_le. change emax with 1024. lia. }
  apply IZR_le in H0. lra.
Qed.

Lemma b64_add_exact (a c : float) (va vc : Z) :
  ffin a = true -> ffin c = true ->
  fval a = IZR va -> fval c = IZR vc -> 0 <= va + vc < 2 ^ 53 ->
  ffin (a + c) = true /\ fval (a + c) = IZR (va + vc).
Proof.
  unfold ffin, fval. intros Fa Fc Ea Ec Hv. rewrite add_spec.
  destruct (SFadd_fin _ _ (Prim2SF_valid a) (Prim2SF_valid c) Fa Fc) as [N R].
  rewrite Ea, Ec, <- plus_IZR in R.
  pose proof (RND_fun _ _ _ R (RND_int _ Hv)) as E.
  split; [| exact E]. apply SFfin_of_value; [exact N |].
  unfold SF64add. rewrite E. now apply int_in_range.
Qed.

Lemma b64_mul_exact (a c : float) (va vc : Z) :
  ffin a = true -> ffin c = true ->
  fval a = IZR va -> fval c = IZR vc -> 0 <= va * vc < 2 ^ 53 ->
  ffin (a * c) = true /\ fval (a * c) = IZR (va * vc).
Proof.
  unfold ffin, fval. intros Fa Fc Ea Ec Hv. rewrite mul_spec.
  destruct (SFmul_fin _ _ (Prim2SF_valid a) (Prim2SF_valid c) Fa Fc) as [N R].
  rewrite Ea, Ec, <- mult_IZR in R.
  pose proof (RND_fun _ _ _ R (RND_int _ Hv)) as E.
  split; [| exact E]. apply SFfin_of_value; [exact N |].
  unfold SF64mul. rewrite E. now apply int_in_range.
Qed.

Lemma fval_1 : fval 1 = 1%R.
Proof.
  unfold fval. replace (Prim2SF 1) with (S754_finite false 4503599627370496 (-52))
    by reflexivity.
  cbn [SF2R].
  assert (E : Zpos 4503599627370496 = 1 * 2 ^ 52) by (vm_compute; reflexivity).
  rewrite E. replace (-52) with (0 - 52) by lia.
  rewrite (F2R_scale 1 0 52) by lia. unfold F2R. rewrite bpow_0. ring.
Qed.

Lemma fval_2 : fval 2 = 2%R.
Proof.
  unfold fval. replace (Prim2SF 2) with (S754_finite false 4503599627370496 (-51))
    by reflexivity.
  cbn [SF2R].
  assert (E : Zpos 4503599627370496 = 1 * 2 ^ 52) by (vm_compute; reflexivity).
  rewrite E. replace (-51) with (1 - 52) by lia.
  rewrite (F2R_scale 1 1 52) by lia. unfold F2R, bpow.
  rewrite powerRZ_1. ring.
Qed.

Lemma fval_0 : fval 0 = 0%R.
Proof. reflexivity. Qed.

(** Integers below [2^53] convert exactly. *)
Lemma float_of_positive_exact (p : positive) :
  Zpos p < 2 ^ 53 ->
  ffin (float_of_positive p) = true
  /\ fval (float_of_positive p) = IZR (Zpos p).
Proof.
  induction p as [p IH | p IH |]; intros Hp; cbn [float_of_positive].
  - destruct (IH ltac:(lia)) as [F V].
    destruct (b64_mul_exact 2 (float_of_positive p) 2 (Zpos p) eq_refl F fval_2 V
                ltac:(lia)) as [F2 V2].
    destruct (b64_add_exact _ 1 _ 1 F2 eq_refl V2 fval_1 ltac:(lia)) as [F3 V3].
    split; [exact F3 |]. rewrite V3. f_equal.
  - destruct (IH ltac:(lia)) as [F V].
    destruct (b64_mul_exact 2 (float_of_positive p) 2 (Zpos p) eq_refl F fval_2 V
                ltac:(lia)) as [F2 V2].
    split; [exact F2 |]. rewrite V2. f_equal.
  - split; [reflexivity | apply fval_1].
Qed.

Lemma float_of_Z_exact (z : Z) :
  0 <= z < 2 ^ 53 ->
  ffin (float_of_Z z) = true /\ fval (float_of_Z z) = IZR z.
Proof.
  intros [H0 H1]. destruct z as [| p | p]; [| | lia].
  - split; reflexivity.
  - now apply float_of_positive_exact.
Qed.

(** *** Signs and zeros *)

Lemma fzero_of_value (x : float) :
  ffin x = true -> fval x = 0%R -> fzero x = true.
Proof.
  unfold ffin, fval, fzero. destruct (Prim2SF x) as [s | s | | s m e];
    cbn [SFfin SF2R]; try discriminate; [reflexivity |].
  intros _ E. pose proof (F2R_pos m e). destruct s; lra.
Qed.

Lemma ffin_RND (c : float) : ffin c = true -> RND (fval c) (fval c).
Proof.
  unfold ffin, fval. pose proof (Prim2SF_valid c) as V.
  destruct (Prim2SF c) as [s | s | | s m e]; cbn [SFfin SF2R]; try discriminate.
  - intros _. apply RND_0.
  - intros _. change (RND (sgn s (F2R (Zpos m) e)) (sgn s (F2R (Zpos m) e))).
    now apply RND_bounded.
Qed.

Lemma ffin_of_le (x x' : float) :
  (0 <=? x)%float = true -> (x <=? x')%float = true -> ffin x' = true ->
  ffin x = true.
Proof.
  intros H0 H1 F. apply leb_fval in H0 as (_ & N & L0).
  apply leb_fval in H1 as (_ & _ & L1).
  pose proof (SFfin_lt _ (Prim2SF_valid x') F) as B.
  pose proof (bpow_pos emax). rewrite fval_0 in L0.
  apply SFfin_of_value; [exact N |]. unfold fval in *. lra.
Qed.

Lemma b64_mul_fnan_fin (y x : float) :
  fnan y = false -> ffin x = true -> fval x <> 0%R -> fnan (y * x) = false.
Proof.
  unfold fnan, ffin, fval. rewrite mul_spec.
  pose proof (Prim2SF_valid y) as Vy. pose proof (Prim2SF_valid x) as Vx.
  destruct (Prim2SF y) as [sy | sy | | sy my ey],
           (Prim2SF x) as [sx | sx | | sx mx ex];
    cbn [SFis_nan SFfin SF2R]; intros Ny Fx Nz;
    try discriminate; try reflexivity; try lra.
  apply (SFmul_fin (S754_finite sy my ey) (S754_finite sx mx ex) Vy Vx
                   eq_refl eq_refl).
Qed.

Lemma b64_mul_fin_fnan (y x : float) :
  ffin y = true -> ffin x = true -> fnan (y * x) = false.
Proof.
  unfold fnan, ffin. rewrite mul_spec. intros Fy Fx.
  apply (SFmul_fin _ _ (Prim2SF_valid y) (Prim2SF_valid x) Fy Fx).
Qed.

Lemma b64_mul_fzero (y x : float) :
  ffin y = true -> ffin x = true -> fval x = 0%R -> fzero (y * x) = true.
Proof.
  intros Fy Fx E. pose proof (fzero_of_value x Fx E) as Z.
  unfold fzero, ffin in *. rewrite mul_spec.
  destruct (Prim2SF y) as [sy | sy | | sy my ey],
           (Prim2SF x) as [sx | sx | | sx mx ex];
    try discriminate; reflexivity.
Qed.

Lemma b64_add_fzero_l (a c : float) :
  fzero a = true -> ffin c = true -> ffin (a + c) = true.
Proof.
  unfold fzero, ffin. rewrite add_spec.
  destruct (Prim2SF a) as [sa | sa | | sa ma ea],
           (Prim2SF c) as [sc | sc | | sc mc ec];
    try discriminate; try reflexivity.
  now destruct sa, sc.
Qed.

Lemma b64_add_ge_0 (a c : float) :
  (0 <=? a)%float = true -> (0 <=? c)%float = true -> ffin c = true ->
  (0 <=? a + c)%float = true.
Proof.
  intros Ha Hc Fc.
  pose proof (b64_add_mono 0 a c Ha Fc) as M.
  apply leb_fval in M as (_ & N & L).
  apply leb_fval in Hc as (_ & _ & Lc). rewrite fval_0 in Lc.
  apply leb_fval. split; [reflexivity |]. split; [exact N |].
  rewrite fval_0.
  assert (E : fval (0 + c) = fval c).
  { unfold fval at 1. rewrite add_spec.
    destruct (SFadd_fin _ _ (Prim2SF_valid 0) (Prim2SF_valid c) eq_refl Fc)
      as [_ R].
    change (SF2R (Prim2SF 0)) with 0%R in R. rewrite Rplus_0_l in R.
    exact (RND_fun _ _ _ R (ffin_RND c Fc)). }
  lra.
Qed.

Lemma b64_mul_ge_0 (a b : float) :
  (0 <=? a)%float = true -> (0 <=? b)%float = true ->
  fnan (a * b) = false -> (0 <=? a * b)%float = true.
Proof.
  intros Ha Hb N.
  exact (b64_mul_mono 0 a 0 b eq_refl Ha eq_refl Hb eq_refl N).
Qed.

(** *** Horner's rule is monotone on non-negative coefficients *)

Lemma horner_mul_fnan (y z : float) :
  fnan y = false -> ffin z = true -> (fval z = 0%R -> ffin y = true) ->
  fnan (y * z) = false.
Proof.
  intros Ny Fz Hz. destruct (Req_dec (fval z) 0) as [E | E].
  - apply b64_mul_fin_fnan; auto.
  - now apply b64_mul_fnan_fin.
Qed.

Section HornerMono.
Variables x x' : float.
Hypothesis Hx0 : (0 <=? x)%float = true.
Hypothesis Hxx : (x <=? x')%float = true.
Hypothesis Fx' : ffin x' = true.

Lemma horner_step_le (y y' c : float) :
  horner_inv x x' y y' -> ffin c = true ->
  (y * x + c <=? y' * x' + c)%float = true.
Proof.
  intros (H0 & H1 & Hf & Hf') Fc.
  pose proof (ffin_of_le x x' Hx0 Hxx Fx') as Fx.
  apply b64_add_mono; [| exact Fc].
  pose proof (proj1 (leb_fval _ _) H1) as (Ny & Ny' & _).
  apply b64_mul_mono; auto.
  - now apply horner_mul_fnan.
  - now apply horner_mul_fnan.
Qed.

Lemma horner_step_inv (y y' c : float) :
  horner_inv x x' y y' -> ffin c = true -> (0 <=? c)%float = true ->
  horner_inv x x' (y * x + c) (y' * x' + c).
Proof.
  intros Hi Fc Hc. pose proof (horner_step_le y y' c Hi Fc) as L.
  pose proof (ffin_of_le x x' Hx0 Hxx Fx') as Fx.
  destruct Hi as (H0 & H1 & Hf & Hf').
  pose proof (proj1 (leb_fval _ _) H1) as (Ny & Ny' & _).
  split; [| split; [exact L | split]].
  - apply b64_add_ge_0; [| exact Hc | exact Fc].
    apply b64_mul_ge_0; auto. now apply horner_mul_fnan.
  - intros E. apply b64_add_fzero_l; [| exact Fc]. apply b64_mul_fzero; auto.
  - intros E. apply b64_add_fzero_l; [| exact Fc]. apply b64_mul_fzero; auto.
Qed.

(** Horner's rule, started from [y <= y'], at [x <= x']: the results
    are in the same order when every coefficient is finite and none but
    the last is negative. *)
Lemma horner_fold_mono (p : list float) :
  Forall (fun c => ffin c = true) p ->
  Forall (fun c => (0 <=? c)%float = true) (removelast p) ->
  forall y y', horner_inv x x' y y' ->
  (fold_left (fun y pv => y * x + pv) p y
   <=? fold_left (fun y pv => y * x' + pv) p y')%float = true.
Proof.
  induction p as [| c p IH]; intros Fp Np y y' Hi; cbn [fold_left].
  - apply Hi.
  - inversion Fp as [| ? ? Fc Fp']; subst.
    destruct p as [| c' p'].
    + cbn [fold_left]. now apply horner_step_le.
    + cbn [removelast] in Np. inversion Np as [| ? ? Hc Np']; subst.
      apply IH; [exact Fp' | exact Np' |]. now apply horner_step_inv.
Qed.

End HornerMono.

End Binary64.

(* ================================================================== *)
(** * Binary64 arithmetic: indices, zeros and equality *)
(* ================================================================== *)

Section Binary64Index.
Local Open Scope Z_scope.

Lemma SFeqb_spec (x y : spec_float) :
  valid_binary x = true -> valid_binary y = true ->
  SFis_nan x = false -> SFis_nan y = false ->
  (SFeqb x y = true <-> SF2R x = SF2R y).
Proof.
  intros Vx Vy Nx Ny. unfold SFeqb.
  destruct (SFcompare_spec x y Vx Vy Nx Ny); split; intros; try reflexivity;
    try discriminate; lra.
Qed.

Lemma eqb_fval (x y : float) :
  fnan x = false -> fnan y = false ->
  ((x =? y)%float = true <-> fval x = fval y).
Proof.
  intros Nx Ny. rewrite FloatAxioms.eqb_spec.
  apply SFeqb_spec; auto using Prim2SF_valid.
Qed.

Lemma ltb_0_not_zero (x : float) :
  (0 <? x)%float = true -> (x =? 0)%float = false.
Proof.
  intros H. apply ltb_fval in H as (_ & N & L). rewrite fval_0 in L.
  destruct (x =? 0)%float eqn:E; [| reflexivity].
  apply (eqb_fval x 0 N eq_refl) in E. rewrite fval_0 in E. lra.
Qed.

Lemma ltb_0_leb (x : float) :
  (0 <? x)%float = true -> (0 <=? x)%float = true.
Proof.
  intros H. apply ltb_fval in H as (N0 & N & L).
  apply leb_fval. repeat split; auto. lra.
Qed.

Lemma leb_refl_fin (x : float) : ffin x = true -> (x <=? x)%float = true.
Proof.
  intros F. apply leb_fval. pose proof (ffin_fnan x F). repeat split; auto.
  apply Rle_refl.
Qed.

(** The indices of an array of at most [2^53] elements are exact in
    binary64, and in order. *)
Lemma index_fin (i : nat) :
  Z.of_nat i < 2 ^ 53 -> ffin (float_of_Z (Z.of_nat i)) = true.
Proof. intros H. apply float_of_Z_exact. lia. Qed.

Lemma index_le (i j : nat) :
  (i <= j)%nat -> Z.of_nat j < 2 ^ 53 ->
  (float_of_Z (Z.of_nat i) <=? float_of_Z (Z.of_nat j))%float = true.
Proof.
  intros L H.
  destruct (float_of_Z_exact (Z.of_nat i) ltac:(lia)) as [Fi Vi].
  destruct (float_of_Z_exact (Z.of_nat j) ltac:(lia)) as [Fj Vj].
  apply leb_fval. split; [now apply ffin_fnan |]. split; [now apply ffin_fnan |].
  rewrite Vi, Vj. apply IZR_le. lia.
Qed.

Lemma index_ge_0 (i : nat) :
  Z.of_nat i < 2 ^ 53 -> (0 <=? float_of_Z (Z.of_nat i))%float = true.
Proof. intros H. exact (index_le 0 i ltac:(lia) H). Qed.

(** A zero added to a finite number gives a number of the same
    value. *)
Lemma add_fzero_val (a c : float) :
  fzero a = true -> ffin c = true ->
  fnan (a + c) = false /\ fval (a + c) = fval c.
Proof.
  intros Za Fc.
  assert (Fa : ffin a = true).
  { unfold fzero, ffin in *. now destruct (Prim2SF a). }
  assert (Va : fval a = 0%R).
  { unfold fzero, fval in *. destruct (Prim2SF a); try discriminate. reflexivity. }
  unfold fnan, fval in *. rewrite add_spec.
  destruct (SFadd_fin _ _ (Prim2SF_valid a) (Prim2SF_valid c) Fa Fc) as [N R].
  split; [exact N |]. rewrite Va, Rplus_0_l in R.
  exact (RND_fun _ _ _ R (ffin_RND c Fc)).
Qed.

Lemma mul_fzero_l (s : float) : ffin s = true -> fzero (0 * s) = true.
Proof.
  unfold ffin, fzero. rewrite mul_spec.
  replace (Prim2SF 0) with (S754_zero false) by reflexivity.
  destruct (Prim2SF s); try discriminate; reflexivity.
Qed.

(** The first sample of an axis, [0 * step + start], has the value of
    [start]. *)
Lemma zero_mul_add (s c : float) :
  ffin s = true -> ffin c = true -> (0 * s + c =? c)%float = true.
Proof.
  intros Fs Fc.
  destruct (add_fzero_val (0 * s) c (mul_fzero_l s Fs) Fc) as [N V].
  apply eqb_fval; [exact N | now apply ffin_fnan | exact V].
Qed.

(** Samples [i * step + start] are in the order of their indices when
    the step is not negative. *)
Lemma sample_le (step start : float) (i j : nat) :
  (i <= j)%nat -> Z.of_nat j < 2 ^ 53 ->
  ffin step = true -> (0 <=? step)%float = true -> ffin start = true ->
  (float_of_Z (Z.of_nat i) * step + start
   <=? float_of_Z (Z.of_nat j) * step + start)%float = true.
Proof.
  intros L H Fs Hs Fc. apply b64_add_mono; [| exact Fc].
  apply b64_mul_mono.
  - apply index_ge_0. lia.
  - now apply index_le.
  - exact Hs.
  - now apply leb_refl_fin.
  - apply b64_mul_fin_fnan; [apply index_fin; lia | exact Fs].
  - apply b64_mul_fin_fnan; [apply index_fin; lia | exact Fs].
Qed.

Lemma removelast_rev {A : Type} (l : list A) :
  removelast (rev l) = rev (tl l).
Proof.
  destruct l as [| a l]; [reflexivity |]. cbn [rev tl]. apply removelast_last.
Qed.

End Binary64Index.

(* ================================================================== *)
(** * Wavelength axes *)
(* ================================================================== *)

Section Chains.
Context {A : Type} (R : A -> A -> Prop).

Lemma chain_cons (x : A) (l : list A) :
  chain R (x :: l) <-> (forall y, head l = Some y -> R x y) /\ chain R l.
Proof.
  destruct l as [| y t]; simpl.
  - split; [intros _; split; [discriminate | exact I] | auto].
  - split.
    + intros [Hxy Ht]. split; [now intros ? [= <-] | exact Ht].
    + intros [Hh Ht]. split; [now apply Hh | exact Ht].
Qed.

(** A list built from consecutive indices is a chain as soon as each
    index is related to the next. *)
Lemma chain_map_seq (f : nat -> A) (a n : nat) :
  (forall i, (a <= i)%nat -> (S i < a + n)%nat -> R (f i) (f (S i))) ->
  chain R (map f (seq a n)).
Proof.
  revert a. induction n as [| n IH]; intros a Hstep; [exact I |].
  cbn [seq map]. apply chain_cons. split.
  - destruct n as [| n]; [discriminate |].
    cbn [seq map head]. intros y [= <-]. apply Hstep; lia.
  - apply IH. intros i Hi Hlt. apply Hstep; lia.
Qed.

(** Appending one element to a chain. *)
Lemma chain_snoc (l : list A) (x : A) :
  chain R l -> (forall y, last l x = y -> l <> [] -> R y x) ->
  chain R (l ++ [x]).
Proof.
  induction l as [| a l IH]; intros Hc Hlast; [exact I |].
  destruct l as [| b t].
  - simpl. split; [apply Hlast; [reflexivity | discriminate] | exact I].
  - change ((a :: b :: t) ++ [x])%list with (a :: ((b :: t) ++ [x]))%list.
    apply chain_cons. apply chain_cons in Hc as [Hab Hc].
    split.
    + intros y Hy. apply Hab. exact Hy.
    + apply IH; [exact Hc |].
      intros y Hy _. apply Hlast; [exact Hy | discriminate].
Qed.
End Chains.

(** ** [np.linspace] over the rationals *)

Section LinspaceQ.
Variables start stop : Q.
Variable k : nat.                       (* num = k + 2 *)

Lemma linspace_Q_samples :
  ~ stop - start == 0 ->
  Np.linspace start stop (S (S k)) =
  (map (even_sample start stop (S (S k))) (seq 0 (S k)) ++ [stop])%list.
Proof.
  intros Hd. unfold Np.linspace, Np.arange.
  change (S (S k) - 1)%nat with (S k).
  change (0 <? S k)%nat with true. change (1 <? S (S k))%nat with true.
  cbv iota.
  assert (Hz : is_zero (div (sub stop start) (of_Z (Z.of_nat (S k)))) = false).
  { cbn [is_zero div sub of_Z Q_Arith].
    destruct (Qeq_bool _ 0) eqn:E; [| reflexivity].
    apply Qeq_bool_eq in E. exfalso. apply Hd.
    assert (Hk : ~ inject_Z (Z.of_nat (S k)) == 0).
    { unfold Qeq. simpl. lia. }
    rewrite <- (Qmult_div_r (stop - start) (inject_Z (Z.of_nat (S k)))) by exact Hk.
    rewrite E. ring. }
  rewrite Hz. rewrite !map_map.
  rewrite seq_S, map_app. cbn [map Nat.add].
  unfold Np.set_last.
  destruct (map _ (seq 0 (S k)) ++ [_])%list eqn:El.
  - now destruct (map _ (seq 0 (S k))).
  - rewrite <- El. rewrite removelast_last. reflexivity.
Qed.

Lemma even_sample_last :
  even_sample start stop (S (S k)) (S k) == stop.
Proof.
  unfold even_sample, even_step. change (S (S k) - 1)%nat with (S k).
  assert (Hk : ~ inject_Z (Z.of_nat (S k)) == 0) by (unfold Qeq; simpl; lia).
  field. exact Hk.
Qed.

Lemma even_sample_succ (num i : nat) :
  even_sample start stop num (S i) ==
  even_sample start stop num i + even_step start stop num.
Proof.
  unfold even_sample. rewrite Nat2Z.inj_succ. unfold Z.succ.
  rewrite inject_Z_plus. ring.
Qed.
End LinspaceQ.

(** ** The span axis of [HPOSA.get_spectrum] *)

Lemma even_step_pos (start stop : Q) (k : nat) :
  start < stop -> 0 < even_step start stop (S (S k)).
Proof.
  intros Hlt. unfold even_step. change (S (S k) - 1)%nat with (S k).
  apply Qlt_shift_div_l.
  - unfold Qlt. simpl. lia.
  - lra.
Qed.

Lemma linspace_Q_increasing (start stop : Q) (k : nat) :
  start < stop -> chain Qlt (Np.linspace start stop (S (S k))).
Proof.
  intros Hlt. rewrite linspace_Q_samples by lra.
  pose proof (even_step_pos start stop k Hlt) as Hstep.
  apply chain_snoc.
  - apply chain_map_seq. intros i _ _.
    rewrite even_sample_succ. lra.
  - intros y Hy _. rewrite seq_S, map_app in Hy. cbn [map Nat.add] in Hy.
    rewrite last_last in Hy. subst y.
    rewrite <- (even_sample_last start stop k) at 2.
    rewrite even_sample_succ. lra.
Qed.

Lemma linspace_Q_pointwise (start stop : Q) (k : nat) :
  ~ stop - start == 0 ->
  Forall2 Qeq (Np.linspace start stop (S (S k)))
              (map (even_sample start stop (S (S k))) (seq 0 (S (S k)))).
Proof.
  intros Hd. rewrite linspace_Q_samples by exact Hd.
  rewrite (seq_S (S k)), map_app. cbn [map Nat.add].
  apply Forall2_app.
  - induction (map _ (seq 0 (S k))); constructor; [reflexivity | assumption].
  - constructor; [| constructor].
    symmetry. apply even_sample_last.
Qed.

(** In exact arithmetic a positive span gives a strictly increasing
    axis from [center - span/2] to [center + span/2], evenly spaced. *)
Lemma span_axis_Q_increasing (center span : Q) (n : nat) :
  (2 <= n)%nat -> 0 < span ->
  List.length (HP.span_axis center span n) = n
  /\ hd 0 (HP.span_axis center span n) == center - span / 2
  /\ last (HP.span_axis center span n) 0 == center + span / 2
  /\ Forall2 Qeq (HP.span_axis center span n)
       (map (fun i => center - span / 2
                      + inject_Z (Z.of_nat i)
                        * (span / inject_Z (Z.of_nat (n - 1))))
            (seq 0 n))
  /\ chain Qlt (HP.span_axis center span n).
Proof.
  intros Hn Hspan.
  destruct n as [| [| k]]; [lia | lia | clear Hn].
  unfold HP.span_axis. cbn [sub add div of_Z Q_Arith].
  set (start := center - span / inject_Z 2).
  set (stop := center + span / inject_Z 2).
  assert (Hdelta : stop - start == span) by (unfold start, stop; field).
  assert (Hlt : start < stop) by lra.
  assert (Hnz : ~ stop - start == 0) by lra.
  assert (Hk : ~ inject_Z (Z.of_nat (S k)) == 0) by (unfold Qeq; simpl; lia).
  pose proof (linspace_Q_pointwise start stop k Hnz) as Hpt.
  repeat split.
  - apply Forall2_length in Hpt. rewrite Hpt, length_map, length_seq.
    reflexivity.
  - rewrite linspace_Q_samples by exact Hnz. cbn [seq map app hd].
    unfold even_sample, start. change (inject_Z (Z.of_nat 0)) with 0.
    field.
  - rewrite linspace_Q_samples by exact Hnz. rewrite last_last.
    unfold stop. field.
  - rewrite linspace_Q_samples by exact Hnz.
    rewrite (seq_S (S k)), map_app. cbn [map Nat.add].
    apply Forall2_app.
    + clear Hpt. induction (seq 0 (S k)) as [| i l IH]; constructor; [| exact IH].
      unfold even_sample, even_step. change (S (S k) - 1)%nat with (S k).
      rewrite Hdelta. unfold start. field. exact Hk.
    + constructor; [| constructor].
      change (S (S k) - 1)%nat with (S k). unfold stop. field. exact Hk.
  - now apply linspace_Q_increasing.
Qed.

(** In binary64 the points of a positive span can coincide: a span below
    the spacing of the floats around the centre is rounded away. *)
Example span_axis_binary64_rounding :
  HP.span_axis 1e30%float 1%float 3 = [1e30; 1e30; 1e30]%float.
Proof. reflexivity. Qed.

(** In binary64 the conversion from m to nm is the product with
    [1 / 1e-9], which is not 1e9: a centre reported as 1.55e-06 m reads
    as 1549.9999999999998 nm. *)
Example m_to_nm_binary64 :
  HP.m_to_nm 1.55e-06%float = 1549.9999999999998%float
  /\ PrimFloat.eqb (HP.m_to_nm 1.55e-06%float) 1550%float = false
  /\ HP.m_to_nm (155 # 100000000) == 1550.
Proof. repeat split. Qed.

(** ** The calibrated axis of [Eagle._initialize] *)

(** Horner's rule on the reversed coefficients evaluates the
    polynomial. *)
Lemma horner_rev_poly_eval (c : list Q) (x : Q) :
  Np.horner (rev c) x == poly_eval c x.
Proof.
  unfold Np.horner, poly_eval.
  rewrite <- fold_left_rev_right, rev_involutive.
  cbn [add mul of_Z Q_Arith].
  induction c as [| ci c IH]; cbn [fold_right]; [reflexivity |].
  rewrite IH. ring.
Qed.

Lemma poly_eval_nonneg (c : list Q) (x : Q) :
  Forall (Qle 0) c -> 0 <= x -> 0 <= poly_eval c x.
Proof.
  intros Hc Hx. induction Hc as [| ci c Hci _ IH]; cbn; [lra |].
  fold (poly_eval c x). nra.
Qed.

Lemma poly_eval_mono (c : list Q) (x y : Q) :
  Forall (Qle 0) c -> 0 <= x -> x <= y -> poly_eval c x <= poly_eval c y.
Proof.
  intros Hc Hx Hxy. induction Hc as [| ci c Hci Hc IH]; cbn; [lra |].
  fold (poly_eval c x) (poly_eval c y).
  pose proof (poly_eval_nonneg c x Hc Hx). nra.
Qed.

(** The constant coefficient may have any sign. *)
Lemma poly_eval_mono_tl (c : list Q) (x y : Q) :
  Forall (Qle 0) (tl c) -> 0 <= x -> x <= y ->
  poly_eval c x <= poly_eval c y.
Proof.
  destruct c as [| c0 cs]; cbn [tl]; intros Hc Hx Hxy; cbn; [lra |].
  fold (poly_eval cs x) (poly_eval cs y).
  pose proof (poly_eval_nonneg cs x Hc Hx).
  pose proof (poly_eval_mono cs x y Hc Hx Hxy). nra.
Qed.

(** In any arithmetic the point of pixel [i] is Horner's rule on the
    coefficients, highest degree first, at the index [i]. *)
Lemma wl_horner {N : Type} `{Arith N} (fit_params : list N) (n_pixels : nat) :
  Ibsen.wl fit_params n_pixels =
  map (fun i => Np.horner (rev fit_params) (of_Z (Z.of_nat i)))
      (seq 0 n_pixels).
Proof. unfold Ibsen.wl, Np.polyval, Np.arange. now rewrite map_map. Qed.

Lemma wl_Q_unfold (fit_params : list Q) (n_pixels : nat) :
  Ibsen.wl fit_params n_pixels =
  map (fun i => Np.horner (rev fit_params) (inject_Z (Z.of_nat i)))
      (seq 0 n_pixels).
Proof. unfold Ibsen.wl, Np.polyval, Np.arange. now rewrite map_map. Qed.

(** In exact arithmetic the point of pixel [i] is the value of the
    polynomial at [i]. *)
Lemma wl_Q_pointwise (fit_params : list Q) (n_pixels : nat) :
  Forall2 Qeq (Ibsen.wl fit_params n_pixels)
    (map (fun i => poly_eval fit_params (inject_Z (Z.of_nat i)))
         (seq 0 n_pixels)).
Proof.
  rewrite wl_Q_unfold.
  induction (seq 0 n_pixels) as [| i l IH]; constructor; [| exact IH].
  apply horner_rev_poly_eval.
Qed.

(** In exact arithmetic the axis does not decrease when no coefficient
    of degree one or more is negative. *)
Lemma wl_Q_monotone (fit_params : list Q) (n_pixels : nat) :
  Forall (Qle 0) (tl fit_params) ->
  chain Qle (Ibsen.wl fit_params n_pixels).
Proof.
  intros Hc. rewrite wl_Q_unfold.
  apply chain_map_seq. intros i _ _.
  rewrite !horner_rev_poly_eval.
  apply poly_eval_mono_tl; [exact Hc | |].
  - unfold Qle. simpl. lia.
  - unfold Qle. simpl. lia.
Qed.

(** In binary64 the axis does not decrease when every coefficient is
    finite and no coefficient of degree one or more is negative: the
    rounding of each product and sum keeps the order, and so does an
    overflow to infinity. *)
Lemma wl_binary64_monotone (fit_params : list float) (n_pixels : nat) :
  (Z.of_nat n_pixels <= 2 ^ 53)%Z ->
  Forall (fun c => is_finite c = true) fit_params ->
  Forall (float_le 0) (tl fit_params) ->
  chain float_le (Ibsen.wl fit_params n_pixels).
Proof.
  intros Hn Hf Hs. rewrite wl_horner. apply chain_map_seq. intros i _ Hi.
  unfold float_le, Np.horner. cbn [add mul of_Z float_Arith].
  change (float_of_Z 0) with 0%float.
  apply horner_fold_mono.
  - apply index_ge_0. lia.
  - apply index_le; lia.
  - apply index_fin. lia.
  - apply Forall_rev. eapply Forall_impl; [| exact Hf].
    intros c. apply is_finite_ffin.
  - rewrite removelast_rev. apply Forall_rev. exact Hs.
  - repeat split; reflexivity.
Qed.

(** C9 fails: a calibration whose wavelength falls with the pixel index
    gives a decreasing axis, in binary64 as in exact arithmetic.  In
    binary64 the sign of the coefficients is not all that matters: an
    infinite coefficient gives a first point that is not a number, which
    compares with nothing. *)
Lemma eagle_wl_counterexample :
  Ibsen.wl [1100; -0.5; 0; 0; 0]%float 3 = [1100; 1099.5; 1099]%float
  /\ ~ chain float_le (Ibsen.wl [1100; -0.5; 0; 0; 0]%float 3)
  /\ ~ chain Qle (Ibsen.wl [1100; -(1#2); 0; 0; 0] 3)
  /\ Ibsen.wl [0; infinity; 0; 0; 0]%float 3 = [nan; infinity; infinity]%float
  /\ ~ chain float_le (Ibsen.wl [0; infinity; 0; 0; 0]%float 3).
Proof.
  repeat split.
  - intros [E _]. vm_compute in E. discriminate E.
  - intros [E _]. vm_compute in E. apply E. reflexivity.
  - intros [E _]. vm_compute in E. discriminate E.
Qed.

(** C9, amended.  For every coefficient sequence and every pixel count
    the axis has one point per pixel, and the point of pixel [i] is
    Horner's rule on the coefficients, highest degree first, at [i], in
    the arithmetic of the code - binary64, or any other.  In binary64
    the axis is non-decreasing when every coefficient is finite and no
    coefficient of degree one or more is negative (for up to [2^53]
    pixels, whose indices are exact).  In exact arithmetic the point of
    pixel [i] is the value of the polynomial at [i], and the axis is
    non-decreasing when no coefficient of degree one or more is
    negative. *)
Theorem eagle_wl_monotone :
  (forall (N : Type) (A : Arith N) (fit_params : list N) (n_pixels : nat),
      List.length (Ibsen.wl fit_params n_pixels) = n_pixels
      /\ Ibsen.wl fit_params n_pixels =
         map (fun i => Np.horner (rev fit_params) (of_Z (Z.of_nat i)))
             (seq 0 n_pixels))
  /\ (forall (fit_params : list float) (n_pixels : nat),
        (Z.of_nat n_pixels <= 2 ^ 53)%Z ->
        Forall (fun c => is_finite c = true) fit_params ->
        Forall (float_le 0) (tl fit_params) ->
        chain float_le (Ibsen.wl fit_params n_pixels))
  /\ (forall (fit_params : list Q) (n_pixels : nat),
        Forall2 Qeq (Ibsen.wl fit_params n_pixels)
          (map (fun i => poly_eval fit_params (inject_Z (Z.of_nat i)))
               (seq 0 n_pixels)))
  /\ (forall (fit_params : list Q) (n_pixels : nat),
        Forall (Qle 0) (tl fit_params) ->
        chain Qle (Ibsen.wl fit_params n_pixels)).
Proof.
  split; [| split; [| split]].
  - intros N A fit_params n_pixels. rewrite wl_horner. split; [| reflexivity].
    now rewrite length_map, length_seq.
  - exact wl_binary64_monotone.
  - exact wl_Q_pointwise.
  - exact wl_Q_monotone.
Qed.

Lemma eagle_wl_monotone_witness :
  chain float_le (Ibsen.wl [400; 0.5; 0; 0.001; 0]%float 2048)
  /\ chain Qle (Ibsen.wl [400; 1 # 2; 0; 1 # 1000; 0] 4).
Proof.
  split.
  - apply (proj1 (proj2 eagle_wl_monotone)
                 [400; 0.5; 0; 0.001; 0]%float 2048%nat).
    + vm_compute. discriminate.
    + repeat constructor.
    + cbn [tl]. repeat constructor.
  - apply (proj2 (proj2 (proj2 eagle_wl_monotone))
                 [400; 1 # 2; 0; 1 # 1000; 0] 4%nat).
    cbn [tl]. repeat constructor; unfold Qle; simpl; lia.
Defined.

(* ================================================================== *)
(** * Keithley 2635A: the tracked flags and the instrument *)
(* ================================================================== *)

Lemma writes_app (l1 l2 : list event) :
  writes (l1 ++ l2) = (writes l1 ++ writes l2)%list.
Proof.
  induction l1 as [| e l1 IH]; [reflexivity |].
  destruct e; cbn; now rewrite IH.
Qed.

Lemma smua_replay_write (l : list event) (cmd : string) (st0 : bool * string) :
  smua_replay (l ++ [Write cmd]) st0 = smua_after (smua_replay l st0) cmd.
Proof.
  unfold smua_replay. rewrite writes_app. cbn. now rewrite fold_left_app.
Qed.

Section KeithleySync.
Context `{Runtime} `{HP.Parser float}.
Variable dev : instrument.
Variable st0 : bool * string.

Lemma sync_ret {A} (a : A) : keeps_sync st0 (ret a).
Proof. intros w o w' [= <- <-]. auto. Qed.

Lemma sync_raise {A} (e : exn) : keeps_sync (A:=A) st0 (raise e).
Proof. intros w o w' [= <- <-]. auto. Qed.

Lemma sync_lift {A} (e : exn) (x : option A) : keeps_sync st0 (lift e x).
Proof. destruct x; [apply sync_ret | apply sync_raise]. Qed.

Lemma sync_print (line : string) : keeps_sync st0 (print line).
Proof. intros w o w' [= <- <-]. auto. Qed.

Lemma sync_get_self : keeps_sync st0 get_self.
Proof. intros w o w' [= <- <-]. auto. Qed.

Lemma sync_sleep (ms : Z) : keeps_sync st0 (sleep ms).
Proof.
  intros w o w' [= <- <-]. cbn. unfold smua_replay.
  rewrite writes_app. cbn. now rewrite app_nil_r.
Qed.

Lemma sync_query (cmd : string) : keeps_sync st0 (query dev cmd).
Proof.
  intros w o w'. unfold query.
  destruct (answers dev (log w) cmd); intros [= <- <-]; auto.
  cbn. unfold smua_replay. rewrite writes_app. cbn. now rewrite app_nil_r.
Qed.

Lemma sync_bind {A B} (m : M Keithley.t A) (k : A -> M Keithley.t B) :
  keeps_sync st0 m -> (forall a, keeps_sync st0 (k a)) ->
  keeps_sync st0 (bind m k).
Proof.
  intros Hm Hk w o w' E Hs.
  apply bind_inv in E as [(a & w1 & E1 & E2) | (e & E1 & _)].
  - eapply Hk; eauto.
  - eapply Hm; eauto.
Qed.

(** A command that is neither an output command nor a source-function
    command. *)
Lemma sync_write (cmd : string) :
  (forall st, smua_after st cmd = st) -> keeps_sync st0 (write dev cmd).
Proof.
  intros Hn w o w'. unfold write, emit.
  destruct (accepts dev (log w) cmd); intros [= <- <-]; auto.
  cbn [log self]. now rewrite smua_replay_write, Hn.
Qed.

Lemma sync_turn_on : keeps_sync st0 (Keithley.turn_on dev).
Proof.
  intros w o w'. unfold Keithley.turn_on, Keithley.set_is_on, write, emit,
    bind, get_self, set_self.
  destruct (accepts dev (log w) Keithley.OUTPUT_ON); intros [= <- <-]; auto.
  cbn [log self]. intros Hs. rewrite smua_replay_write, Hs. reflexivity.
Qed.

Lemma sync_turn_off : keeps_sync st0 (Keithley.turn_off dev).
Proof.
  intros w o w'. unfold Keithley.turn_off, Keithley.set_is_on, write, emit,
    bind, get_self, set_self.
  destruct (accepts dev (log w) Keithley.OUTPUT_OFF); intros [= <- <-]; auto.
  cbn [log self]. intros Hs. rewrite smua_replay_write, Hs. reflexivity.
Qed.

Lemma strip_prefix_app (p s : string) : strip_prefix p (p ++ s) = Some s.
Proof.
  induction p as [| a p IH]; [reflexivity |].
  cbn. now rewrite Ascii.eqb_refl.
Qed.

Lemma smua_after_FUNC (st : bool * string) (m : string) :
  smua_after st (Keithley.FUNC m) = (fst st, m).
Proof.
  unfold smua_after.
  change (Keithley.FUNC m =? Keithley.OUTPUT_ON) with false.
  change (Keithley.FUNC m =? Keithley.OUTPUT_OFF) with false.
  cbv iota. unfold Keithley.FUNC. now rewrite strip_prefix_app.
Qed.

Lemma sync_set_func (m : string) : keeps_sync st0 (Keithley.set_func dev m).
Proof.
  unfold Keithley.set_func.
  destruct (negb _); [apply sync_print |].
  intros w o w'. unfold Keithley.set_mode, write, emit, bind, get_self, set_self.
  destruct (accepts dev (log w) (Keithley.FUNC m)); intros [= <- <-]; auto.
  cbn [log self]. intros Hs. rewrite smua_replay_write, Hs, smua_after_FUNC.
  reflexivity.
Qed.

Lemma sync_set_self_attr (s' : Keithley.t -> Keithley.t) :
  (forall s, tracked (s' s) = tracked s) ->
  keeps_sync st0 (s <- get_self ;; set_self (s' s)).
Proof.
  intros Hs' w o w' [= <- <-]. cbn. intros Hs. now rewrite Hs'.
Qed.
End KeithleySync.

Ltac sync :=
  repeat first
    [ apply sync_ret | apply sync_raise | apply sync_lift | apply sync_print
    | apply sync_get_self | apply sync_sleep | apply sync_query
    | apply sync_turn_on | apply sync_turn_off | apply sync_set_func
    | apply sync_write; intros ?; reflexivity
    | apply sync_set_self_attr; intros ?; reflexivity
    | apply sync_bind; [| intros ?]
    | match goal with
      | |- keeps_sync _ (if ?b then _ else _) => destruct b
      | |- keeps_sync _ (match ?b with _ => _ end) => destruct b
      end ].

Section KeithleyProgram.
Context `{Runtime} `{HP.Parser float}.
Variable dev : instrument.
Variable st0 : bool * string.

Lemma sync_switch_mode (target : string) :
  keeps_sync st0 (Keithley.switch_mode dev target).
Proof. unfold Keithley.switch_mode. sync. Qed.

Lemma sync_set_voltage_compliance (q : Quantity) :
  keeps_sync st0 (Keithley.set_voltage_compliance dev q).
Proof.
  unfold Keithley.set_voltage_compliance, Keithley.set_volt_compliance_attr.
  sync.
Qed.

Lemma sync_set_current_compliance (q : Quantity) :
  keeps_sync st0 (Keithley.set_current_compliance dev q).
Proof.
  unfold Keithley.set_current_compliance, Keithley.set_cur_compliance_attr.
  sync.
Qed.

Lemma sync_perform (c : KeithleyAPI.call) :
  keeps_sync st0 (KeithleyAPI.perform dev c).
Proof.
  destruct c; cbn [KeithleyAPI.perform];
    unfold Keithley.set_voltage, Keithley.set_current,
      KeithleyAPI.init_function, KeithleyAPI.measure_current,
      KeithleyAPI.measure_voltage, KeithleyAPI.set_voltage_range,
      KeithleyAPI.set_current_range, KeithleyAPI.set_measurement_delay,
      KeithleyAPI.set_measurement_interval,
      KeithleyAPI.set_measurement_integration, KeithleyAPI.set_filter;
    try apply sync_set_voltage_compliance;
    try apply sync_set_current_compliance;
    sync;
    first [ apply sync_switch_mode
          | apply sync_set_voltage_compliance
          | apply sync_set_current_compliance ].
Qed.

Lemma sync_program (cs : list KeithleyAPI.call) (w : world Keithley.t) :
  smua_replay (log w) st0 = tracked (self w) ->
  smua_replay (log (KeithleyAPI.program dev cs w)) st0 =
  tracked (self (KeithleyAPI.program dev cs w)).
Proof.
  revert w. induction cs as [| c cs IH]; intros w Hs; [exact Hs |].
  cbn [KeithleyAPI.program fold_left]. apply IH.
  destruct (KeithleyAPI.perform dev c w) as [o w'] eqn:E.
  exact (sync_perform c w o w' E Hs).
Qed.
End KeithleyProgram.

(** X1.  However the instrument behaves - it may refuse any command and
    leave any query unanswered - after any sequence of calls on a
    Keithley object, each exception caught by the caller, the tracked
    output flag and source mode are those that the commands the
    instrument accepted imply. *)
Theorem keithley_tracking_in_sync `{Runtime} `{HP.Parser float}
    (dev : instrument) (s : Keithley.t) (cs : list KeithleyAPI.call) :
  smua_replay (log (KeithleyAPI.program dev cs (fresh s))) (tracked s) =
  (Keithley.is_on (self (KeithleyAPI.program dev cs (fresh s))),
   Keithley.mode (self (KeithleyAPI.program dev cs (fresh s)))).
Proof. apply sync_program. reflexivity. Qed.

(* ================================================================== *)
(** * Keithley 2635A: levels, limits and settings *)
(* ================================================================== *)

Section KeithleyLevels.
Context `{Runtime}.
Variable dev : instrument.
Hypothesis Hdev : writable dev.

(** In the mode that is already active, lines 102-108 only make sure
    that the output is on. *)
Lemma switch_mode_same (target : string) (w : world Keithley.t) :
  Keithley.mode (self w) = target ->
  Keithley.switch_mode dev target w =
  (Ok tt,
   {| self := switched target (self w);
      log := (log w ++ if Keithley.is_on (self w) then []
                       else [Write Keithley.OUTPUT_ON])%list;
      stdout := stdout w |}).
Proof.
  intros Hm. unfold Keithley.switch_mode, Keithley.turn_on, Keithley.set_is_on.
  unfold bind at 1. unfold get_self at 1.
  rewrite Hm, String.eqb_refl. cbn [negb].
  destruct w as [[cc vc on md] l out]. cbn in Hm. subst md.
  destruct on; run_session Hdev; now rewrite ?app_nil_r.
Qed.
End KeithleyLevels.

(** X2.  In the source mode that is already active, [set_voltage] and
    [set_current] change neither the mode nor switch the output off: they
    write output-on only if the tracked flag is off, then the level, and
    leave the output on. *)
Theorem keithley_set_level_same_mode `{Runtime} (dev : instrument)
    (w : world Keithley.t) (q : Quantity) :
  writable dev ->
  (Keithley.mode (self w) = "VOLTS" ->
     trace (Keithley.set_voltage dev q w) =
       (log w ++ (if Keithley.is_on (self w) then []
                  else [Write Keithley.OUTPUT_ON])
              ++ level_write "smua.source.levelv = " (to_m q u_V))%list
     /\ tracked (final (Keithley.set_voltage dev q w)) = (true, "VOLTS"))
  /\
  (Keithley.mode (self w) = "AMPS" ->
     trace (Keithley.set_current dev q w) =
       (log w ++ (if Keithley.is_on (self w) then []
                  else [Write Keithley.OUTPUT_ON])
              ++ level_write "smua.source.leveli = " (to_m q u_A))%list
     /\ tracked (final (Keithley.set_current dev q w)) = (true, "AMPS")).
Proof.
  intros Hdev. split; intros Hm.
  - unfold Keithley.set_voltage, trace, final.
    unfold bind at 1 3. rewrite switch_mode_same by auto.
    destruct (to_m q u_V); run_session Hdev;
      now rewrite ?app_nil_r, <- ?app_assoc.
  - unfold Keithley.set_current, trace, final.
    unfold bind at 1 3. rewrite switch_mode_same by auto.
    destruct (to_m q u_A); run_session Hdev;
      now rewrite ?app_nil_r, <- ?app_assoc.
Qed.

Lemma keithley_set_level_same_mode_witness :
  trace (Keithley.set_voltage mute 1%float (fresh (keithley true "VOLTS"))) =
    [Write "smua.source.levelv = <float>"]
  /\ tracked (final (Keithley.set_voltage mute 1%float
                       (fresh (keithley true "VOLTS")))) = (true, "VOLTS").
Proof.
  assert (Hw : writable mute) by (intros h cmd; reflexivity).
  assert (Hm : Keithley.mode (self (fresh (keithley true "VOLTS"))) = "VOLTS")
    by reflexivity.
  exact (proj1 (keithley_set_level_same_mode mute
                  (fresh (keithley true "VOLTS")) 1%float Hw) Hm).
Defined.

(** X3.  An argument that does not convert to the unit of the setting:
    the compliance and range setters raise before any transaction and
    leave the object as it was, while [set_voltage] and [set_current]
    raise only after they have brought the source into their mode and
    switched the output on. *)
Theorem keithley_wrong_dimension `{Runtime} (dev : instrument)
    (w : world Keithley.t) (q : Quantity) :
  (to_m q u_V = None ->
     Keithley.set_voltage_compliance dev q w = (Raise DimensionalityError, w)
     /\ KeithleyAPI.set_voltage_range dev q w = (Raise DimensionalityError, w)
     /\ (writable dev ->
         result (Keithley.set_voltage dev q w) = Raise DimensionalityError
         /\ tracked (final (Keithley.set_voltage dev q w)) = (true, "VOLTS")))
  /\
  (to_m q u_A = None ->
     Keithley.set_current_compliance dev q w = (Raise DimensionalityError, w)
     /\ KeithleyAPI.set_current_range dev q w = (Raise DimensionalityError, w)
     /\ (writable dev ->
         result (Keithley.set_current dev q w) = Raise DimensionalityError
         /\ tracked (final (Keithley.set_current dev q w)) = (true, "AMPS"))).
Proof.
  split; intros Hq.
  - split; [| split].
    + unfold Keithley.set_voltage_compliance. now rewrite Hq.
    + unfold KeithleyAPI.set_voltage_range. now rewrite Hq.
    + intros Hdev.
      destruct (String.eqb_spec (Keithley.mode (self w)) "VOLTS") as [Hm | Hm].
      * unfold Keithley.set_voltage, result, final.
        unfold bind at 1 3. rewrite switch_mode_same by auto.
        rewrite Hq. cbn. auto.
      * rewrite set_voltage_run by auto. rewrite Hq. cbn. auto.
  - split; [| split].
    + unfold Keithley.set_current_compliance. now rewrite Hq.
    + unfold KeithleyAPI.set_current_range. now rewrite Hq.
    + intros Hdev.
      destruct (String.eqb_spec (Keithley.mode (self w)) "AMPS") as [Hm | Hm].
      * unfold Keithley.set_current, result, final.
        unfold bind at 1 3. rewrite switch_mode_same by auto.
        rewrite Hq. cbn. auto.
      * rewrite set_current_run by auto. rewrite Hq. cbn. auto.
Qed.

Lemma keithley_wrong_dimension_witness :
  result (Keithley.set_voltage (H:=strict_Runtime) mute (1%float, u_A)
            (fresh (strict_keithley false "AMPS")))
  = Raise DimensionalityError
  /\ tracked (final (Keithley.set_voltage (H:=strict_Runtime) mute
                       (1%float, u_A) (fresh (strict_keithley false "AMPS"))))
     = (true, "VOLTS").
Proof.
  assert (Hw : writable mute) by (intros h cmd; reflexivity).
  assert (Hq : to_m (Runtime:=strict_Runtime) (1%float, u_A) u_V = None)
    by reflexivity.
  exact (proj2 (proj2 (proj1 (keithley_wrong_dimension (H:=strict_Runtime) mute
                                (fresh (strict_keithley false "AMPS"))
                                (1%float, u_A)) Hq)) Hw).
Defined.

(** X4.  [set_measurement_integration] writes the requested number of
    power-line cycles brought into the range 1 to 25, in one
    transaction. *)
Theorem keithley_integration_clamped `{Runtime} (dev : instrument)
    (w : world Keithley.t) (nplc : Z) :
  writable dev ->
  trace (KeithleyAPI.set_measurement_integration dev nplc w) =
    (log w ++ [Write ("smua.measure.nplc = "
                      ++ fmt_d (Z.max 1 (Z.min 25 nplc)))])%list
  /\ final (KeithleyAPI.set_measurement_integration dev nplc w) = self w.
Proof.
  intros Hdev. unfold KeithleyAPI.set_measurement_integration, trace, final.
  destruct (Z.gtb_spec nplc 25) as [Hhi | Hhi].
  - replace (Z.max 1 (Z.min 25 nplc)) with 25%Z by lia.
    run_session Hdev. auto.
  - destruct (Z.ltb_spec nplc 1) as [Hlo | Hlo].
    + replace (Z.max 1 (Z.min 25 nplc)) with 1%Z by lia.
      run_session Hdev.
      destruct (nplc <? 1)%Z eqn:E; [| apply Z.ltb_ge in E; lia].
      run_session Hdev. auto.
    + replace (Z.max 1 (Z.min 25 nplc)) with nplc by lia.
      run_session Hdev.
      destruct (nplc <? 1)%Z eqn:E; [apply Z.ltb_lt in E; lia |].
      run_session Hdev. auto.
Qed.

Lemma keithley_integration_clamped_witness :
  trace (KeithleyAPI.set_measurement_integration mute 60
           (fresh (keithley false "VOLTS"))) =
    [Write "smua.measure.nplc = 25"].
Proof.
  assert (Hw : writable mute) by (intros h cmd; reflexivity).
  exact (proj1 (keithley_integration_clamped mute
                  (fresh (keithley false "VOLTS")) 60 Hw)).
Defined.

(** X5.  [set_filter] with a type other than the three it knows raises
    [UnboundLocalError] before any transaction.  With a known type it
    writes the type, the count brought into the range 1 to 100 and the
    enable flag, in this order. *)
Theorem keithley_set_filter `{Runtime} (dev : instrument)
    (w : world Keithley.t) (enable : bool) (type : string) (count : Z) :
  (type <> "repeat_average" -> type <> "moving_average" -> type <> "median" ->
     KeithleyAPI.set_filter dev enable type count w =
     (Raise UnboundLocalError, w))
  /\
  (writable dev ->
   forall type_str,
     In (type, type_str) [("repeat_average", "FILTER_REPEAT_AVG");
                          ("moving_average", "FILTER_MOVING_AVG");
                          ("median", "FILTER_MEDIAN")] ->
     trace (KeithleyAPI.set_filter dev enable type count w) =
       (log w ++
        [Write ("smua.measure.filter.type = smua." ++ type_str);
         Write ("smua.measure.filter.count = "
                ++ fmt_d (Z.max 1 (Z.min 100 count)));
         Write (if enable then "smua.measure.filter.enable = smua.FILTER_ON"
                else "smua.measure.filter.enable = smua.FILTER_OFF")])%list).
Proof.
  split.
  - intros H1 H2 H3.
    apply String.eqb_neq in H1. apply String.eqb_neq in H2.
    apply String.eqb_neq in H3.
    unfold KeithleyAPI.set_filter. now rewrite H1, H2, H3.
  - intros Hdev type_str Hin.
    assert (Hcount :
      forall (w1 : world Keithley.t) (k : Z -> M Keithley.t unit),
        (forall n w2, log (snd (k n w2)) =
                      (log w2 ++ [Write ("smua.measure.filter.count = "
                                         ++ fmt_d n);
                                  Write (if enable
                                         then "smua.measure.filter.enable = smua.FILTER_ON"
                                         else "smua.measure.filter.enable = smua.FILTER_OFF")])%list) ->
        log (snd (bind (if (count >? 100)%Z
                        then print "Specified filter count is more than the max. Setting to max." ;;
                             ret 100%Z
                        else ret count)
                       (fun c =>
                          bind (if (c <? 1)%Z
                                then print "Specified filter count is smaller than the min. Setting to min." ;;
                                     ret 1%Z
                                else ret c) k) w1)) =
        (log w1 ++ [Write ("smua.measure.filter.count = "
                           ++ fmt_d (Z.max 1 (Z.min 100 count)));
                    Write (if enable
                           then "smua.measure.filter.enable = smua.FILTER_ON"
                           else "smua.measure.filter.enable = smua.FILTER_OFF")])%list).
    { intros w1 k Hk.
      destruct (Z.gtb_spec count 100) as [Hhi | Hhi].
      - replace (Z.max 1 (Z.min 100 count)) with 100%Z by lia.
        unfold bind, print, ret. cbn. now rewrite Hk.
      - destruct (Z.ltb_spec count 1) as [Hlo | Hlo].
        + replace (Z.max 1 (Z.min 100 count)) with 1%Z by lia.
          unfold bind, print, ret. cbn.
          destruct (count <? 1)%Z eqn:E; [| apply Z.ltb_ge in E; lia].
          now rewrite Hk.
        + replace (Z.max 1 (Z.min 100 count)) with count by lia.
          unfold bind, print, ret. cbn.
          destruct (count <? 1)%Z eqn:E; [apply Z.ltb_lt in E; lia |].
          now rewrite Hk. }
    assert (Htail :
      forall n (w2 : world Keithley.t),
        log (snd ((write dev ("smua.measure.filter.count = " ++ fmt_d n) ;;
                   if enable
                   then write dev "smua.measure.filter.enable = smua.FILTER_ON"
                   else write dev "smua.measure.filter.enable = smua.FILTER_OFF")
                  w2)) =
        (log w2 ++ [Write ("smua.measure.filter.count = " ++ fmt_d n);
                    Write (if enable
                           then "smua.measure.filter.enable = smua.FILTER_ON"
                           else "smua.measure.filter.enable = smua.FILTER_OFF")])%list).
    { intros n w2. destruct enable; run_session Hdev;
        now rewrite <- app_assoc. }
    unfold KeithleyAPI.set_filter, trace.
    destruct Hin as [E | [E | [E | []]]]; injection E as <- <-;
      cbn [String.eqb Ascii.eqb Bool.eqb lift];
      unfold bind at 1; unfold ret at 1;
      unfold bind at 1; unfold write at 1; rewrite Hdev; unfold emit at 1;
      rewrite Hcount by apply Htail;
      cbn [log]; now rewrite <- app_assoc.
Qed.

Lemma keithley_set_filter_witness :
  trace (KeithleyAPI.set_filter mute true "median" 250
           (fresh (keithley false "VOLTS"))) =
    [Write "smua.measure.filter.type = smua.FILTER_MEDIAN";
     Write "smua.measure.filter.count = 100";
     Write "smua.measure.filter.enable = smua.FILTER_ON"]
  /\ KeithleyAPI.set_filter mute true "mean" 10 (fresh (keithley false "VOLTS"))
     = (Raise UnboundLocalError, fresh (keithley false "VOLTS")).
Proof.
  assert (Hw : writable mute) by (intros h cmd; reflexivity).
  split.
  - refine (proj2 (keithley_set_filter mute (fresh (keithley false "VOLTS"))
                     true "median" 250) Hw "FILTER_MEDIAN" _).
    simpl. auto.
  - refine (proj1 (keithley_set_filter mute (fresh (keithley false "VOLTS"))
                     true "mean" 10) _ _ _); discriminate.
Defined.

(** ** Calls that leave the output alone *)

Section KeithleyOutput.
Context `{Runtime} `{HP.Parser float}.
Variable dev : instrument.

Lemma quiet_pure {A} (m : M Keithley.t A) :
  (forall w, exists o out, m w = (o, {| self := self w; log := log w;
                                        stdout := out |})) ->
  leaves_output m.
Proof.
  intros Hm w o w' E. destruct (Hm w) as (o1 & out & E1).
  rewrite E1 in E. injection E as _ <-. cbn. split; [reflexivity |].
  exists []. rewrite app_nil_r. auto.
Qed.

Lemma quiet_ret {A} (a : A) : leaves_output (ret a).
Proof. apply quiet_pure. intros [s l out]. now exists (Ok a), out. Qed.

Lemma quiet_raise {A} (e : exn) : leaves_output (A:=A) (raise e).
Proof. apply quiet_pure. intros [s l out]. now exists (Raise e), out. Qed.

Lemma quiet_lift {A} (e : exn) (x : option A) : leaves_output (lift e x).
Proof. destruct x; [apply quiet_ret | apply quiet_raise]. Qed.

Lemma quiet_print (line : string) : leaves_output (print line).
Proof.
  apply quiet_pure. intros [s l out]. now exists (Ok tt), (out ++ [line])%list.
Qed.

Lemma quiet_get_self : leaves_output get_self.
Proof. apply quiet_pure. intros [s l out]. now exists (Ok s), out. Qed.

Lemma quiet_event (o : outcome unit) (w : world Keithley.t) (ev : event) :
  ev <> Write Keithley.OUTPUT_ON -> ev <> Write Keithley.OUTPUT_OFF ->
  exists l, (log w ++ [ev])%list = (log w ++ l)%list
            /\ ~ In (Write Keithley.OUTPUT_ON) l
            /\ ~ In (Write Keithley.OUTPUT_OFF) l.
Proof.
  intros Hon Hoff. exists [ev]. repeat split; intros [E | []]; auto.
Qed.

Lemma quiet_sleep (ms : Z) : leaves_output (sleep ms).
Proof.
  intros w o w' [= <- <-]. cbn. split; [reflexivity |].
  apply (quiet_event (Ok tt)); discriminate.
Qed.

Lemma quiet_query (cmd : string) : leaves_output (query dev cmd).
Proof.
  intros w o w'. unfold query.
  destruct (answers dev (log w) cmd); intros [= <- <-]; cbn.
  - split; [reflexivity |]. apply (quiet_event (Ok tt)); discriminate.
  - split; [reflexivity |]. exists []. rewrite app_nil_r. auto.
Qed.

Lemma quiet_write (cmd : string) :
  (cmd =? Keithley.OUTPUT_ON) = false ->
  (cmd =? Keithley.OUTPUT_OFF) = false ->
  leaves_output (write dev cmd).
Proof.
  intros Hon Hoff w o w'. unfold write, emit.
  apply String.eqb_neq in Hon. apply String.eqb_neq in Hoff.
  destruct (accepts dev (log w) cmd); intros [= <- <-]; cbn.
  - split; [reflexivity |]. apply (quiet_event (Ok tt)); congruence.
  - split; [reflexivity |]. exists []. rewrite app_nil_r. auto.
Qed.

Lemma quiet_bind {A B} (m : M Keithley.t A) (k : A -> M Keithley.t B) :
  leaves_output m -> (forall a, leaves_output (k a)) ->
  leaves_output (bind m k).
Proof.
  intros Hm Hk w o w' E.
  apply bind_inv in E as [(a & w1 & E1 & E2) | (e & E1 & _)].
  - destruct (Hm _ _ _ E1) as (On1 & l1 & L1 & N1 & F1).
    destruct (Hk a _ _ _ E2) as (On2 & l2 & L2 & N2 & F2).
    split; [congruence |].
    exists (l1 ++ l2)%list. rewrite L2, L1, app_assoc.
    repeat split; rewrite in_app_iff; tauto.
  - now apply (Hm _ _ _ E1).
Qed.

(** Assignments to attributes other than [is_on]. *)
Lemma quiet_set_attr (s' : Keithley.t -> Keithley.t) :
  (forall s, Keithley.is_on (s' s) = Keithley.is_on s) ->
  leaves_output (s <- get_self ;; set_self (s' s)).
Proof.
  intros Hs' w o w' [= <- <-]. cbn. split; [apply Hs' |].
  exists []. rewrite app_nil_r. auto.
Qed.
End KeithleyOutput.

Ltac quiet :=
  repeat first
    [ apply quiet_ret | apply quiet_raise | apply quiet_lift
    | apply quiet_print | apply quiet_get_self | apply quiet_sleep
    | apply quiet_query
    | apply quiet_write; reflexivity
    | apply quiet_set_attr; intros ?; reflexivity
    | apply quiet_bind; [| intros ?]
    | match goal with
      | |- leaves_output (if ?b then _ else _) => destruct b
      | |- leaves_output (match ?b with _ => _ end) => destruct b
      end ].

(** X6.  Only [turn_on], [turn_off], [set_voltage] and [set_current]
    switch the output.  Every other call - the source function, the
    compliance limits, the ranges, the measurement settings, the filter,
    the initialization sequence and the two measurements - leaves the
    tracked output flag as it was and sends no output command, on any
    instrument and whether it returns or raises. *)
Theorem keithley_settings_leave_output `{Runtime} `{HP.Parser float}
    (dev : instrument) (c : KeithleyAPI.call) (w : world Keithley.t) :
  switches_output c = false ->
  Keithley.is_on (final (KeithleyAPI.perform dev c w)) = Keithley.is_on (self w)
  /\ exists l,
       trace (KeithleyAPI.perform dev c w) = (log w ++ l)%list
       /\ ~ In (Write Keithley.OUTPUT_ON) l
       /\ ~ In (Write Keithley.OUTPUT_OFF) l.
Proof.
  intros Hc.
  assert (Q : leaves_output (KeithleyAPI.perform dev c)).
  { destruct c; try discriminate Hc; cbn [KeithleyAPI.perform];
      unfold Keithley.set_func, Keithley.set_mode,
        KeithleyAPI.init_function, Keithley.set_func, Keithley.set_mode,
        Keithley.set_voltage_compliance, Keithley.set_volt_compliance_attr,
        Keithley.set_current_compliance, Keithley.set_cur_compliance_attr,
        KeithleyAPI.measure_current,
        KeithleyAPI.measure_voltage, KeithleyAPI.set_voltage_range,
        KeithleyAPI.set_current_range, KeithleyAPI.set_measurement_delay,
        KeithleyAPI.set_measurement_interval,
        KeithleyAPI.set_measurement_integration, KeithleyAPI.set_filter;
      quiet. }
  unfold trace, final.
  destruct (KeithleyAPI.perform dev c w) as [o w'] eqn:E.
  exact (Q w o w' E).
Qed.

Lemma keithley_settings_leave_output_witness :
  Keithley.is_on
    (final (KeithleyAPI.perform (H0:=stub_float_Parser) mute
              KeithleyAPI.call_init_function (fresh (keithley true "AMPS"))))
  = true.
Proof.
  exact (proj1 (keithley_settings_leave_output (H0:=stub_float_Parser) mute
                  KeithleyAPI.call_init_function
                  (fresh (keithley true "AMPS")) eq_refl)).
Defined.

(* ================================================================== *)
(** * Agilent E3633A: the tracked output flag, levels and protection *)
(* ================================================================== *)

Lemma outp_replay_write (l : list event) (cmd : string) (on0 : bool) :
  outp_replay (l ++ [Write cmd]) on0 = outp_after (outp_replay l on0) cmd.
Proof.
  unfold outp_replay. rewrite writes_app. cbn. now rewrite fold_left_app.
Qed.

Lemma outp_replay_other (l : list event) (ev : event) (on0 : bool) :
  (forall cmd, ev <> Write cmd) ->
  outp_replay (l ++ [ev]) on0 = outp_replay l on0.
Proof.
  intros Hev. unfold outp_replay. rewrite writes_app.
  destruct ev; cbn; rewrite ?app_nil_r; auto.
  now destruct (Hev cmd).
Qed.

Section AgilentSync.
Context `{Runtime} `{HP.Parser float}.
Variable dev : instrument.
Variable on0 : bool.

Lemma outp_pure {A} (m : M Agilent.t A) :
  (forall w, exists o out, m w = (o, {| self := self w; log := log w;
                                        stdout := out |})) ->
  keeps_outp on0 m.
Proof.
  intros Hm w o w' E. destruct (Hm w) as (o1 & out & E1).
  rewrite E1 in E. injection E as _ <-. cbn. auto.
Qed.

Lemma outp_ret {A} (a : A) : keeps_outp on0 (ret a).
Proof. apply outp_pure. intros [s l out]. now exists (Ok a), out. Qed.

Lemma outp_raise {A} (e : exn) : keeps_outp (A:=A) on0 (raise e).
Proof. apply outp_pure. intros [s l out]. now exists (Raise e), out. Qed.

Lemma outp_lift {A} (e : exn) (x : option A) : keeps_outp on0 (lift e x).
Proof. destruct x; [apply outp_ret | apply outp_raise]. Qed.

Lemma outp_print (line : string) : keeps_outp on0 (print line).
Proof.
  apply outp_pure. intros [s l out]. now exists (Ok tt), (out ++ [line])%list.
Qed.

Lemma outp_get_self : keeps_outp on0 get_self.
Proof. apply outp_pure. intros [s l out]. now exists (Ok s), out. Qed.

Lemma outp_query (cmd : string) : keeps_outp on0 (query dev cmd).
Proof.
  intros w o w'. unfold query.
  destruct (answers dev (log w) cmd); intros [= <- <-]; cbn [log self]; auto.
  split; [reflexivity |]. rewrite outp_replay_other by discriminate. auto.
Qed.

Lemma outp_write (cmd : string) :
  (forall on, outp_after on cmd = on) -> keeps_outp on0 (write dev cmd).
Proof.
  intros Hn w o w'. unfold write, emit.
  destruct (accepts dev (log w) cmd); intros [= <- <-]; cbn [log self]; auto.
  split; [reflexivity |]. now rewrite outp_replay_write, Hn.
Qed.

Lemma outp_bind {A B} (m : M Agilent.t A) (k : A -> M Agilent.t B) :
  keeps_outp on0 m -> (forall a, keeps_outp on0 (k a)) ->
  keeps_outp on0 (bind m k).
Proof.
  intros Hm Hk w o w' E.
  apply bind_inv in E as [(a & w1 & E1 & E2) | (e & E1 & _)].
  - destruct (Hm _ _ _ E1) as (C1 & S1).
    destruct (Hk a _ _ _ E2) as (C2 & S2).
    split; [congruence | auto].
  - now apply (Hm _ _ _ E1).
Qed.

Lemma outp_turn_output_on : keeps_outp on0 (Agilent.turn_output_on dev).
Proof.
  intros w o w'. unfold Agilent.turn_output_on, Agilent.set_OUTPUT_on,
    write, emit, bind, get_self, set_self.
  destruct (accepts dev (log w) ":OUTP ON"); intros [= <- <-];
    cbn [log self Agilent.cur_limit Agilent.OUTPUT_on]; auto.
  split; [reflexivity |]. intros _. now rewrite outp_replay_write.
Qed.

Lemma outp_turn_output_off : keeps_outp on0 (Agilent.turn_output_off dev).
Proof.
  intros w o w'. unfold Agilent.turn_output_off, Agilent.set_OUTPUT_on,
    write, emit, bind, get_self, set_self.
  destruct (accepts dev (log w) ":OUTP OFF"); intros [= <- <-];
    cbn [log self Agilent.cur_limit Agilent.OUTPUT_on]; auto.
  split; [reflexivity |]. intros _. now rewrite outp_replay_write.
Qed.
End AgilentSync.

Ltac outp :=
  repeat first
    [ apply outp_ret | apply outp_raise | apply outp_lift | apply outp_print
    | apply outp_get_self | apply outp_query
    | apply outp_turn_output_on | apply outp_turn_output_off
    | apply outp_write; intros ?; reflexivity
    | apply outp_bind; [| intros ?]
    | match goal with
      | |- keeps_outp _ (if ?b then _ else _) => destruct b
      | |- keeps_outp _ (match ?b with _ => _ end) => destruct b
      end ].

Section AgilentProgram.
Context `{Runtime} `{HP.Parser float}.
Variable dev : instrument.
Variable on0 : bool.

Lemma outp_perform (c : AgilentAPI.call) :
  keeps_outp on0 (AgilentAPI.perform dev c).
Proof.
  destruct c; cbn [AgilentAPI.perform];
    unfold Agilent.set_volt_range, Agilent.measure_volt_range,
      Agilent.set_voltage, Agilent.set_current_limit,
      Agilent.set_volt_protection, Agilent.set_curr_protection,
      Agilent.measure_volt_range,
      AgilentAPI.error, AgilentAPI.measure_voltage,
      AgilentAPI.measure_current, AgilentAPI.meas_volt_protection,
      AgilentAPI.meas_curr_protection, AgilentAPI.clear_overvolt_condition,
      AgilentAPI.clear_overcurrent_condition;
    outp.
Qed.

Lemma outp_program (cs : list AgilentAPI.call) (w : world Agilent.t) :
  outp_replay (log w) on0 = Agilent.OUTPUT_on (self w) ->
  outp_replay (log (AgilentAPI.program dev cs w)) on0 =
    Agilent.OUTPUT_on (self (AgilentAPI.program dev cs w))
  /\ Agilent.cur_limit (self (AgilentAPI.program dev cs w)) =
     Agilent.cur_limit (self w).
Proof.
  revert w. induction cs as [| c cs IH]; intros w Hs; [auto |].
  cbn [AgilentAPI.program fold_left].
  destruct (AgilentAPI.perform dev c w) as [o w'] eqn:E.
  destruct (outp_perform c w o w' E) as (C & S).
  destruct (IH w' (S Hs)) as (S' & C'). cbn [snd].
  change (fold_left (fun w0 c0 => snd (AgilentAPI.perform dev c0 w0)) cs w')
    with (AgilentAPI.program dev cs w').
  split; [exact S' | now rewrite C'].
Qed.
End AgilentProgram.

(** X7.  However the instrument behaves, after any sequence of calls on
    an Agilent object, each exception caught by the caller, the tracked
    output flag is the one that the commands the instrument accepted
    imply; and the stored current limit is the one given at
    initialization, since no method assigns it - [set_current_limit]
    included. *)
Theorem agilent_tracking_in_sync `{Runtime} `{HP.Parser float}
    (dev : instrument) (s : Agilent.t) (cs : list AgilentAPI.call) :
  outp_replay (log (AgilentAPI.program dev cs (fresh s))) (Agilent.OUTPUT_on s)
  = Agilent.OUTPUT_on (self (AgilentAPI.program dev cs (fresh s)))
  /\ Agilent.cur_limit (self (AgilentAPI.program dev cs (fresh s)))
     = Agilent.cur_limit s.
Proof. apply (outp_program dev (Agilent.OUTPUT_on s) cs (fresh s)). reflexivity. Qed.

(** X8.  On an instrument that takes its commands, [set_voltage] leaves
    the output on whatever the voltage; a voltage within 0 to 20 is
    written first, and output-on follows only if the tracked flag was
    off. *)
Theorem agilent_set_voltage_energizes `{Runtime} (dev : instrument)
    (w : world Agilent.t) (voltage : float) :
  writable dev ->
  Agilent.OUTPUT_on (final (Agilent.set_voltage dev voltage w)) = true
  /\ (Agilent.between 0 20 voltage = true ->
      trace (Agilent.set_voltage dev voltage w) =
        (log w ++ Write (":SOUR:VOLT " ++ fmt_E 6 voltage)
               :: if Agilent.OUTPUT_on (self w) then []
                  else [Write ":OUTP ON"])%list).
Proof.
  intros Hdev.
  unfold Agilent.set_voltage, Agilent.turn_output_on, Agilent.set_OUTPUT_on,
    trace, final.
  destruct w as [[on lim] l out].
  destruct (Agilent.between 0 20 voltage); destruct on;
    run_session Hdev; (split; [reflexivity |]); intros E;
    try discriminate E; now rewrite <- ?app_assoc.
Qed.

Lemma agilent_set_voltage_energizes_witness :
  trace (Agilent.set_voltage mute 5%float (fresh (agilent false))) =
    [Write ":SOUR:VOLT <float>"; Write ":OUTP ON"].
Proof.
  assert (Hw : writable mute) by (intros h cmd; reflexivity).
  exact (proj2 (agilent_set_voltage_energizes mute (fresh (agilent false))
                  5%float Hw) eq_refl).
Defined.

(** X9.  [set_volt_protection] and [set_curr_protection] first ask the
    supply for its voltage range.  They write the level exactly when the
    answer is [P8V] or [P20V] and the level lies within the bounds of
    that range (voltage: 0-8.24 and 0-20.6; current: 0-20 and 0-10);
    otherwise - other answers included - the query is their only
    transaction.  When the query fails nothing else is sent. *)
Theorem agilent_protection_levels `{Runtime} (dev : instrument)
    (w : world Agilent.t) (level : float) :
  writable dev ->
  (forall volt_range,
      answers dev (log w) "VOLT:RANG?" = Some volt_range ->
      trace (Agilent.set_volt_protection dev level w) =
        (log w ++ Query "VOLT:RANG?" volt_range
               :: if volt_protection_valid volt_range level
                  then [Write ("VOLT:PROT:LEV  " ++ fmt_E 6 level)]
                  else [])%list
      /\ trace (Agilent.set_curr_protection dev level w) =
        (log w ++ Query "VOLT:RANG?" volt_range
               :: if curr_protection_valid volt_range level
                  then [Write ("CURR:PROT:LEV  " ++ fmt_E 6 level)]
                  else [])%list)
  /\
  (answers dev (log w) "VOLT:RANG?" = None ->
     Agilent.set_volt_protection dev level w = (Raise VisaIOError, w)
     /\ Agilent.set_curr_protection dev level w = (Raise VisaIOError, w)).
Proof.
  intros Hdev. split.
  - intros volt_range Hq.
    unfold Agilent.set_volt_protection, Agilent.set_curr_protection,
      Agilent.measure_volt_range, trace,
      volt_protection_valid, curr_protection_valid.
    unfold bind, query. rewrite Hq.
    destruct (String.eqb_spec volt_range "P8V") as [-> | N8].
    + cbn [String.eqb Ascii.eqb Bool.eqb andb orb].
      split.
      * destruct (Agilent.between 0 8.24 level); run_session Hdev;
          now rewrite <- ?app_assoc.
      * destruct (Agilent.between 0 20 level); run_session Hdev;
          now rewrite <- ?app_assoc.
    + destruct (String.eqb_spec volt_range "P20V") as [-> | N20];
        cbn [String.eqb Ascii.eqb Bool.eqb andb orb].
      * split.
        -- destruct (Agilent.between 0 20.6 level); run_session Hdev;
             now rewrite <- ?app_assoc.
        -- destruct (Agilent.between 0 10 level); run_session Hdev;
             now rewrite <- ?app_assoc.
      * cbn. auto.
  - intros Hq.
    unfold Agilent.set_volt_protection, Agilent.set_curr_protection,
      Agilent.measure_volt_range, bind, query.
    rewrite Hq. auto.
Qed.

Lemma agilent_protection_levels_witness :
  trace (Agilent.set_volt_protection (responder (fun _ => Some "P8V"))
           10%float (fresh (agilent false))) =
    [Query "VOLT:RANG?" "P8V"]
  /\ trace (Agilent.set_curr_protection (responder (fun _ => Some "P8V"))
              10%float (fresh (agilent false))) =
    [Query "VOLT:RANG?" "P8V"; Write "CURR:PROT:LEV  <float>"].
Proof.
  assert (Hw : writable (responder (fun _ => Some "P8V")))
    by (intros h cmd; reflexivity).
  exact (proj1 (agilent_protection_levels (responder (fun _ => Some "P8V"))
                  (fresh (agilent false)) 10%float Hw) "P8V" eq_refl).
Defined.

(** X10.  [set_current_limit] leaves the output off: it writes
    output-off only if the tracked flag is on, then the limit. *)
Theorem agilent_set_current_limit `{Runtime} (dev : instrument)
    (w : world Agilent.t) (current_limit : float) :
  writable dev ->
  trace (Agilent.set_current_limit dev current_limit w) =
    (log w ++ (if Agilent.OUTPUT_on (self w) then [Write ":OUTP OFF"] else [])
           ++ [Write (":SOUR:CURR " ++ fmt_E 6 current_limit)])%list
  /\ Agilent.OUTPUT_on (final (Agilent.set_current_limit dev current_limit w))
     = false.
Proof.
  intros Hdev.
  unfold Agilent.set_current_limit, Agilent.turn_output_off,
    Agilent.set_OUTPUT_on, trace, final.
  destruct w as [[on lim] l out].
  destruct on; run_session Hdev; now rewrite <- ?app_assoc.
Qed.

Lemma agilent_set_current_limit_witness :
  trace (Agilent.set_current_limit mute 1%float (fresh (agilent false))) =
    [Write ":SOUR:CURR <float>"].
Proof.
  assert (Hw : writable mute) by (intros h cmd; reflexivity).
  exact (proj1 (agilent_set_current_limit mute (fresh (agilent false))
                  1%float Hw)).
Defined.

(** X11.  [set_volt_range] writes the range command for the names [P8V]
    and [P20V] and for no other: any other name is answered by a
    message, whatever the instrument. *)
Theorem agilent_set_volt_range `{Runtime} (dev : instrument)
    (w : world Agilent.t) (volt_range : string) :
  (volt_range <> "P8V" -> volt_range <> "P20V" ->
     result (Agilent.set_volt_range dev volt_range w) = Ok tt
     /\ trace (Agilent.set_volt_range dev volt_range w) = log w)
  /\
  (writable dev ->
   volt_range = "P8V" \/ volt_range = "P20V" ->
     trace (Agilent.set_volt_range dev volt_range w) =
       (log w ++ [Write ("VOLT:RANG " ++ volt_range)])%list).
Proof.
  split.
  - intros H8 H20. apply String.eqb_neq in H8. apply String.eqb_neq in H20.
    unfold Agilent.set_volt_range. rewrite H8, H20. cbn. auto.
  - intros Hdev [-> | ->]; unfold Agilent.set_volt_range, trace;
      cbn [String.eqb Ascii.eqb Bool.eqb]; run_session Hdev; reflexivity.
Qed.

Lemma agilent_set_volt_range_witness :
  trace (Agilent.set_volt_range mute "P20V" (fresh (agilent false))) =
    [Write "VOLT:RANG P20V"]
  /\ trace (Agilent.set_volt_range mute "P15V" (fresh (agilent false))) = [].
Proof.
  assert (Hw : writable mute) by (intros h cmd; reflexivity).
  split.
  - exact (proj2 (agilent_set_volt_range mute (fresh (agilent false)) "P20V")
                 Hw (or_intror eq_refl)).
  - refine (proj2 (proj1 (agilent_set_volt_range mute (fresh (agilent false))
                            "P15V") _ _)); discriminate.
Defined.

(** ** Calls that never switch the output on *)

Section AgilentSafety.
Context `{Runtime} `{HP.Parser float}.
Variable dev : instrument.

Lemma calm_pure {A} (m : M Agilent.t A) :
  (forall w, exists o out, m w = (o, {| self := self w; log := log w;
                                        stdout := out |})) ->
  never_energizes m.
Proof.
  intros Hm w o w' E. destruct (Hm w) as (o1 & out & E1).
  rewrite E1 in E. injection E as _ <-. cbn. split; [auto |].
  exists []. rewrite app_nil_r. auto.
Qed.

Lemma calm_ret {A} (a : A) : never_energizes (ret a).
Proof. apply calm_pure. intros [s l out]. now exists (Ok a), out. Qed.

Lemma calm_raise {A} (e : exn) : never_energizes (A:=A) (raise e).
Proof. apply calm_pure. intros [s l out]. now exists (Raise e), out. Qed.

Lemma calm_lift {A} (e : exn) (x : option A) : never_energizes (lift e x).
Proof. destruct x; [apply calm_ret | apply calm_raise]. Qed.

Lemma calm_print (line : string) : never_energizes (print line).
Proof.
  apply calm_pure. intros [s l out]. now exists (Ok tt), (out ++ [line])%list.
Qed.

Lemma calm_get_self : never_energizes get_self.
Proof. apply calm_pure. intros [s l out]. now exists (Ok s), out. Qed.

Lemma calm_query (cmd : string) : never_energizes (query dev cmd).
Proof.
  intros w o w'. unfold query.
  destruct (answers dev (log w) cmd) as [r |]; intros [= <- <-]; cbn.
  - split; [auto |]. exists [Query cmd r]. split; [reflexivity |].
    intros [E | []]. discriminate E.
  - split; [auto |]. exists []. rewrite app_nil_r. auto.
Qed.

Lemma calm_write (cmd : string) :
  (cmd =? ":OUTP ON") = false -> never_energizes (write dev cmd).
Proof.
  intros Hon w o w'. unfold write, emit. apply String.eqb_neq in Hon.
  destruct (accepts dev (log w) cmd); intros [= <- <-]; cbn.
  - split; [auto |]. exists [Write cmd]. split; [reflexivity |].
    intros [E | []]. congruence.
  - split; [auto |]. exists []. rewrite app_nil_r. auto.
Qed.

Lemma calm_bind {A B} (m : M Agilent.t A) (k : A -> M Agilent.t B) :
  never_energizes m -> (forall a, never_energizes (k a)) ->
  never_energizes (bind m k).
Proof.
  intros Hm Hk w o w' E.
  apply bind_inv in E as [(a & w1 & E1 & E2) | (e & E1 & _)].
  - destruct (Hm _ _ _ E1) as (On1 & l1 & L1 & N1).
    destruct (Hk a _ _ _ E2) as (On2 & l2 & L2 & N2).
    split; [auto |].
    exists (l1 ++ l2)%list. rewrite L2, L1, app_assoc.
    split; [reflexivity |]. rewrite in_app_iff. tauto.
  - now apply (Hm _ _ _ E1).
Qed.

Lemma calm_turn_output_off : never_energizes (Agilent.turn_output_off dev).
Proof.
  intros w o w'. unfold Agilent.turn_output_off, Agilent.set_OUTPUT_on,
    write, emit, bind, get_self, set_self.
  destruct (accepts dev (log w) ":OUTP OFF"); intros [= <- <-]; cbn.
  - split; [discriminate |]. exists [Write ":OUTP OFF"].
    split; [reflexivity |]. intros [E | []]. discriminate E.
  - split; [auto |]. exists []. rewrite app_nil_r. auto.
Qed.
End AgilentSafety.

Ltac calm :=
  repeat first
    [ apply calm_ret | apply calm_raise | apply calm_lift | apply calm_print
    | apply calm_get_self | apply calm_query | apply calm_turn_output_off
    | apply calm_write; reflexivity
    | apply calm_bind; [| intros ?]
    | match goal with
      | |- never_energizes (if ?b then _ else _) => destruct b
      | |- never_energizes (match ?b with _ => _ end) => destruct b
      end ].

(** X22.  Only [turn_output_on] and [set_voltage] switch the output of
    the supply on.  No other call - [set_current_limit], the range and
    protection setters, the clear commands, the measurements - sends the
    output-on command or sets the tracked flag, on any instrument and
    whether the call returns or raises. *)
Theorem agilent_only_two_calls_energize `{Runtime} `{HP.Parser float}
    (dev : instrument) (c : AgilentAPI.call) (w : world Agilent.t) :
  energizes c = false ->
  (Agilent.OUTPUT_on (final (AgilentAPI.perform dev c w)) = true ->
   Agilent.OUTPUT_on (self w) = true)
  /\ exists l,
       trace (AgilentAPI.perform dev c w) = (log w ++ l)%list
       /\ ~ In (Write ":OUTP ON") l.
Proof.
  intros Hc.
  assert (Q : never_energizes (AgilentAPI.perform dev c)).
  { destruct c; try discriminate Hc; cbn [AgilentAPI.perform];
      unfold Agilent.set_volt_range, Agilent.measure_volt_range,
        Agilent.set_current_limit,
        Agilent.set_volt_protection, Agilent.set_curr_protection,
        Agilent.measure_volt_range,
        AgilentAPI.error, AgilentAPI.measure_voltage,
        AgilentAPI.measure_current, AgilentAPI.meas_volt_protection,
        AgilentAPI.meas_curr_protection, AgilentAPI.clear_overvolt_condition,
        AgilentAPI.clear_overcurrent_condition;
      calm. }
  unfold trace, final.
  destruct (AgilentAPI.perform dev c w) as [o w'] eqn:E.
  exact (Q w o w' E).
Qed.

Lemma agilent_only_two_calls_energize_witness :
  exists l,
    trace (AgilentAPI.perform (H0:=stub_float_Parser) mute
             (AgilentAPI.set_current_limit 1%float) (fresh (agilent true)))
    = ([] ++ l)%list
    /\ ~ In (Write ":OUTP ON") l.
Proof.
  exact (proj2 (agilent_only_two_calls_energize (H0:=stub_float_Parser) mute
                  (AgilentAPI.set_current_limit 1%float)
                  (fresh (agilent true)) eq_refl)).
Defined.

(* ================================================================== *)
(** * Bus discovery: which scans return and what they return *)
(* ================================================================== *)

(** [split] makes one cut per separator until [maxsplit] cuts are made. *)
Lemma split_length (sep : ascii) (maxsplit : nat) (s : string) :
  List.length (Py.split sep maxsplit s) =
  S (Nat.min (count_char sep s) maxsplit).
Proof.
  revert maxsplit. induction s as [| c s IH]; intros maxsplit; [reflexivity |].
  cbn [Py.split count_char].
  destruct (Ascii.eqb c sep).
  - destruct maxsplit as [| k]; cbn [List.length Nat.add].
    + now rewrite Nat.min_0_r.
    + rewrite IH. reflexivity.
  - cbn [Nat.add]. specialize (IH maxsplit).
    destruct (Py.split sep maxsplit s); [discriminate IH | exact IH].
Qed.

Section ScanFacts.
Variable rm : Discovery.resource_manager.
Variables driver pattern : string.

(** The loop body raises [ValueError] exactly for a candidate that
    answers with a text that has not three commas once its trailing
    whitespace is dropped. *)
Lemma identify_ValueError (spec : string) :
  Discovery.identify rm driver pattern spec = Raise ValueError <->
  exists idn, identifies_as rm spec idn
              /\ count_char "," (Py.rstrip idn) <> 3%nat.
Proof.
  unfold Discovery.identify, identifies_as.
  destruct (Discovery.open_resource rm spec) as [inst |].
  2:{ split; [intros E; discriminate E |].
      intros (idn & (i & E & _) & _); discriminate E. }
  destruct (answers inst [] "*IDN?") as [idn |] eqn:Ea.
  2:{ split; [intros E; discriminate E |].
      intros (idn & (i & [= <-] & E) & _). rewrite Ea in E. discriminate E. }
  pose proof (split_length "," 4 (Py.rstrip idn)) as L.
  split.
  - intros E. exists idn. split; [now exists inst |].
    intros C. rewrite C in L. cbn in L.
    destruct (Py.split "," 4 (Py.rstrip idn))
      as [| a [| b [| c [| d [| e l]]]]]; try discriminate L.
    destruct (Py.re_match pattern b); discriminate E.
  - intros (idn' & (i & [= <-] & E) & C).
    rewrite Ea in E. injection E as <-.
    destruct (Py.split "," 4 (Py.rstrip idn))
      as [| a [| b [| c [| d [| e l]]]]]; try reflexivity.
    exfalso. apply C. cbn in L. lia.
Qed.

(** It raises nothing but [VisaIOError] and [ValueError]. *)
Lemma identify_raises (spec : string) (e : exn) :
  Discovery.identify rm driver pattern spec = Raise e ->
  e = VisaIOError \/ e = ValueError.
Proof.
  unfold Discovery.identify.
  destruct (Discovery.open_resource rm spec) as [inst |];
    [| intros [= <-]; auto].
  destruct (answers inst [] "*IDN?") as [idn |]; [| intros [= <-]; auto].
  destruct (Py.split "," 4 (Py.rstrip idn))
    as [| a [| b [| c [| d [| e' l]]]]]; try (intros [= <-]; auto).
  destruct (Py.re_match pattern b); discriminate.
Qed.

(** A descriptor that the loop body returns describes its candidate. *)
Lemma identify_Some (spec : string) (p : Discovery.ParamSet) :
  Discovery.identify rm driver pattern spec = Ok (Some p) ->
  Discovery.visa_address p = spec
  /\ Discovery.cls p = driver
  /\ Py.re_match pattern (Discovery.model p) = true
  /\ exists idn, identifies_as rm spec idn
                 /\ Py.split "," 4 (Py.rstrip idn) =
                    [Discovery.manufacturer p; Discovery.model p;
                     Discovery.serial p; Discovery.version p].
Proof.
  unfold Discovery.identify, identifies_as.
  destruct (Discovery.open_resource rm spec) as [inst |]; [| discriminate].
  destruct (answers inst [] "*IDN?") as [idn |] eqn:Ea; [| discriminate].
  destruct (Py.split "," 4 (Py.rstrip idn))
    as [| a [| b [| c [| d [| e' l]]]]] eqn:Es; try discriminate.
  destruct (Py.re_match pattern b) eqn:Em; [| discriminate].
  intros [= <-]. cbn. repeat split; auto.
  exists idn. split; [now exists inst | exact Es].
Qed.

(** The candidates split into those before the first one that raises
    [ValueError], or none raises it. *)
Lemma first_ValueError (specs : list string) :
  (forall spec e, In spec specs ->
                  Discovery.identify rm driver pattern spec = Raise e ->
                  e = VisaIOError)
  \/ exists before spec after,
       specs = (before ++ spec :: after)%list
       /\ (forall s e, In s before ->
                       Discovery.identify rm driver pattern s = Raise e ->
                       e = VisaIOError)
       /\ Discovery.identify rm driver pattern spec = Raise ValueError.
Proof.
  induction specs as [| s rest IH].
  - left. intros spec e [].
  - destruct (Discovery.identify rm driver pattern s) as [r | e] eqn:E.
    + destruct IH as [IH | (before & spec & after & -> & Hb & Hv)].
      * left. intros spec e [<- | Hin] Er; [congruence | eauto].
      * right. exists (s :: before), spec, after. repeat split; auto.
        intros s' e [<- | Hin] Er; [congruence | eauto].
    + destruct (identify_raises s e E) as [-> | ->].
      * destruct IH as [IH | (before & spec & after & -> & Hb & Hv)].
        -- left. intros spec e [<- | Hin] Er; [congruence | eauto].
        -- right. exists (s :: before), spec, after. repeat split; auto.
           intros s' e [<- | Hin] Er; [congruence | eauto].
      * right. exists [], s, rest. repeat split; auto. intros s' e [].
Qed.

Lemma scan_raises_iff :
  (exists e, Discovery.scan rm driver pattern = Raise e) <->
  exists spec idn,
    In spec (Discovery.list_resources rm "GPIB?*")
    /\ identifies_as rm spec idn
    /\ count_char "," (Py.rstrip idn) <> 3%nat.
Proof.
  unfold Discovery.scan.
  destruct (first_ValueError (Discovery.list_resources rm "GPIB?*"))
    as [Hio | (before & spec & after & Es & Hb & Hv)].
  - rewrite (scan_loop_skips rm driver pattern _ [] Hio). split.
    + intros (e & E). discriminate E.
    + intros (spec & idn & Hin & Hid & Hc).
      assert (Ev : Discovery.identify rm driver pattern spec = Raise ValueError)
        by (apply identify_ValueError; eauto).
      specialize (Hio spec ValueError Hin Ev). discriminate Hio.
  - rewrite Es, (scan_loop_aborts rm driver pattern before after spec [] Hb Hv).
    split; [| now exists ValueError].
    intros _. apply identify_ValueError in Hv as (idn & Hid & Hc).
    exists spec, idn. repeat split; auto.
    rewrite in_app_iff. right. now left.
Qed.

Lemma scan_raises_ValueError (e : exn) :
  Discovery.scan rm driver pattern = Raise e -> e = ValueError.
Proof.
  unfold Discovery.scan.
  destruct (first_ValueError (Discovery.list_resources rm "GPIB?*"))
    as [Hio | (before & spec & after & Es & Hb & Hv)].
  - rewrite (scan_loop_skips rm driver pattern _ [] Hio). discriminate.
  - rewrite Es, (scan_loop_aborts rm driver pattern before after spec [] Hb Hv).
    now intros [= <-].
Qed.

Lemma scan_returns (ps : list Discovery.ParamSet) :
  Discovery.scan rm driver pattern = Ok ps ->
  ps = flat_map (Discovery.matching rm driver pattern)
                (Discovery.list_resources rm "GPIB?*").
Proof.
  unfold Discovery.scan.
  destruct (first_ValueError (Discovery.list_resources rm "GPIB?*"))
    as [Hio | (before & spec & after & Es & Hb & Hv)].
  - rewrite (scan_loop_skips rm driver pattern _ [] Hio). now intros [= <-].
  - rewrite Es, (scan_loop_aborts rm driver pattern before after spec [] Hb Hv).
    discriminate.
Qed.
End ScanFacts.

(** X12.  [list_instruments] (of either module: [Discovery.scan] at its
    driver name and model pattern) raises exactly when some listed
    address opens and answers [*IDN?] with a text that, trailing
    whitespace dropped, has not exactly three commas; the exception is
    then [ValueError].  Addresses that cannot be opened or do not answer
    never make it raise. *)
Theorem list_instruments_raises_iff (rm : Discovery.resource_manager)
    (driver pattern : string) :
  ((exists e, Discovery.scan rm driver pattern = Raise e) <->
   exists spec idn,
     In spec (Discovery.list_resources rm "GPIB?*")
     /\ identifies_as rm spec idn
     /\ count_char "," (Py.rstrip idn) <> 3%nat)
  /\ forall e, Discovery.scan rm driver pattern = Raise e -> e = ValueError.
Proof.
  split; [apply scan_raises_iff | apply scan_raises_ValueError].
Qed.

Lemma list_instruments_raises_iff_witness :
  exists spec idn,
    In spec (Discovery.list_resources odd_bench "GPIB?*")
    /\ identifies_as odd_bench spec idn
    /\ count_char "," (Py.rstrip idn) <> 3%nat.
Proof.
  apply (proj1 (proj1 (list_instruments_raises_iff odd_bench
                         "AgilentE3633A" "E3633A"))).
  exists ValueError. reflexivity.
Defined.

Section ScanExact.
Variable rm : Discovery.resource_manager.
Variables driver pattern : string.

Lemma identify_describes (spec : string) (p : Discovery.ParamSet) :
  Discovery.identify rm driver pattern spec = Ok (Some p) ->
  describes rm driver pattern spec p.
Proof.
  intros E. destruct (identify_Some rm driver pattern spec p E)
    as (Ha & Hc & Hm & idn & Hi & Hs).
  exists idn. auto.
Qed.

Lemma identify_unmatched (spec : string) :
  Discovery.identify rm driver pattern spec = Ok None
  \/ Discovery.identify rm driver pattern spec = Raise VisaIOError ->
  unmatched rm pattern spec.
Proof.
  unfold Discovery.identify, unmatched, identifies_as.
  destruct (Discovery.open_resource rm spec) as [inst |]; [| auto].
  destruct (answers inst [] "*IDN?") as [idn |] eqn:Ea;
    [| intros _; right; left; now exists inst].
  destruct (Py.split "," 4 (Py.rstrip idn))
    as [| a [| b [| c [| d [| e' l]]]]] eqn:Es;
    try (intros [E | E]; discriminate E).
  destruct (Py.re_match pattern b) eqn:Em;
    [intros [E | E]; discriminate E |].
  intros _. right. right. exists idn, a, b, c, d.
  repeat split; auto. now exists inst.
Qed.

Lemma scan_loop_scanned (specs : list string) :
  (forall spec, In spec specs ->
                Discovery.identify rm driver pattern spec <> Raise ValueError) ->
  scanned rm driver pattern specs
          (flat_map (Discovery.matching rm driver pattern) specs).
Proof.
  induction specs as [| spec rest IH]; intros Hok; [constructor |].
  cbn [flat_map]. unfold Discovery.matching at 1.
  assert (Hrest : scanned rm driver pattern rest
                    (flat_map (Discovery.matching rm driver pattern) rest))
    by (apply IH; intros s Hs; apply Hok; now right).
  destruct (Discovery.identify rm driver pattern spec) as [[p |] | e] eqn:E.
  - apply scanned_match; [now apply identify_describes | exact Hrest].
  - apply scanned_skip; [apply identify_unmatched; auto | exact Hrest].
  - destruct (identify_raises rm driver pattern spec e E) as [-> | ->].
    + apply scanned_skip; [apply identify_unmatched; auto | exact Hrest].
    + destruct (Hok spec (or_introl eq_refl) E).
Qed.

Lemma scan_scanned (ps : list Discovery.ParamSet) :
  Discovery.scan rm driver pattern = Ok ps ->
  scanned rm driver pattern (Discovery.list_resources rm "GPIB?*") ps.
Proof.
  intros E. pose proof (scan_returns rm driver pattern ps E) as ->.
  apply scan_loop_scanned. intros spec Hin Ev.
  assert (R : exists e, Discovery.scan rm driver pattern = Raise e).
  { apply scan_raises_iff.
    apply identify_ValueError in Ev as (idn & Hid & Hc). eauto. }
  destruct R as (e & R). rewrite R in E. discriminate E.
Qed.
Lemma identifies_as_functional (spec idn idn' : string) :
  identifies_as rm spec idn -> identifies_as rm spec idn' -> idn = idn'.
Proof.
  intros (i & Ho & Ha) (i' & Ho' & Ha'). congruence.
Qed.

(** A candidate has at most one descriptor. *)
Lemma describes_functional (spec : string) (p q : Discovery.ParamSet) :
  describes rm driver pattern spec p -> describes rm driver pattern spec q ->
  p = q.
Proof.
  intros (idn & Hi & Hs & _ & Ha & Hc) (idn' & Hi' & Hs' & _ & Ha' & Hc').
  pose proof (identifies_as_functional _ _ _ Hi Hi') as <-.
  destruct p, q. cbn in *. congruence.
Qed.

(** A candidate with a descriptor is not one without. *)
Lemma describes_not_unmatched (spec : string) (p : Discovery.ParamSet) :
  describes rm driver pattern spec p -> ~ unmatched rm pattern spec.
Proof.
  intros (idn & Hi & Hs & Hm & _) [Ho | [(i & Ho & Ha) | (idn' & a & b & c & d & Hi' & Hs' & Hm')]].
  - destruct Hi as (i & Ho' & _). congruence.
  - destruct Hi as (i' & Ho' & Ha'). congruence.
  - pose proof (identifies_as_functional _ _ _ Hi Hi') as <-.
    rewrite Hs in Hs'. injection Hs' as _ Hb _ _. congruence.
Qed.

(** The candidates determine the list of descriptors. *)
Lemma scanned_functional (specs : list string)
      (ps qs : list Discovery.ParamSet) :
  scanned rm driver pattern specs ps -> scanned rm driver pattern specs qs ->
  ps = qs.
Proof.
  intros Hp. revert qs.
  induction Hp as [| spec specs p ps Hd _ IH | spec specs ps Hu _ IH];
    intros qs Hq; inversion Hq; subst.
  - reflexivity.
  - f_equal; [eapply describes_functional; eassumption | now apply IH].
  - exfalso. eapply describes_not_unmatched; eassumption.
  - exfalso. eapply describes_not_unmatched; eassumption.
  - now apply IH.
Qed.
End ScanExact.

(** X13.  When [list_instruments] returns, the list holds exactly the
    descriptors of the listed addresses whose instrument answers with
    four fields of which the second starts with the model pattern, in
    bus order: every such address contributes its descriptor, every
    other address - one that cannot be opened, does not answer, or
    answers with another model - contributes nothing; no other list
    stands in this relation to the bus.  Each descriptor
    carries its address, the driver name and the four fields of the
    answer as manufacturer, model, serial and version. *)
Theorem list_instruments_descriptors (rm : Discovery.resource_manager)
    (driver pattern : string) (ps : list Discovery.ParamSet) :
  Discovery.scan rm driver pattern = Ok ps ->
  scanned rm driver pattern (Discovery.list_resources rm "GPIB?*") ps
  /\ (forall qs,
        scanned rm driver pattern (Discovery.list_resources rm "GPIB?*") qs ->
        qs = ps)
  /\ forall p, In p ps ->
       In (Discovery.visa_address p) (Discovery.list_resources rm "GPIB?*")
       /\ Discovery.cls p = driver
       /\ Py.re_match pattern (Discovery.model p) = true
       /\ exists idn,
            identifies_as rm (Discovery.visa_address p) idn
            /\ Py.split "," 4 (Py.rstrip idn) =
               [Discovery.manufacturer p; Discovery.model p;
                Discovery.serial p; Discovery.version p].
Proof.
  intros E. split; [now apply scan_scanned |].
  split.
  { intros qs Hq. eapply scanned_functional; [exact Hq |].
    now apply scan_scanned. }
  apply scan_returns in E.
  intros p Hin. rewrite E in Hin. apply in_flat_map in Hin as (spec & Hs & Hp).
  unfold Discovery.matching in Hp.
  destruct (Discovery.identify rm driver pattern spec) as [[q |] | e] eqn:Ei;
    try contradiction.
  destruct Hp as [<- | []].
  destruct (identify_Some rm driver pattern spec q Ei) as (Ha & Hc & Hm & Hi).
  rewrite Ha. auto.
Qed.

Lemma list_instruments_descriptors_witness :
  scanned bench "AgilentE3633A" "E3633A"
    (Discovery.list_resources bench "GPIB?*")
    [{| Discovery.cls := "AgilentE3633A";
        Discovery.visa_address := "GPIB0::5::INSTR";
        Discovery.manufacturer := "HEWLETT-PACKARD";
        Discovery.serial := "0";
        Discovery.model := "E3633A";
        Discovery.version := "1.7-5.0-1.0" |}].
Proof.
  exact (proj1 (list_instruments_descriptors bench "AgilentE3633A" "E3633A"
                  _ eq_refl)).
Defined.

(* ================================================================== *)
(** * Ibsen Eagle: identification, initialization, responses *)
(* ================================================================== *)

(** X14.  [_check_visa_support] never raises.  It answers ['Eagle'] and
    leaves the Eagle settings (carriage-return terminations, 921600
    baud) in place exactly when the instrument identifies itself as
    [JETI_PIC_VERSA]; for any other answer, and when the query fails, it
    answers [None] with the termination characters and the baud rate it
    found restored. *)
Theorem ibsen_check_visa_support (dev : instrument)
    (w : world IbsenAPI.visa_rsrc) :
  (answers dev (log w) "*IDN?" = Some "JETI_PIC_VERSA" ->
     result (IbsenAPI._check_visa_support dev w) = Ok (Some "Eagle")
     /\ final (IbsenAPI._check_visa_support dev w) = IbsenAPI.eagle_settings)
  /\
  (answers dev (log w) "*IDN?" <> Some "JETI_PIC_VERSA" ->
     result (IbsenAPI._check_visa_support dev w) = Ok None
     /\ final (IbsenAPI._check_visa_support dev w) = self w).
Proof.
  unfold IbsenAPI._check_visa_support, try_except, result, final,
    bind, get_self, set_self, query, ret.
  cbn [log self stdout fst snd]. split.
  - intros ->. cbn. auto.
  - intros Hne.
    destruct (answers dev (log w) "*IDN?") as [idn |]; cbn; auto.
    destruct (String.eqb_spec idn "JETI_PIC_VERSA") as [-> | _];
      [now destruct Hne | cbn; auto].
Qed.

Lemma ibsen_check_visa_support_witness :
  result (IbsenAPI._check_visa_support mute
            (fresh {| IbsenAPI.read_termination := String "010" "";
                      IbsenAPI.write_termination := String "010" "";
                      IbsenAPI.baud_rate := 9600 |})) = Ok None
  /\ final (IbsenAPI._check_visa_support mute
              (fresh {| IbsenAPI.read_termination := String "010" "";
                        IbsenAPI.write_termination := String "010" "";
                        IbsenAPI.baud_rate := 9600 |}))
     = {| IbsenAPI.read_termination := String "010" "";
          IbsenAPI.write_termination := String "010" "";
          IbsenAPI.baud_rate := 9600 |}.
Proof.
  refine (proj2 (ibsen_check_visa_support mute _) _). discriminate.
Defined.

Lemma bind_ok_inv {S A B} (m : M S A) (k : A -> M S B)
      (w w2 : world S) (b : B) :
  bind m k w = (Ok b, w2) ->
  exists a w1, m w = (Ok a, w1) /\ k a w1 = (Ok b, w2).
Proof.
  intros E. apply bind_inv in E as [E | (e & _ & E)]; [exact E | discriminate E].
Qed.

Section EagleInitialize.
Context {N : Type} `{Arith N} `{HP.Parser N}.
Variable dev : instrument.








End EagleInitialize.




(* ------------------------------------------------------------------ *)

Lemma split_ws_from_nil (cur s : string) :
  Py.split_ws_from cur s = [] <-> cur = "" /\ blank s = true.
Proof.
  revert cur. induction s as [| c s IH]; intros cur; cbn.
  - destruct (String.eqb_spec cur ""); split;
      try tauto; try discriminate; intros [? _]; contradiction.
  - destruct (Py.is_space c); cbn [andb].
    + destruct (String.eqb_spec cur "").
      * rewrite IH. tauto.
      * split; [discriminate | intros [? _]; contradiction].
    + rewrite IH. split; [| intros [_ F]; discriminate F].
      intros [F _]. destruct cur; discriminate F.
Qed.

(** X16.  The counts of a response.  A response of whitespace only
    raises [IndexError] and nothing else does; any other failure is the
    [ValueError] of a token that is not an integer.  A list of counts
    that is returned has one entry per token, less one if the first
    token has at most two characters. *)
Theorem eagle_counts_edges (read : string) :
  (Ibsen.spectrum_counts read = Raise IndexError <-> blank read = true)
  /\ (forall e, Ibsen.spectrum_counts read = Raise e ->
                e = IndexError \/ e = ValueError)
  /\ (forall first rest zs,
        Py.split_ws read = first :: rest ->
        Ibsen.spectrum_counts read = Ok zs ->
        List.length zs =
        (List.length rest
         + if (String.length first <=? 2)%nat then 0 else 1)%nat).
Proof.
  unfold Ibsen.spectrum_counts, Ibsen.reconstruct.
  split; [| split].
  - destruct (Py.split_ws read) as [| first rest] eqn:Es.
    + apply split_ws_from_nil in Es as [_ Hb]. tauto.
    + split.
      * intros E. apply ints_raises in E. discriminate E.
      * intros Hb.
        assert (Hn : Py.split_ws read = [])
          by (apply split_ws_from_nil; auto).
        rewrite Hn in Es. discriminate Es.
  - intros e. destruct (Py.split_ws read) as [| first rest].
    + intros [= <-]. auto.
    + intros E. right. now apply ints_raises in E.
  - intros first rest zs ->.
    assert (Hlen : (Py.slice_from 2 first =? "") =
                   (String.length first <=? 2)%nat).
    { destruct first as [| c1 [| c2 [| c3 s]]]; reflexivity. }
    rewrite Hlen.
    destruct (String.length first <=? 2)%nat; cbn [negb]; intros E;
      apply ints_spec in E; apply Forall2_length in E; cbn in E; lia.
Qed.

Lemma eagle_counts_edges_witness :
  List.length [34; 56]%Z =
  (List.length ["34"; "56"]
   + if (String.length "OK" <=? 2)%nat then 0 else 1)%nat.
Proof.
  exact (proj2 (proj2 (eagle_counts_edges "OK 34 56")) "OK" ["34"; "56"]
               [34; 56]%Z eq_refl eq_refl).
Defined.

(* ================================================================== *)
(** * HP 70951B: sweeps and peak searches *)
(* ================================================================== *)

Section LinspaceShape.
Context {N : Type} `{Arith N}.

Lemma set_last_length (y : list N) (v : N) :
  List.length (Np.set_last y v) = List.length y.
Proof.
  destruct y as [| a y]; [reflexivity |].
  unfold Np.set_last. rewrite length_app.
  assert (E : a :: y <> []) by discriminate.
  destruct (exists_last E) as (l & x & ->).
  rewrite removelast_last, length_app. reflexivity.
Qed.

Lemma set_last_last (y : list N) (v d : N) :
  y <> [] -> last (Np.set_last y v) d = v.
Proof.
  destruct y as [| a y]; [congruence |]. intros _.
  unfold Np.set_last. apply last_last.
Qed.

Lemma linspace_length (start stop : N) (num : nat) :
  List.length (Np.linspace start stop num) = num.
Proof.
  unfold Np.linspace, Np.arange.
  repeat match goal with
         | |- context [if ?b then _ else _] => destruct b
         end;
    rewrite ?set_last_length, ?length_map, ?length_seq; reflexivity.
Qed.

Lemma linspace_last (start stop d : N) (num : nat) :
  (2 <= num)%nat -> last (Np.linspace start stop num) d = stop.
Proof.
  intros Hn. unfold Np.linspace.
  destruct (Nat.ltb_spec 1 num) as [_ | Hlt]; [| lia].
  apply set_last_last. intros E. apply (f_equal (@List.length N)) in E.
  unfold Np.arange in E.
  repeat match type of E with
         | context [if ?b then _ else _] => destruct b
         end;
    rewrite ?length_map, ?length_seq in E; cbn in E; lia.
Qed.
End LinspaceShape.

(** X17.  In any arithmetic - binary64 included - the span axis has
    exactly the requested number of points (none for a count of zero),
    and from two points on its last point is [center + span/2] itself,
    not a rounded sum of steps. *)
Theorem span_axis_points {N : Type} `{Arith N} (center span d : N) (n : nat) :
  List.length (HP.span_axis center span n) = n
  /\ ((2 <= n)%nat ->
      last (HP.span_axis center span n) d = add center (div span (of_Z 2))).
Proof.
  unfold HP.span_axis. split.
  - apply linspace_length.
  - intros Hn. now apply linspace_last.
Qed.

Lemma span_axis_points_witness :
  last (HP.span_axis 0.1%float 0.3%float 4) 0%float
  = PrimFloat.add 0.1 (PrimFloat.div 0.3 2).
Proof.
  assert (Hn : (2 <= 4)%nat) by lia.
  exact (proj2 (span_axis_points 0.1%float 0.3%float 0%float 4) Hn).
Defined.

Section Steps.
Context {S : Type}.
Variable dev : instrument.

Lemma write_ok_inv (cmd : string) (w w' : world S) (u : unit) :
  write dev cmd w = (Ok u, w') ->
  self w' = self w /\ log w' = (log w ++ [Write cmd])%list.
Proof.
  unfold write, emit. destruct (accepts dev (log w) cmd); [| discriminate].
  now intros [= _ <-].
Qed.

Lemma query_ok_inv (cmd r : string) (w w' : world S) :
  query dev cmd w = (Ok r, w') ->
  self w' = self w /\ log w' = (log w ++ [Query cmd r])%list.
Proof.
  unfold query. destruct (answers dev (log w) cmd); [| discriminate].
  now intros [= <- <-].
Qed.

Lemma lift_ok_inv {A} (e : exn) (x : option A) (a : A) (w w' : world S) :
  lift e x w = (Ok a, w') -> x = Some a /\ w' = w.
Proof. destruct x; [now intros [= <- <-] | discriminate]. Qed.
End Steps.

Section Sweep.
Context {N : Type} `{Arith N} `{HP.Parser N}.
Variable dev : instrument.

Lemma get_amplitude_units_ok (au : HP.unit_) (w w' : world HP.rsrc) :
  HP.get_amplitude_units dev w = (Ok au, w') ->
  exists au_str,
    amplitude_unit_of au_str = Some au
    /\ self w' = self w
    /\ log w' = (log w ++ [Query "AUNITS?" au_str])%list.
Proof.
  unfold HP.get_amplitude_units. intros E.
  apply bind_ok_inv in E as (a & w1 & E1 & E).
  apply query_ok_inv in E1 as (S1 & L1).
  exists a. unfold amplitude_unit_of.
  destruct (a =? "W"); [injection E as <- <-; auto |].
  destruct (a =? "MW"); [injection E as <- <-; auto |].
  destruct (a =? "DBM"); [injection E as <- <-; auto | discriminate E].
Qed.

Lemma get_center_wavelength_ok (x : N) (w w' : world HP.rsrc) :
  HP.get_center_wavelength dev w = (Ok x, w') ->
  exists r cf,
    HP.float_of r = Some cf /\ x = HP.m_to_nm cf
    /\ self w' = self w
    /\ log w' = (log w ++ [Query "CF?" r])%list.
Proof.
  unfold HP.get_center_wavelength. intros E.
  apply bind_ok_inv in E as (r & w1 & E1 & E).
  apply bind_ok_inv in E as (cf & w2 & E2 & E).
  apply query_ok_inv in E1 as (S1 & L1).
  apply lift_ok_inv in E2 as (F & ->).
  injection E as <- <-. now exists r, cf.
Qed.

Lemma get_wavelength_span_ok (x : N) (w w' : world HP.rsrc) :
  HP.get_wavelength_span dev w = (Ok x, w') ->
  exists r sp,
    HP.float_of r = Some sp /\ x = HP.m_to_nm sp
    /\ self w' = self w
    /\ log w' = (log w ++ [Query "SP?" r])%list.
Proof.
  unfold HP.get_wavelength_span. intros E.
  apply bind_ok_inv in E as (r & w1 & E1 & E).
  apply bind_ok_inv in E as (sp & w2 & E2 & E).
  apply query_ok_inv in E1 as (S1 & L1).
  apply lift_ok_inv in E2 as (F & ->).
  injection E as <- <-. now exists r, sp.
Qed.

(** What a sweep that returns has done and what it returns. *)
Lemma get_spectrum_ok (tr : string) (w w' : world HP.rsrc)
      (wl amp : list N) (au : HP.unit_) :
  HP.get_spectrum dev tr w = (Ok (wl, (amp, au)), w') ->
  self w' = with_timeout 300 (self w)
  /\ exists au_str c s data cf sp,
       log w' = (log w ++ sweep_exchange tr au_str c s data)%list
       /\ amplitude_unit_of au_str = Some au
       /\ HP.float_of c = Some cf
       /\ HP.float_of s = Some sp
       /\ amp = HP.fromstring data
       /\ wl = HP.span_axis (HP.m_to_nm cf) (HP.m_to_nm sp) (List.length amp).
Proof.
  unfold HP.get_spectrum. intros E.
  apply bind_ok_inv in E as (? & w1 & E1 & E).
  rewrite set_timeout_run in E1. injection E1 as _ E1.
  apply bind_ok_inv in E as (au' & w2 & E2 & E).
  apply get_amplitude_units_ok in E2 as (a & Ha & S2 & L2).
  apply bind_ok_inv in E as (xc & w3 & E3 & E).
  apply get_center_wavelength_ok in E3 as (c & cf & Fc & -> & S3 & L3).
  apply bind_ok_inv in E as (xs & w4 & E4 & E).
  apply get_wavelength_span_ok in E4 as (s & sp & Fs & -> & S4 & L4).
  apply bind_ok_inv in E as (? & w5 & E5 & E).
  apply write_ok_inv in E5 as (S5 & L5).
  apply bind_ok_inv in E as (data & w6 & E6 & E).
  apply query_ok_inv in E6 as (S6 & L6).
  apply bind_ok_inv in E as (? & w7 & E7 & E).
  rewrite set_timeout_run in E7. injection E7 as _ E7.
  apply bind_ok_inv in E as (? & w8 & E8 & E).
  apply write_ok_inv in E8 as (S8 & L8).
  injection E as <- <- <- <-.
  split.
  - rewrite S8. subst w7. cbn [self].
    rewrite S6, S5, S4, S3, S2. subst w1. reflexivity.
  - exists a, c, s, data, cf, sp. repeat split; auto.
    rewrite L8. subst w7. cbn [log].
    rewrite L6, L5, L4, L3, L2. subst w1. cbn [log].
    unfold sweep_exchange. now rewrite <- !app_assoc.
Qed.
End Sweep.

(** X18.  A sweep that returns has asked for the amplitude unit, the
    centre and the span, triggered the sweep, read the trace and cleared
    it, in this order and nothing else; the amplitudes are the parsed
    trace, and the wavelength axis is the span axis of the reported
    centre and span (converted from m to nm) with exactly one point per
    amplitude. *)
Theorem get_spectrum_on_return {N : Type} `{Arith N} `{HP.Parser N}
    (dev : instrument) (tr : string) (w : world HP.rsrc)
    (wl amp : list N) (au : HP.unit_) :
  result (HP.get_spectrum dev tr w) = Ok (wl, (amp, au)) ->
  List.length wl = List.length amp
  /\ exists au_str c s data cf sp,
       trace (HP.get_spectrum dev tr w) =
         (log w ++ sweep_exchange tr au_str c s data)%list
       /\ amplitude_unit_of au_str = Some au
       /\ HP.float_of c = Some cf
       /\ HP.float_of s = Some sp
       /\ amp = HP.fromstring data
       /\ wl = HP.span_axis (HP.m_to_nm cf) (HP.m_to_nm sp) (List.length amp).
Proof.
  unfold result, trace.
  destruct (HP.get_spectrum dev tr w) as [o w'] eqn:E. cbn [fst snd].
  intros ->. apply get_spectrum_ok in E as (_ & a & c & s & data & cf & sp & R).
  split.
  - destruct R as (_ & _ & _ & _ & _ & ->).
    unfold HP.span_axis. apply linspace_length.
  - now exists a, c, s, data, cf, sp.
Qed.

Lemma get_spectrum_on_return_witness :
  List.length [4000000000 # 8; 3000000000 # 2] = List.length [1; 2].
Proof.
  exact (proj1 (get_spectrum_on_return osa "A" (fresh hp_initialized)
                  [4000000000 # 8; 3000000000 # 2] [1; 2]
                  HP.u_dimensionless eq_refl)).
Defined.

(** X19.  An answer to [AUNITS?] other than [W], [MW] or [DBM] stops
    [get_spectrum] with [UnboundLocalError] before the sweep is
    triggered: that query is its only transaction, and the timeout stays
    at 15000 ms. *)
Theorem get_spectrum_unknown_unit {N : Type} `{Arith N} `{HP.Parser N}
    (dev : instrument) (tr au_str : string) (w : world HP.rsrc) :
  answers dev (log w) "AUNITS?" = Some au_str ->
  amplitude_unit_of au_str = None ->
  HP.get_spectrum dev tr w =
  (Raise UnboundLocalError,
   {| self := with_timeout 15000 (self w);
      log := (log w ++ [Query "AUNITS?" au_str])%list;
      stdout := stdout w |}).
Proof.
  intros Hq Hu. unfold amplitude_unit_of in Hu.
  unfold HP.get_spectrum, HP.get_amplitude_units, bind, query.
  cbn [HP.set_timeout bind get_self set_self log self stdout].
  unfold bind, get_self, set_self. cbn [log self stdout]. rewrite Hq.
  destruct (au_str =? "W"); [discriminate Hu |].
  destruct (au_str =? "MW"); [discriminate Hu |].
  destruct (au_str =? "DBM"); [discriminate Hu |].
  reflexivity.
Qed.

Lemma get_spectrum_unknown_unit_witness :
  result (HP.get_spectrum (N:=Q) (responder (fun _ => Some "DBUV")) "A"
            (fresh hp_initialized)) = Raise UnboundLocalError.
Proof.
  exact (f_equal fst
           (get_spectrum_unknown_unit (N:=Q) (responder (fun _ => Some "DBUV"))
              "A" "DBUV" (fresh hp_initialized) eq_refl eq_refl)).
Defined.

Section Peaks.
Context {N : Type} `{Arith N} `{HP.Parser N}.
Variable dev : instrument.

Lemma peak_loop_ok (peak_id : list string) :
  forall (pk_wl pk_amp wls amps : list N) (w w' : world HP.rsrc),
    HP.peak_loop dev peak_id pk_wl pk_amp w = (Ok (wls, amps), w') ->
    self w' = self w
    /\ exists (answers : list (string * string)) (xs ys : list N),
         List.length answers = List.length peak_id
         /\ log w' = (log w ++ peak_exchanges peak_id answers)%list
         /\ wls = (pk_wl ++ xs)%list /\ amps = (pk_amp ++ ys)%list
         /\ map HP.float_of (map snd answers) = map Some xs
         /\ map HP.float_of (map fst answers) = map Some ys.
Proof.
  induction peak_id as [| pk rest IH]; intros pk_wl pk_amp wls amps w w';
    cbn [HP.peak_loop].
  - intros [= <- <- <-]. split; [reflexivity |].
    exists [], [], []. now rewrite !app_nil_r.
  - intros E.
    apply bind_ok_inv in E as (u1 & w1 & E1 & E).
    apply write_ok_inv in E1 as (S1 & L1).
    apply bind_ok_inv in E as (u2 & w2 & E2 & E).
    apply write_ok_inv in E2 as (S2 & L2).
    apply bind_ok_inv in E as (u3 & w3 & E3 & E).
    apply write_ok_inv in E3 as (S3 & L3).
    apply bind_ok_inv in E as (a & w4 & E4 & E).
    apply query_ok_inv in E4 as (S4 & L4).
    apply bind_ok_inv in E as (l & w5 & E5 & E).
    apply query_ok_inv in E5 as (S5 & L5).
    apply bind_ok_inv in E as (vx & w6 & E6 & E).
    apply lift_ok_inv in E6 as (Fx & ->).
    apply bind_ok_inv in E as (vy & w7 & E7 & E).
    apply lift_ok_inv in E7 as (Fy & ->).
    apply IH in E as (S6 & answers & xs & ys & Hlen & L6 & -> & -> & Fxs & Fys).
    split; [congruence |].
    exists ((a, l) :: answers), (vx :: xs), (vy :: ys).
    cbn [List.length map fst snd peak_exchanges].
    rewrite Hlen, Fx, Fy, Fxs, Fys, <- !app_assoc.
    repeat split.
    rewrite L6, L5, L4, L3, L2, L1. unfold peak_exchange. cbn [fst snd].
    now rewrite <- !app_assoc.
Qed.

Lemma get_peak_info_ok (peak_id : list string) (wls amps : list N)
      (w w' : world HP.rsrc) :
  HP.get_peak_info dev peak_id w = (Ok (wls, amps), w') ->
  self w' = with_timeout 300 (self w)
  /\ exists answers : list (string * string),
       List.length answers = List.length peak_id
       /\ log w' = (log w ++ peak_exchanges peak_id answers)%list
       /\ map HP.float_of (map snd answers) = map Some wls
       /\ map HP.float_of (map fst answers) = map Some amps.
Proof.
  unfold HP.get_peak_info. intros E.
  apply bind_ok_inv in E as (? & w1 & E1 & E).
  rewrite set_timeout_run in E1. injection E1 as _ E1.
  apply bind_ok_inv in E as ([xs ys] & w2 & E2 & E).
  apply peak_loop_ok in E2
    as (S2 & answers & xs' & ys' & Hlen & L2 & -> & -> & Fx & Fy).
  apply bind_ok_inv in E as (? & w3 & E3 & E).
  rewrite set_timeout_run in E3. injection E3 as _ E3.
  injection E as <- <- <-. subst w3. cbn [self log].
  split.
  - rewrite S2. subst w1. reflexivity.
  - exists answers. rewrite L2. subst w1. cbn [log app]. auto.
Qed.
End Peaks.

(** X20.  A peak search that returns has performed, for each requested
    kind in the order given - repeated kinds included - the five
    transactions sweep, marker, marker-to-peak, amplitude query,
    wavelength query, and nothing else; the [i]-th wavelength and the
    [i]-th amplitude returned are the parsed answers of the [i]-th kind,
    so both lists have one entry per requested kind. *)
Theorem get_peak_info_on_return {N : Type} `{Arith N} `{HP.Parser N}
    (dev : instrument) (peak_id : list string) (w : world HP.rsrc)
    (pk_wl pk_amp : list N) :
  result (HP.get_peak_info dev peak_id w) = Ok (pk_wl, pk_amp) ->
  List.length pk_wl = List.length peak_id
  /\ List.length pk_amp = List.length peak_id
  /\ exists answers : list (string * string),
       List.length answers = List.length peak_id
       /\ trace (HP.get_peak_info dev peak_id w) =
          (log w ++ peak_exchanges peak_id answers)%list
       /\ map HP.float_of (map snd answers) = map Some pk_wl
       /\ map HP.float_of (map fst answers) = map Some pk_amp.
Proof.
  unfold result, trace.
  destruct (HP.get_peak_info dev peak_id w) as [o w'] eqn:E. cbn [fst snd].
  intros ->. apply get_peak_info_ok in E as (_ & answers & Hlen & L & Fx & Fy).
  pose proof (f_equal (@List.length _) Fx) as Lx.
  pose proof (f_equal (@List.length _) Fy) as Ly.
  rewrite !length_map in Lx, Ly.
  repeat split; try congruence.
  now exists answers.
Qed.

Lemma get_peak_info_on_return_witness :
  List.length [1; 1; 1] = List.length ["HIP"; "NH"; "HIP"].
Proof.
  exact (proj1 (get_peak_info_on_return osa ["HIP"; "NH"; "HIP"]
                  (fresh hp_initialized) [1; 1; 1] [1; 1; 1] eq_refl)).
Defined.

(** X21.  On a session whose timeout is 300 ms, as [_initialize] leaves
    it, a sweep or a peak search that returns leaves the three session
    attributes exactly as they were. *)
Theorem hp_initialized_session_kept {N : Type} `{Arith N} `{HP.Parser N}
    (dev : instrument) (w : world HP.rsrc) :
  HP.timeout (self w) = 300%Z ->
  (forall tr r,
      result (HP.get_spectrum dev tr w) = Ok r ->
      final (HP.get_spectrum dev tr w) = self w)
  /\
  (forall peak_id r,
      result (HP.get_peak_info dev peak_id w) = Ok r ->
      final (HP.get_peak_info dev peak_id w) = self w).
Proof.
  intros Ht.
  assert (Hs : with_timeout 300 (self w) = self w).
  { destruct w as [[t rt wt] l out]. cbn in Ht. subst t. reflexivity. }
  split.
  - intros tr [wl [amp au]]. unfold result, final.
    destruct (HP.get_spectrum dev tr w) as [o w'] eqn:E. cbn [fst snd].
    intros ->. apply get_spectrum_ok in E as (S & _). congruence.
  - intros peak_id [wls amps]. unfold result, final.
    destruct (HP.get_peak_info dev peak_id w) as [o w'] eqn:E. cbn [fst snd].
    intros ->. apply get_peak_info_ok in E as (S & _). congruence.
Qed.

Lemma hp_initialized_session_kept_witness :
  final (HP.get_spectrum osa "A" (fresh hp_initialized)) = hp_initialized.
Proof.
  exact (proj1 (hp_initialized_session_kept osa (fresh hp_initialized) eq_refl)
               "A" ([4000000000 # 8; 3000000000 # 2],
                    ([1; 2], HP.u_dimensionless)) eq_refl).
Defined.

(** X23.  [get_sweep_time] sets the session timeout to 5000 ms and never
    sets it back: whether it returns the sweep time or raises, the
    timeout is 5000 ms afterwards and the termination characters are
    untouched. *)
Theorem get_sweep_time_leaves_5000 {N : Type} `{Arith N} `{HP.Parser N}
    (dev : instrument) (w : world HP.rsrc) :
  final (HP.get_sweep_time dev w) = with_timeout 5000 (self w).
Proof.
  unfold final.
  destruct (HP.get_sweep_time dev w) as [o wf] eqn:E. cbn [snd].
  unfold HP.get_sweep_time in E.
  apply bind_inv in E as [(? & w1 & E1 & E) | (e & E1 & _)];
    [| rewrite set_timeout_run in E1; discriminate E1].
  rewrite set_timeout_run in E1. injection E1 as _ <-.
  assert (K : keeps_self (S:=HP.rsrc)
                (r <- query dev "ST?" ;;
                 st <- lift ValueError (HP.float_of r) ;; ret st)) by frame.
  apply K in E. rewrite E. reflexivity.
Qed.

(* ================================================================== *)
(** * The span axis, in the arithmetic of the code *)
(* ================================================================== *)

(** From two samples on, [np.linspace] is the rounded samples of all
    indices but the last, followed by [stop] itself. *)
Lemma linspace_samples {N : Type} `{Arith N} (start stop : N) (num : nat) :
  (2 <= num)%nat ->
  Np.linspace start stop num =
  (map (rounded_sample start stop num) (seq 0 (num - 1)) ++ [stop])%list.
Proof.
  intros Hn. destruct num as [| [| k]]; [lia | lia | clear Hn].
  unfold Np.linspace, Np.arange, rounded_sample.
  change (S (S k) - 1)%nat with (S k).
  change (0 <? S k)%nat with true. change (1 <? S (S k))%nat with true.
  cbv iota zeta.
  assert (Hy : forall y : list N, y <> [] ->
               Np.set_last y stop = (removelast y ++ [stop])%list).
  { intros [| a y] Hne; [congruence | reflexivity]. }
  destruct (is_zero (div (sub stop start) (of_Z (Z.of_nat (S k)))));
    rewrite !map_map, Hy;
    try (rewrite seq_S, map_app; cbn [map]; now rewrite removelast_last);
    rewrite seq_S, map_app; cbn [map]; intros E;
    now destruct (map _ (seq 0 (S k))).
Qed.

(** In binary64, when the start and the step of the axis are finite and
    the step is positive: the first point has the value of the start,
    and the points before the last are in non-decreasing order. *)
Lemma span_axis_binary64 (center span : float) (n : nat) :
  (2 <= n)%nat -> (Z.of_nat n <= 2 ^ 53)%Z ->
  is_finite (sub center (div span (of_Z 2))) = true ->
  is_finite (div (sub (add center (div span (of_Z 2)))
                      (sub center (div span (of_Z 2))))
                 (of_Z (Z.of_nat (n - 1)))) = true ->
  float_lt 0 (div (sub (add center (div span (of_Z 2)))
                       (sub center (div span (of_Z 2))))
                  (of_Z (Z.of_nat (n - 1)))) ->
  PrimFloat.eqb (hd 0%float (HP.span_axis center span n))
                (sub center (div span (of_Z 2))) = true
  /\ chain float_le (removelast (HP.span_axis center span n)).
Proof.
  intros Hn Hb Fstart Fstep Hpos. unfold HP.span_axis.
  rewrite linspace_samples by exact Hn. rewrite removelast_last.
  set (start := sub center (div span (of_Z 2))) in *.
  set (stop := add center (div span (of_Z 2))) in *.
  set (step := div (sub stop start) (of_Z (Z.of_nat (n - 1)))) in *.
  apply is_finite_ffin in Fstart, Fstep.
  assert (E : forall i, rounded_sample start stop n i
                        = (float_of_Z (Z.of_nat i) * step + start)%float).
  { intros i. unfold rounded_sample. fold step.
    cbn [is_zero add mul of_Z float_Arith].
    now rewrite (ltb_0_not_zero step Hpos). }
  split.
  - destruct n as [| [| k]]; [lia | lia |].
    replace (S (S k) - 1)%nat with (S k) by lia.
    cbn [seq map app hd]. rewrite E. change (float_of_Z (Z.of_nat 0)) with 0%float.
    now apply zero_mul_add.
  - erewrite map_ext by (intros i; apply E).
    apply chain_map_seq. intros i _ Hi. unfold float_le.
    apply sample_le; auto; try lia. now apply ltb_0_leb.
Qed.

(** C6 fails.  A zero span gives a constant axis and a negative span a
    decreasing one, in binary64 as in exact arithmetic.  In binary64 a
    positive span does not help when it is small against the centre:
    for centre 1550 and span 4e-13 three of the five points coincide,
    and for centre 1e30 and span 1 all points do.  Nor does it help
    when [center + span/2] overflows: the step is then infinite and the
    first point is not a number.  And the last point, which is set to
    [center + span/2] and not computed from the step, can fall below the
    point before it: for centre [10 * 2^-1074], span [4 * 2^-1074] and
    seven points the step [4/6 * 2^-1074] rounds up to [2^-1074], and
    the axis is 8, 9, 10, 11, 12, 13, 12 times [2^-1074]. *)
Lemma span_axis_counterexample :
  HP.span_axis 1550%float 0%float 3 = [1550; 1550; 1550]%float
  /\ ~ chain float_lt (HP.span_axis 1550%float 0%float 3)
  /\ HP.span_axis 1550%float (-10)%float 3 = [1555; 1550; 1545]%float
  /\ ~ chain float_le (HP.span_axis 1550%float (-10)%float 3)
  /\ ~ chain Qlt (HP.span_axis 1550 0 3)
  /\ ~ chain Qle (HP.span_axis 1550 (-10) 3)
  /\ HP.span_axis 1550%float 4e-13%float 5 =
       [1549.9999999999998; 1550; 1550; 1550; 1550.0000000000002]%float
  /\ ~ chain float_lt (HP.span_axis 1550%float 4e-13%float 5)
  /\ ~ chain float_lt (HP.span_axis 1e30%float 1%float 3)
  /\ HP.span_axis 1e308%float 1.7e308%float 3 =
       [nan; infinity; infinity]%float
  /\ ~ chain float_le (HP.span_axis 1e308%float 1.7e308%float 3)
  /\ map Prim2SF (HP.span_axis 0x1.4p-1071%float 0x1p-1072%float 7) =
       [S754_finite false 8 (-1074); S754_finite false 9 (-1074);
        S754_finite false 10 (-1074); S754_finite false 11 (-1074);
        S754_finite false 12 (-1074); S754_finite false 13 (-1074);
        S754_finite false 12 (-1074)]
  /\ ~ chain float_le (HP.span_axis 0x1.4p-1071%float 0x1p-1072%float 7).
Proof.
  repeat split.
  - intros [E _]. vm_compute in E. discriminate E.
  - intros [E _]. vm_compute in E. discriminate E.
  - intros [E _]. vm_compute in E. discriminate E.
  - intros [E _]. vm_compute in E. apply E. reflexivity.
  - intros (_ & E & _). vm_compute in E. discriminate E.
  - intros [E _]. vm_compute in E. discriminate E.
  - intros [E _]. vm_compute in E. discriminate E.
  - intros (_ & _ & _ & _ & _ & E & _). vm_compute in E. discriminate E.
Qed.

(** C6, amended.  In the arithmetic of the code - binary64, or any
    other - for every centre, every span and every count [n >= 2] the
    axis has [n] points; its [i]-th point, for [i < n - 1], is
    [start + i * step] with [start = center - span/2] and
    [step = (stop - start) / (n - 1)], each operation rounded; and its
    last point is [center + span/2] itself.  In binary64, when the start
    and the step so computed are finite and the step is positive, the
    first point has the value of the start and the points before the
    last are in non-decreasing order (the last can fall below them);
    for centre 1550, span 10 and count 5 the axis is exactly 1545,
    1547.5, 1550, 1552.5, 1555, strictly increasing.  In exact
    arithmetic every span greater than zero gives a strictly increasing
    axis that starts at [center - span/2] and whose [i]-th point is
    [center - span/2 + i * span/(n-1)]. *)
Theorem span_axis_linear_increasing :
  (forall (N : Type) (A : Arith N) (center span d : N) (n : nat),
      (2 <= n)%nat ->
      HP.span_axis center span n =
        (map (rounded_sample (sub center (div span (of_Z 2)))
                             (add center (div span (of_Z 2))) n)
             (seq 0 (n - 1))
         ++ [add center (div span (of_Z 2))])%list
      /\ List.length (HP.span_axis center span n) = n
      /\ last (HP.span_axis center span n) d = add center (div span (of_Z 2)))
  /\ (forall (center span : float) (n : nat),
        (2 <= n)%nat -> (Z.of_nat n <= 2 ^ 53)%Z ->
        is_finite (sub center (div span (of_Z 2))) = true ->
        is_finite (div (sub (add center (div span (of_Z 2)))
                            (sub center (div span (of_Z 2))))
                       (of_Z (Z.of_nat (n - 1)))) = true ->
        float_lt 0 (div (sub (add center (div span (of_Z 2)))
                             (sub center (div span (of_Z 2))))
                        (of_Z (Z.of_nat (n - 1)))) ->
        PrimFloat.eqb (hd 0%float (HP.span_axis center span n))
                      (sub center (div span (of_Z 2))) = true
        /\ chain float_le (removelast (HP.span_axis center span n)))
  /\ (HP.span_axis 1550%float 10%float 5 =
        [1545; 1547.5; 1550; 1552.5; 1555]%float
      /\ chain float_lt (HP.span_axis 1550%float 10%float 5))
  /\ (forall (center span : Q) (n : nat),
        (2 <= n)%nat -> 0 < span ->
        hd 0 (HP.span_axis center span n) == center - span / 2
        /\ last (HP.span_axis center span n) 0 == center + span / 2
        /\ Forall2 Qeq (HP.span_axis center span n)
             (map (fun i => center - span / 2
                            + inject_Z (Z.of_nat i)
                              * (span / inject_Z (Z.of_nat (n - 1))))
                  (seq 0 n))
        /\ chain Qlt (HP.span_axis center span n)).
Proof.
  split; [| split; [| split]].
  - intros N A center span d n Hn. unfold HP.span_axis.
    split; [now apply linspace_samples |].
    split; [apply linspace_length | now apply linspace_last].
  - exact span_axis_binary64.
  - split; [reflexivity |]. vm_compute. repeat split.
  - intros center span n Hn Hspan.
    now apply span_axis_Q_increasing.
Qed.

Lemma span_axis_linear_increasing_witness :
  (HP.span_axis 1550.5%float 0.25%float 3 =
     (map (rounded_sample (PrimFloat.sub 1550.5 (PrimFloat.div 0.25 2))
                          (PrimFloat.add 1550.5 (PrimFloat.div 0.25 2)) 3)
          (seq 0 (3 - 1))
      ++ [PrimFloat.add 1550.5 (PrimFloat.div 0.25 2)])%list
   /\ List.length (HP.span_axis 1550.5%float 0.25%float 3) = 3%nat
   /\ last (HP.span_axis 1550.5%float 0.25%float 3) 0%float
      = PrimFloat.add 1550.5 (PrimFloat.div 0.25 2))
  /\ (PrimFloat.eqb (hd 0%float (HP.span_axis 1550%float 4e-13%float 5))
                    (PrimFloat.sub 1550 (PrimFloat.div 4e-13 2)) = true
      /\ chain float_le (removelast (HP.span_axis 1550%float 4e-13%float 5)))
  /\ chain Qlt (HP.span_axis 1550 10 5).
Proof.
  assert (H3 : (2 <= 3)%nat) by lia.
  assert (H5 : (2 <= 5)%nat) by lia.
  assert (Hb : (Z.of_nat 5 <= 2 ^ 53)%Z) by (vm_compute; discriminate).
  assert (Hspan : 0 < 10) by reflexivity.
  split; [| split].
  - exact (proj1 span_axis_linear_increasing float float_Arith
                 1550.5%float 0.25%float 0%float 3%nat H3).
  - exact (proj1 (proj2 span_axis_linear_increasing)
                 1550%float 4e-13%float 5%nat H5 Hb eq_refl eq_refl eq_refl).
  - exact (proj2 (proj2 (proj2 (proj2 (proj2 (proj2
             span_axis_linear_increasing)) 1550 10 5%nat H5 Hspan)))).
Defined.
